(** * Hashi (Bridges) puzzle engine: a shallow embedding of
      [src/components/HashiGame.tsx] and the properties of its generator,
      connection validator, bridge ledger and win check.

    Conventions of the embedding.
    - JavaScript numbers that the engine manipulates are small integers
      (grid coordinates, bridge counts, connection budgets); they are
      modelled as [Z].  Array indices and lengths are [nat].
    - JavaScript objects have an identity: [a === b] on two [Point]s compares
      references, not contents.  Every [Point] carries its identity in the
      field [Point.ref]; [ptr_eq] is [===].  An object spread [{...p, f: v}]
      allocates a new object, hence a new [ref].
    - [Math.random] is an oracle: the generator reads its draws from a finite
      tape, and running off the tape is the model's way of not terminating. *)

From Stdlib Require Import ZArith Lia.
From stdpp Require Import base numbers gmap list.

Local Open Scope Z_scope.

(** ** 1. Type definitions *)

Module Point.
(** [export type Point]: an island.  [ref] is the identity of the
    JavaScript object. *)
Record t : Type := mk {
  ref : nat;
  value : Z;
  x : Z;
  y : Z;
  horizontal : Z;
  vertical : Z;
  remainingConnections : Z
}.

(** [{...p, remainingConnections: r}] stored at the fresh reference [n]. *)
Definition spread_remaining (n : nat) (p : t) (r : Z) : t :=
  mk n (value p) (x p) (y p) (horizontal p) (vertical p) r.

(** The contents of the object, without its identity. *)
Definition fields (p : t) : Z * Z * Z * Z * Z * Z :=
  (value p, x p, y p, horizontal p, vertical p, remainingConnections p).
End Point.

Module Bridge.
(** [export type Bridge].  [id] is the string made by [createUniqueId];
    the model draws it from a counter, so that two calls never return the
    same id. *)
Record t : Type := mk {
  id : nat;
  start : Point.t;
  end_ : Point.t;
  count : Z;
  isVertical : bool
}.

(** [{...b, count: c}] *)
Definition spread_count (b : t) (c : Z) : t :=
  mk (id b) (start b) (end_ b) c (isVertical b).
End Bridge.

(** [export type GameBoard = Point[]] *)
Definition GameBoard : Type := list Point.t.

(** [a === b] on two [Point] objects. *)
Definition ptr_eq (a b : Point.t) : bool := Nat.eqb (Point.ref a) (Point.ref b).

(** [p.x === q.x && p.y === q.y], the coordinate-based match of
    [updatePointConnections] and [handleBridgeClick]. *)
Definition same_coords (p q : Point.t) : bool :=
  (Point.x p =? Point.x q) && (Point.y p =? Point.y q).

(** [Array.prototype.findIndex]; [None] stands for [-1]. *)
Fixpoint findIndex {A : Type} (f : A → bool) (l : list A) : option nat :=
  match l with
  | [] => None
  | a :: l' => if f a then Some 0%nat else S <$> findIndex f l'
  end.

(** ** 3. The React component: validator, ledger, win check *)

(** The state held by the component's hooks that the engine reads or writes.
    [nextRef] and [nextId] are the allocator of objects and the source of
    unique bridge ids. *)
Record State : Type := mkState {
  board : GameBoard;
  bridges : list Bridge.t;
  selectedPoint : option Point.t;
  isDragging : bool;
  nextRef : nat;
  nextId : nat
}.

(** The closure passed to [board.some] in [isValidConnection]. *)
Definition blocks (start end_ p : Point.t) : bool :=
  if ptr_eq p start || ptr_eq p end_ then false
  else if Point.x start =? Point.x end_ then
    let minY := Z.min (Point.y start) (Point.y end_) in
    let maxY := Z.max (Point.y start) (Point.y end_) in
    (Point.x p =? Point.x start) && (minY <? Point.y p) && (Point.y p <? maxY)
  else
    let minX := Z.min (Point.x start) (Point.x end_) in
    let maxX := Z.max (Point.x start) (Point.x end_) in
    (Point.y p =? Point.y start) && (minX <? Point.x p) && (Point.x p <? maxX).

(** [isValidConnection(start, end)], reading [board] from the state. *)
Definition isValidConnection (board : GameBoard) (start end_ : Point.t) : bool :=
  if negb (Point.x start =? Point.x end_) && negb (Point.y start =? Point.y end_)
  then false
  else if (Point.remainingConnections start <=? 0)
          || (Point.remainingConnections end_ <=? 0)
  then false
  else
    let blocked := existsb (blocks start end_) board in
    negb blocked.

(** [old.map((p) => test(p) ? {...p, remainingConnections: upd(p)} : p)]:
    every replaced island is a newly allocated object. *)
Fixpoint mapAlloc (test : Point.t → bool) (upd : Point.t → Z)
    (next : nat) (old : GameBoard) : GameBoard * nat :=
  match old with
  | [] => ([], next)
  | p :: ps =>
      if test p then
        let '(ps', n') := mapAlloc test upd (S next) ps in
        (Point.spread_remaining next p (upd p) :: ps', n')
      else
        let '(ps', n') := mapAlloc test upd next ps in
        (p :: ps', n')
  end.

(** [updatePointConnections(start, end, change)] *)
Definition updatePointConnections (start end_ : Point.t) (change : Z)
    (s : State) : State :=
  let '(b, n) :=
    mapAlloc (λ p, same_coords p start || same_coords p end_)
             (λ p, Point.remainingConnections p - change)
             (nextRef s) (board s) in
  mkState b (bridges s) (selectedPoint s) (isDragging s) n (nextId s).

Definition setBridges (bs : list Bridge.t) (s : State) : State :=
  mkState (board s) bs (selectedPoint s) (isDragging s) (nextRef s) (nextId s).

(** The closure passed to [bridges.findIndex] in [addOrUpdateBridge]. *)
Definition joins (start end_ : Point.t) (b : Bridge.t) : bool :=
  (ptr_eq (Bridge.start b) start && ptr_eq (Bridge.end_ b) end_)
  || (ptr_eq (Bridge.start b) end_ && ptr_eq (Bridge.end_ b) start).

(** [addOrUpdateBridge(start, end)]: 0 -> 1 -> 2 -> remove. *)
Definition addOrUpdateBridge (start end_ : Point.t) (s : State) : State :=
  let isVertical := Point.x start =? Point.x end_ in
  match findIndex (joins start end_) (bridges s) with
  | Some idx =>
      match bridges s !! idx with
      | Some existing =>
          if 2 <=? Bridge.count existing then
            updatePointConnections start end_ (-2)
              (setBridges (delete idx (bridges s)) s)
          else
            updatePointConnections start end_ 1
              (setBridges (<[idx := Bridge.spread_count existing 2]> (bridges s)) s)
      | None => s
      end
  | None =>
      let newBridge := Bridge.mk (nextId s) start end_ 1 isVertical in
      updatePointConnections start end_ 1
        (mkState (board s) (bridges s ++ [newBridge]) (selectedPoint s)
                 (isDragging s) (nextRef s) (S (nextId s)))
  end.

Definition setSelection (sel : option Point.t) (drag : bool) (s : State) : State :=
  mkState (board s) (bridges s) sel drag (nextRef s) (nextId s).

(** [handlePointClick(pt)] *)
Definition handlePointClick (pt : Point.t) (s : State) : State :=
  match selectedPoint s with
  | None => setSelection (Some pt) true s
  | Some sel =>
      if ptr_eq pt sel then setSelection None false s
      else
        let s' := if isValidConnection (board s) sel pt
                  then addOrUpdateBridge sel pt s else s in
        setSelection None false s'
  end.

(** The closure passed to [old.map] in both branches of
    [handleBridgeClick]. *)
Definition restoreOne (bridge : Bridge.t) (s : State) : State :=
  let '(b, n) :=
    mapAlloc (λ p, same_coords p (Bridge.start bridge)
                   || same_coords p (Bridge.end_ bridge))
             (λ p, Point.remainingConnections p + 1)
             (nextRef s) (board s) in
  mkState b (bridges s) (selectedPoint s) (isDragging s) n (nextId s).

(** [handleBridgeClick(bridge)]: partial removal, 2 -> 1 or 1 -> 0. *)
Definition handleBridgeClick (bridge : Bridge.t) (s : State) : State :=
  if 1 <? Bridge.count bridge then
    restoreOne bridge
      (setBridges
         (map (λ b, if Nat.eqb (Bridge.id b) (Bridge.id bridge)
                    then Bridge.spread_count b 1 else b) (bridges s)) s)
  else
    restoreOne bridge
      (setBridges
         (filter (λ b, Bridge.id b ≠ Bridge.id bridge) (bridges s)) s).

(** [handleMouseMove(e)].  The pointer position is a pair of floating-point
    numbers; what the handler uses of it is the proximity test
    [dx < 0.5 && dy < 0.5] on each island's coordinates, which the model
    takes as the argument [near_test]. *)
Definition handleMouseMove (near_test : Z → Z → bool) (s : State) : State :=
  match isDragging s, selectedPoint s with
  | true, Some sel =>
      match board s with
      | [] => s
      | _ =>
        let near := List.find (λ pp, near_test (Point.x pp) (Point.y pp)
                                && negb (ptr_eq pp sel)) (board s) in
        match near with
        | Some nr =>
            if isValidConnection (board s) sel nr
            then setSelection None false (addOrUpdateBridge sel nr s)
            else s
        | None => s
        end
      end
  | _, _ => s
  end.

(** [handleMouseUp()] *)
Definition handleMouseUp (s : State) : State := setSelection None false s.

(** The win-check effect: [if (board.length > 0) setIsGameWon(board.every(...))]. *)
Definition winEffect (board : GameBoard) (isGameWon : bool) : bool :=
  if (0 <? length board)%nat
  then forallb (λ p, Point.remainingConnections p =? 0) board
  else isGameWon.

(** What the user can do to the board: press the mouse on the [i]-th island
    drawn, click the [j]-th bridge drawn, move the pointer, release it.
    Handlers only exist for islands and bridges of the current state. *)
Inductive event : Type :=
  | PointClick (i : nat)
  | BridgeClick (j : nat)
  | MouseMove (near_test : Z → Z → bool)
  | MouseUp.

Definition handle (s : State) (e : event) : State :=
  match e with
  | PointClick i =>
      match board s !! i with Some pt => handlePointClick pt s | None => s end
  | BridgeClick j =>
      match bridges s !! j with Some b => handleBridgeClick b s | None => s end
  | MouseMove near_test => handleMouseMove near_test s
  | MouseUp => handleMouseUp s
  end.

(** The state installed by the effect that runs after generation:
    [setBoard(puzzle); setBridges([]); setSelectedPoint(null); ...]. *)
Definition initState (puzzle : GameBoard) : State :=
  mkState puzzle [] None false
          (S (foldr Nat.max 0%nat (map Point.ref puzzle))) 0.

Definition run (puzzle : GameBoard) (es : list event) : State :=
  foldl handle (initState puzzle) es.

(** The fixed board returned when generation gives up. *)
Definition fallbackBoard : GameBoard :=
  [ Point.mk 0 2 0 0 0 0 2; Point.mk 1 2 1 0 0 0 2 ].

(** ** 2. Puzzle generation *)

(** [type Mode] and [MODES_CONFIG]. *)
Inductive Mode : Type := easy | normal | insane.

Record ModeConfig : Type := mkConfig {
  gridSize : nat;
  minIslands : nat;
  maxIslands : nat
}.

Definition MODES_CONFIG (mode : Mode) : ModeConfig :=
  match mode with
  | easy => mkConfig 5 5 8
  | normal => mkConfig 7 8 14
  | insane => mkConfig 9 12 20
  end.

(** Computations that draw from [Math.random]: a state monad over the tape
    of draws still to come, failing when the tape is used up. *)
Definition Rand (A : Type) : Type := list nat → option (A * list nat).

Definition ret {A : Type} (a : A) : Rand A := λ tape, Some (a, tape).

Definition bind {A B : Type} (m : Rand A) (k : A → Rand B) : Rand B :=
  λ tape, match m tape with
          | Some (a, tape') => k a tape'
          | None => None
          end.

Notation "x <~ m ;; k" := (bind m (λ x, k))
  (at level 20, m at level 99, k at level 200, only parsing).

(** [Math.floor(Math.random() * n)]: some integer of [0, n). *)
Definition randomInt (n : nat) : Rand nat :=
  λ tape, match tape with
          | [] => None
          | r :: tape' => Some ((if Nat.eqb n 0 then 0 else r mod n)%nat, tape')
          end.

(** [[arr[i], arr[j]] = [arr[j], arr[i]]] *)
Definition swap {A : Type} (arr : list A) (i j : nat) : list A :=
  match arr !! i, arr !! j with
  | Some ai, Some aj => <[j := ai]> (<[i := aj]> arr)
  | _, _ => arr
  end.

(** The loop of [shuffleArray], from index [i] down to 1. *)
Fixpoint shuffleFrom {A : Type} (i : nat) (arr : list A) : Rand (list A) :=
  match i with
  | O => ret arr
  | S i' =>
      j <~ randomInt (i + 1) ;;
      shuffleFrom i' (swap arr i j)
  end.

(** [shuffleArray(arr)] (Fisher-Yates); the shuffled array is returned
    instead of being updated in place. *)
Definition shuffleArray {A : Type} (arr : list A) : Rand (list A) :=
  shuffleFrom (length arr - 1) arr.

(** [hasIslandInBetween(start, end, all)] *)
Definition hasIslandInBetween (start end_ : Point.t) (all : list Point.t) : bool :=
  if negb (Point.x start =? Point.x end_) && negb (Point.y start =? Point.y end_)
  then true
  else existsb (blocks start end_) all.

(** An entry of [potential]: [{ start: Point; end: Point }].  During
    generation the islands are mutated in place, so an edge holds the
    references of its two islands and not copies of them. *)
Module Edge.
Record t : Type := mk { start : nat; end_ : nat }.
End Edge.

(** An entry of [usedEdges]. *)
Module UsedEdge.
Record t : Type := mk { start : nat; end_ : nat; count : Z }.
End UsedEdge.

(** *** Union-find

    [parent] is a [Map<Point, Point>] keyed by object identity. *)

(** [points.forEach((p) => parent.set(p, p))] *)
Definition unionFindInit (points : list Point.t) : gmap nat nat :=
  foldl (λ parent p, <[Point.ref p := Point.ref p]> parent) ∅ points.

(** [find(a)], with path compression.  The recursion follows parent
    pointers; [fuel] bounds its depth. *)
Fixpoint find_fuel (fuel : nat) (parent : gmap nat nat) (a : nat)
    : option (gmap nat nat * nat) :=
  match fuel with
  | O => None
  | S fuel' =>
      match parent !! a with
      | None => None
      | Some pa =>
          if negb (Nat.eqb pa a) then
            match find_fuel fuel' parent pa with
            | Some (parent1, r) =>
                let parent2 := <[a := r]> parent1 in
                match parent2 !! a with
                | Some r' => Some (parent2, r')
                | None => None
                end
            | None => None
            end
          else Some (parent, pa)
      end
  end.

(** A chain of parent pointers visits every island at most once, so as many
    steps as there are islands suffice. *)
Definition find (parent : gmap nat nat) (a : nat) : option (gmap nat nat * nat) :=
  find_fuel (size parent) parent a.

(** [union(a, b)]: [parent.set(find(b), find(a))]; the arguments of [set]
    are evaluated from left to right. *)
Definition union (parent : gmap nat nat) (a b : nat) : option (gmap nat nat) :=
  match find parent b with
  | Some (parent1, rb) =>
      match find parent1 a with
      | Some (parent2, ra) => Some (<[rb := ra]> parent2)
      | None => None
      end
  | None => None
  end.

(** [sameSet(a, b)]: [find(a) === find(b)] *)
Definition sameSet (parent : gmap nat nat) (a b : nat)
    : option (gmap nat nat * bool) :=
  match find parent a with
  | Some (parent1, ra) =>
      match find parent1 b with
      | Some (parent2, rb) => Some (parent2, Nat.eqb ra rb)
      | None => None
      end
  | None => None
  end.

(** One iteration of the spanning-tree loop (step 3 of the generator). *)
Definition mstStep (st : gmap nat nat * list UsedEdge.t) (e : Edge.t)
    : option (gmap nat nat * list UsedEdge.t) :=
  let '(parent, usedEdges) := st in
  match sameSet parent (Edge.start e) (Edge.end_ e) with
  | Some (parent1, same) =>
      if negb same then
        let usedEdges' :=
          usedEdges ++ [UsedEdge.mk (Edge.start e) (Edge.end_ e) 1] in
        match union parent1 (Edge.start e) (Edge.end_ e) with
        | Some parent2 => Some (parent2, usedEdges')
        | None => None
        end
      else Some (parent1, usedEdges)
  | None => None
  end.

(** [for (const e of potential) { if (!sameSet(...)) { ... } }] *)
Fixpoint mstLoop (st : gmap nat nat * list UsedEdge.t) (potential : list Edge.t)
    : option (gmap nat nat * list UsedEdge.t) :=
  match potential with
  | [] => Some st
  | e :: rest =>
      match mstStep st e with
      | Some st' => mstLoop st' rest
      | None => None
      end
  end.

(** The closure passed to [usedEdges.find] in step 4. *)
Definition sameEdge (e : Edge.t) (ue : UsedEdge.t) : bool :=
  (Nat.eqb (UsedEdge.start ue) (Edge.start e)
   && Nat.eqb (UsedEdge.end_ ue) (Edge.end_ e))
  || (Nat.eqb (UsedEdge.start ue) (Edge.end_ e)
      && Nat.eqb (UsedEdge.end_ ue) (Edge.start e)).

(** Step 4: add or upgrade edges while [extrasToAdd > 0].  [existing] is an
    element of [usedEdges], so [existing.count = 2] updates the array. *)
Fixpoint augment (extrasToAdd : Z) (usedEdges : list UsedEdge.t)
    (potential : list Edge.t) : list UsedEdge.t :=
  match potential with
  | [] => usedEdges
  | e :: rest =>
      if extrasToAdd <=? 0 then usedEdges
      else
        match findIndex (sameEdge e) usedEdges with
        | Some k =>
            match usedEdges !! k with
            | Some existing =>
                if UsedEdge.count existing <? 2 then
                  augment (extrasToAdd - 1)
                    (<[k := UsedEdge.mk (UsedEdge.start existing)
                                        (UsedEdge.end_ existing) 2]> usedEdges)
                    rest
                else augment extrasToAdd usedEdges rest
            | None => usedEdges
            end
        | None =>
            augment (extrasToAdd - 1)
              (usedEdges ++ [UsedEdge.mk (Edge.start e) (Edge.end_ e) 1]) rest
        end
  end.

(** [p.value += c] on the island stored at reference [i]. *)
Definition addValue (i : nat) (c : Z) (islands : list Point.t) : list Point.t :=
  alter (λ p, Point.mk (Point.ref p) (Point.value p + c) (Point.x p) (Point.y p)
                       (Point.horizontal p) (Point.vertical p)
                       (Point.remainingConnections p)) i islands.

(** Step 5: [usedEdges.forEach((ed) => { ed.start.value += ed.count; ... })] *)
Definition sumValues (usedEdges : list UsedEdge.t) (islands : list Point.t)
    : list Point.t :=
  foldl (λ isl ed,
           addValue (UsedEdge.end_ ed) (UsedEdge.count ed)
             (addValue (UsedEdge.start ed) (UsedEdge.count ed) isl))
        islands usedEdges.

(** The rejection-sampling loop that chooses the positions.  Every
    iteration draws twice, so the recursion is bounded by the tape. *)
Fixpoint sampleLoop (fuel : nat) (gridSize islandCount : nat)
    (positions : list (Z * Z)) : Rand (list (Z * Z)) :=
  if (length positions <? islandCount)%nat then
    match fuel with
    | O => λ _, None
    | S fuel' =>
        xr <~ randomInt gridSize ;;
        yr <~ randomInt gridSize ;;
        let x := Z.of_nat xr in
        let y := Z.of_nat yr in
        if negb (existsb (λ p, (p.1 =? x) && (p.2 =? y)) positions)
        then sampleLoop fuel' gridSize islandCount (positions ++ [(x, y)])
        else sampleLoop fuel' gridSize islandCount positions
    end
  else ret positions.

Definition samplePositions (gridSize islandCount : nat) : Rand (list (Z * Z)) :=
  λ tape, sampleLoop (length tape) gridSize islandCount [] tape.

(** [positions.map((pos) => ({ x: pos.x, y: pos.y, value: 0, ... }))]: the
    [i]-th island is the [i]-th object allocated. *)
Definition createIslands (positions : list (Z * Z)) : list Point.t :=
  imap (λ i pos, Point.mk i 0 pos.1 pos.2 0 0 0) positions.

(** Step 2: the double loop that fills [potential]. *)
Definition potentialEdges (islands : list Point.t) : list Edge.t :=
  i ← seq 0 (length islands);
  j ← seq (S i) (length islands - S i);
  match islands !! i, islands !! j with
  | Some A, Some B =>
      if (Point.x A =? Point.x B) || (Point.y A =? Point.y B) then
        if negb (hasIslandInBetween A B islands)
        then [Edge.mk (Point.ref A) (Point.ref B)]
        else []
      else []
  | _, _ => []
  end.

(** Step 6: [islands.map((p) => ({ ...p, remainingConnections: p.value }))];
    the copies are new objects. *)
Definition finalize (islands : list Point.t) : GameBoard :=
  imap (λ i p, Point.spread_remaining (length islands + i) p (Point.value p))
       islands.

(** Steps 2 to 5 for given islands: the candidate edges after the first
    shuffle, the edges used, and the islands with their values. *)
Definition buildEdges (islands : list Point.t)
    : Rand (option (list Edge.t * list UsedEdge.t * list Point.t)) :=
  potential1 <~ shuffleArray (potentialEdges islands) ;;
  match mstLoop (unionFindInit islands, []) potential1 with
  | None => ret None
  | Some (_, treeEdges) =>
      let extrasToAdd := Z.of_nat (length islands / 2) in
      potential2 <~ shuffleArray potential1 ;;
      let usedEdges := augment extrasToAdd treeEdges potential2 in
      ret (Some (potential1, usedEdges, sumValues usedEdges islands))
  end.

(** The body of the [for (attempt ...)] loop: [Some board] when the attempt
    returns, [None] when it ends with [continue]. *)
Definition attempt (mode : Mode) : Rand (option GameBoard) :=
  let cfg := MODES_CONFIG mode in
  r <~ randomInt (maxIslands cfg - minIslands cfg + 1) ;;
  let islandCount := (r + minIslands cfg)%nat in
  positions <~ samplePositions (gridSize cfg) islandCount ;;
  let islands := createIslands positions in
  built <~ buildEdges islands ;;
  match built with
  | None => λ _, None
  | Some (_, _, islands') =>
      if existsb (λ i, Point.value i =? 0) islands' then ret None
      else ret (Some (finalize islands'))
  end.

(** The [for] loop with the attempts left to make, then the fallback. *)
Fixpoint generateLoop (mode : Mode) (attempts : nat) : Rand GameBoard :=
  match attempts with
  | O => ret fallbackBoard
  | S attempts' =>
      res <~ attempt mode ;;
      match res with
      | Some puzzle => ret puzzle
      | None => generateLoop mode attempts'
      end
  end.

(** [generateValidPuzzle(mode)] *)
Definition generateValidPuzzle (mode : Mode) : Rand GameBoard :=
  generateLoop mode 100.

(** ** 4. Vocabulary of the specification *)

(** *** Bridge ledger *)

(** A bridge is incident to an island when one of its endpoints lies at the
    island's coordinates. *)
Definition incident (b : Bridge.t) (p : Point.t) : bool :=
  same_coords (Bridge.start b) p || same_coords (Bridge.end_ b) p.

(** What a bridge adds to the sum of an island. *)
Definition contrib (p : Point.t) (b : Bridge.t) : Z :=
  if incident b p then Bridge.count b else 0.

(** The sum of the counts of the bridges incident to an island. *)
Definition incidentSum (bs : list Bridge.t) (p : Point.t) : Z :=
  foldr (λ b acc, contrib p b + acc) 0 bs.

(** The ledger invariant of the data model. *)
Definition ledger_ok (s : State) : Prop :=
  Forall (λ p, Point.remainingConnections p
               = Point.value p - incidentSum (bridges s) p) (board s).

(** A reference denotes one object: two [Point]s of a collection that have
    the same identity are the same. *)
Definition consistent (l : list Point.t) : Prop :=
  ∀ o1 o2, o1 ∈ l → o2 ∈ l → Point.ref o1 = Point.ref o2 → o1 = o2.

Definition bounded (n : nat) (l : list Point.t) : Prop :=
  ∀ o, o ∈ l → (Point.ref o < n)%nat.

Definition endpoints (bs : list Bridge.t) : list Point.t :=
  flat_map (λ b, [Bridge.start b; Bridge.end_ b]) bs.

(** The [Point] objects that the state can still reach. *)
Definition live (s : State) : list Point.t :=
  board s ++ endpoints (bridges s) ++ option_list (selectedPoint s).

(** Well-formed states: counts are 1 or 2, bridge ids are unique, and the
    heap is sound. *)
Record Wf (s : State) : Prop := mkWf {
  wf_counts : Forall (λ b, Bridge.count b = 1 ∨ Bridge.count b = 2) (bridges s);
  wf_ids : NoDup (map Bridge.id (bridges s));
  wf_ids_lt : Forall (λ b, (Bridge.id b < nextId s)%nat) (bridges s);
  wf_consistent : consistent (live s);
  wf_bounded : bounded (nextRef s) (live s)
}.

(** The invariant of the states of a game. *)
Definition Inv (s : State) : Prop := ledger_ok s ∧ Wf s.

(** How [mapAlloc] changes one island. *)
Definition updated (test : Point.t → bool) (upd : Point.t → Z)
    (p p' : Point.t) : Prop :=
  Point.value p' = Point.value p ∧ Point.x p' = Point.x p
  ∧ Point.y p' = Point.y p ∧ Point.horizontal p' = Point.horizontal p
  ∧ Point.vertical p' = Point.vertical p
  ∧ Point.remainingConnections p'
    = (if test p then upd p else Point.remainingConnections p)
  ∧ (test p = false → p' = p).

(** The test of [updatePointConnections]. *)
Definition touches (start end_ p : Point.t) : bool :=
  same_coords p start || same_coords p end_.

(** A board as generation leaves it: every budget is the island's value. *)
Definition fresh (puzzle : GameBoard) : Prop :=
  Forall (λ p, Point.remainingConnections p = Point.value p) puzzle.

(** Two bridges join the same unordered pair of coordinates. *)
Definition same_pair (b1 b2 : Bridge.t) : bool :=
  (same_coords (Bridge.start b1) (Bridge.start b2)
   && same_coords (Bridge.end_ b1) (Bridge.end_ b2))
  || (same_coords (Bridge.start b1) (Bridge.end_ b2)
      && same_coords (Bridge.end_ b1) (Bridge.start b2)).

(** One application of the primary cycle: the guard of [handlePointClick]
    and [handleMouseMove], then [addOrUpdateBridge]. *)
Definition primaryCycle (start end_ : Point.t) (s : State) : State :=
  if isValidConnection (board s) start end_
  then addOrUpdateBridge start end_ s else s.

(** *** Connection validator *)

(** [p] lies strictly between [start] and [end_] on the line they share. *)
Definition strictly_between (start end_ p : Point.t) : Prop :=
  (Point.x start = Point.x end_ ∧ Point.x p = Point.x start
   ∧ Z.min (Point.y start) (Point.y end_) < Point.y p
     < Z.max (Point.y start) (Point.y end_))
  ∨ (Point.x start ≠ Point.x end_ ∧ Point.y p = Point.y start
     ∧ Z.min (Point.x start) (Point.x end_) < Point.x p
       < Z.max (Point.x start) (Point.x end_)).

(** A third island of the board lies strictly between the two. *)
Definition island_between (board : GameBoard) (start end_ : Point.t) : Prop :=
  ∃ p, p ∈ board ∧ Point.ref p ≠ Point.ref start
       ∧ Point.ref p ≠ Point.ref end_ ∧ strictly_between start end_ p.

(** The contract of the validator in the words of the specification:
    start differs from end, they share exactly one axis, both budgets are
    positive, no third island in between. *)
Definition isLegal_spec (board : GameBoard) (start end_ : Point.t) : Prop :=
  Point.ref start ≠ Point.ref end_
  ∧ ((Point.x start = Point.x end_ ∧ Point.y start ≠ Point.y end_)
     ∨ (Point.x start ≠ Point.x end_ ∧ Point.y start = Point.y end_))
  ∧ 0 < Point.remainingConnections start
  ∧ 0 < Point.remainingConnections end_
  ∧ ¬ island_between board start end_.

(** What the validator checks: the two islands share an axis (possibly
    both), the budgets are positive, no third island in between. *)
Definition isLegal_code (board : GameBoard) (start end_ : Point.t) : Prop :=
  (Point.x start = Point.x end_ ∨ Point.y start = Point.y end_)
  ∧ 0 < Point.remainingConnections start
  ∧ 0 < Point.remainingConnections end_
  ∧ ¬ island_between board start end_.

(** *** Spanning tree *)

(** [r] is the representative of [a]: the end of the chain of parent
    pointers that starts at [a]. *)
Inductive uf_root (parent : gmap nat nat) : nat → nat → Prop :=
  | uf_root_self a :
      parent !! a = Some a → uf_root parent a a
  | uf_root_step a p r :
      parent !! a = Some p → p ≠ a → uf_root parent p r → uf_root parent a r.

(** Two islands are in the same union-find component. *)
Definition same_component (parent : gmap nat nat) (a b : nat) : Prop :=
  ∃ r, uf_root parent a r ∧ uf_root parent b r.

(** The representatives, and how many components there are. *)
Definition roots (parent : gmap nat nat) : gmap nat nat :=
  filter (λ kv, kv.1 = kv.2) parent.

(** The islands [a] and [b] are joined by a path of candidate edges. *)
Inductive connected (es : list Edge.t) : nat → nat → Prop :=
  | connected_refl a : connected es a a
  | connected_step a b c :
      connected es a b →
      Edge.mk b c ∈ es ∨ Edge.mk c b ∈ es →
      connected es a c.

(** The candidate graph on the islands [0 .. K-1] is connected. *)
Definition graph_connected (K : nat) (es : list Edge.t) : Prop :=
  ∀ a b, (a < K)%nat → (b < K)%nat → connected es a b.

Definition edges_in_range (K : nat) (es : list Edge.t) : Prop :=
  Forall (λ e, (Edge.start e < K)%nat ∧ (Edge.end_ e < K)%nat) es.

(** The invariant of the union-find structure over [K] islands: the keys
    are the islands, parents are islands, and a height [h] increases along
    parent pointers and is bounded by the number of merges made. *)
Definition uf_inv_h (K : nat) (h : nat → nat) (parent : gmap nat nat) : Prop :=
  (∀ a, (a < K)%nat ↔ is_Some (parent !! a))
  ∧ size parent = K
  ∧ (∀ a p, parent !! a = Some p → (p < K)%nat)
  ∧ (∀ a p, parent !! a = Some p → p ≠ a → (h a < h p)%nat)
  ∧ (∀ a, (a < K)%nat → (h a + size (roots parent) ≤ K)%nat).

Definition uf_inv (K : nat) (parent : gmap nat nat) : Prop :=
  ∃ h, uf_inv_h K h parent.

(** Two union-find structures with the same representatives. *)
Definition uf_equiv (parent parent' : gmap nat nat) : Prop :=
  ∀ a r, uf_root parent a r ↔ uf_root parent' a r.

(** The invariant of the spanning-tree loop once the candidate edges
    [done] have been processed: every accepted edge removed one component,
    and the components are those of the graph of the edges processed. *)
Definition mst_inv (K : nat) (done : list Edge.t)
    (st : gmap nat nat * list UsedEdge.t) : Prop :=
  uf_inv K st.1
  ∧ (size (roots st.1) + length st.2 = K)%nat
  ∧ ∀ c d, (c < K)%nat → (d < K)%nat →
           (same_component st.1 c d ↔ connected done c d).

(** *** Generation *)

(** The first [n] attempts all end with [continue]; the result is the tape
    left for what follows. *)
Fixpoint exhausted (mode : Mode) (n : nat) (tape : list nat) : option (list nat) :=
  match n with
  | O => Some tape
  | S n' =>
      match attempt mode tape with
      | Some (None, tape') => exhausted mode n' tape'
      | _ => None
      end
  end.

(** The sum of the counts of the edges used at the island of reference
    [i]: what step 5 adds to its value. *)
Definition degree (usedEdges : list UsedEdge.t) (i : nat) : Z :=
  foldr (λ ue acc,
           (if Nat.eqb (UsedEdge.start ue) i then UsedEdge.count ue else 0)
           + (if Nat.eqb (UsedEdge.end_ ue) i then UsedEdge.count ue else 0)
           + acc) 0 usedEdges.

(** The invariant of [islands] during an attempt: the island stored at
    index [i] is the object of reference [i], and no two islands share
    their coordinates. *)
Definition islands_ok (islands : list Point.t) : Prop :=
  (∀ i p, islands !! i = Some p → Point.ref p = i)
  ∧ (∀ i j p q, islands !! i = Some p → islands !! j = Some q →
                Point.x p = Point.x q → Point.y p = Point.y q → i = j).

(** A candidate edge of [islands]: two islands, the first allocated before
    the second, on one row or column with no island in between. *)
Definition candidate (islands : list Point.t) (a b : nat) : Prop :=
  (a < b)%nat ∧
  ∃ A B, islands !! a = Some A ∧ islands !! b = Some B
         ∧ (Point.x A = Point.x B ∨ Point.y A = Point.y B)
         ∧ hasIslandInBetween A B islands = false.

(** The invariant of [usedEdges]: candidate edges, each at most once, with
    count 1 or 2. *)
Definition used_ok (islands : list Point.t) (usedEdges : list UsedEdge.t) : Prop :=
  Forall (λ ue, candidate islands (UsedEdge.start ue) (UsedEdge.end_ ue)
                ∧ (UsedEdge.count ue = 1 ∨ UsedEdge.count ue = 2)) usedEdges
  ∧ NoDup (map (λ ue, (UsedEdge.start ue, UsedEdge.end_ ue)) usedEdges).

(** The other end of an edge used at island [i]. *)
Definition partner (i : nat) (ue : UsedEdge.t) : nat :=
  if Nat.eqb (UsedEdge.start ue) i then UsedEdge.end_ ue else UsedEdge.start ue.

(** The four directions in which an island can have a neighbour. *)
Inductive Dir : Type := West | East | North | South.

Definition coordsAt (islands : list Point.t) (i : nat) : Z * Z :=
  match islands !! i with
  | Some p => (Point.x p, Point.y p)
  | None => (0, 0)
  end.

(** Where island [q] lies, seen from island [i]. *)
Definition direction (islands : list Point.t) (i q : nat) : Dir :=
  let '(xi, yi) := coordsAt islands i in
  let '(xq, yq) := coordsAt islands q in
  if yq =? yi then (if xq <? xi then West else East)
  else (if yq <? yi then North else South).

(** Two islands joined by a candidate edge, in either order. *)
Definition adjacent (islands : list Point.t) (i q : nat) : Prop :=
  candidate islands i q ∨ candidate islands q i.

(** *** Play *)

(** The coordinates of an island. *)
Definition coords (p : Point.t) : Z * Z := (Point.x p, Point.y p).

(** What no handler writes: the coordinates, the value and the two bridge
    counters of an island. *)
Definition static (p : Point.t) : Z * Z * Z * Z * Z :=
  (Point.x p, Point.y p, Point.value p, Point.horizontal p, Point.vertical p).

(** No endpoint of a bridge is one of the objects of the current board. *)
Definition detached (s : State) : Prop :=
  ∀ o p, o ∈ endpoints (bridges s) → p ∈ board s → Point.ref p ≠ Point.ref o.

(** A bridge lies on a row or a column, and [isVertical] says which. *)
Definition aligned_bridge (b : Bridge.t) : Prop :=
  (Point.x (Bridge.start b) = Point.x (Bridge.end_ b)
   ∨ Point.y (Bridge.start b) = Point.y (Bridge.end_ b))
  ∧ Bridge.isVertical b = (Point.x (Bridge.start b) =? Point.x (Bridge.end_ b)).

(** What holds of the bridges of a game besides the ledger. *)
Record Play (s : State) : Prop := mkPlay {
  play_detached : detached s;
  play_single : Forall (λ b, Bridge.count b = 1) (bridges s);
  play_aligned : Forall aligned_bridge (bridges s)
}.

(** What holds of the budgets of a game: none is negative, no two islands
    share their coordinates, and the island held by the selection has not
    more connections left than the island now at its place. *)
Record Budget (s : State) : Prop := mkBudget {
  budget_nonneg : Forall (λ p, 0 <= Point.remainingConnections p) (board s);
  budget_coords : NoDup (map coords (board s));
  budget_selected :
    ∀ sel p, selectedPoint s = Some sel → p ∈ board s →
             same_coords p sel = true →
             Point.remainingConnections sel <= Point.remainingConnections p
}.

(** [RENDER_SCALES]: the number of grid units the drawing area spans. *)
Definition RENDER_SCALES (mode : Mode) : Z :=
  match mode with
  | easy => 4
  | normal => 7
  | insane => 9
  end.

(** [SCORE_MULTIPLIERS] *)
Definition SCORE_MULTIPLIERS (mode : Mode) : Z :=
  match mode with
  | easy => 1
  | normal => 2
  | insane => 4
  end.

(** Two islands, the first allocated before the second, lie on one row or
    column and no other island lies strictly between them. *)
Definition unobstructed (islands : list Point.t) (a b : nat) : Prop :=
  (a < b)%nat ∧
  ∃ A B, islands !! a = Some A ∧ islands !! b = Some B
         ∧ (Point.x A = Point.x B ∨ Point.y A = Point.y B)
         ∧ ∀ k P, islands !! k = Some P → k ≠ a → k ≠ b →
                  ¬ strictly_between A B P.

(** The sum of the values of a board, and of the counts of the edges
    used. *)
Definition totalValue (board : list Point.t) : Z :=
  foldr (λ p acc, Point.value p + acc) 0 board.

Definition totalCount (usedEdges : list UsedEdge.t) : Z :=
  foldr (λ ue acc, UsedEdge.count ue + acc) 0 usedEdges.

(** *** Solving *)

(** The two presses that ask for a bridge between the islands drawn
    [u.1]-th and [u.2]-th. *)
Definition connect (u : nat * nat) : list event :=
  [PointClick u.1; PointClick u.2].

(** One pair of islands for every unit of every edge used. *)
Definition units (usedEdges : list UsedEdge.t) : list (nat * nat) :=
  ue ← usedEdges;
  replicate (Z.to_nat (UsedEdge.count ue)) (UsedEdge.start ue, UsedEdge.end_ ue).

(** How many of the pairs [us] have the [i]-th island as an end. *)
Definition need (us : list (nat * nat)) (i : nat) : Z :=
  foldr (λ u acc, (if Nat.eqb u.1 i then 1 else 0)
                  + (if Nat.eqb u.2 i then 1 else 0) + acc) 0 us.

(** *** Drawing the bridges *)

(** The entries of [BRIDGE_COLORS], named by their colour: the entry for
    [rose] is [{ bg: 'bg-rose-500/70', hover: 'hover:bg-rose-400/90' }], and
    so on. *)
Inductive Colour : Type :=
  | rose | orange | lime | cyan | indigo
  | fuchsia | violet | yellow | emerald | sky.

Definition BRIDGE_COLORS : list Colour :=
  [rose; orange; lime; cyan; indigo; fuchsia; violet; yellow; emerald; sky].

(** [getBridgeColor(start, end)]: [%] is the remainder that takes the sign
    of the dividend, and an index outside the table gives [undefined]. *)
Definition getBridgeColor (start end_ : Point.t) : option Colour :=
  let colorIndex := Z.rem (Point.x start * 3 + Point.y end_ * 2)
                          (Z.of_nat (length BRIDGE_COLORS)) in
  if colorIndex <? 0 then None else BRIDGE_COLORS !! Z.to_nat colorIndex.

(** Every endpoint of a bridge, and the island selected, lies where an
    island of the board lies. *)
Definition anchored (s : State) : Prop :=
  ∀ o, o ∈ endpoints (bridges s) ++ option_list (selectedPoint s) →
       coords o ∈ map coords (board s).

(** * Properties *)

(** ** Lists and sums *)

Lemma findIndex_Some {A : Type} (f : A → bool) (l : list A) (i : nat) :
  findIndex f l = Some i →
  ∃ a, l !! i = Some a ∧ f a = true ∧ ∀ j b, (j < i)%nat → l !! j = Some b → f b = false.
Proof.
  revert i. induction l as [|a l IH]; intros i; simpl; [done|].
  destruct (f a) eqn:Hfa.
  - intros [= <-]. exists a. split_and!; [done|done|]. intros; lia.
  - destruct (findIndex f l) as [k|] eqn:Hk; simpl; [|done].
    intros [= <-]. destruct (IH k eq_refl) as (b & Hb & Hfb & Hlt).
    exists b. split_and!; [done|done|].
    intros [|j] c Hj Hc; simpl in Hc.
    + by inversion Hc; subst.
    + apply (Hlt j); [lia|done].
Qed.

Lemma findIndex_None {A : Type} (f : A → bool) (l : list A) :
  findIndex f l = None ↔ Forall (λ a, f a = false) l.
Proof.
  induction l as [|a l IH]; simpl.
  - split; [constructor|done].
  - destruct (f a) eqn:Hfa.
    + split; [done|]. intros H. inversion H; congruence.
    + destruct (findIndex f l); simpl.
      * split; [done|]. intros H. inversion H; subst.
        by apply IH in H3.
      * split; [|done]. intros _. constructor; [done|]. by apply IH.
Qed.

Lemma findIndex_app_last {A : Type} (f : A → bool) (l : list A) (a : A) :
  findIndex f l = None → f a = true → findIndex f (l ++ [a]) = Some (length l).
Proof.
  intros Hn Ha. induction l as [|b l IH]; simpl in *.
  - by rewrite Ha.
  - destruct (f b); [done|].
    destruct (findIndex f l); [done|]. by rewrite IH.
Qed.

Lemma incidentSum_app bs1 bs2 p :
  incidentSum (bs1 ++ bs2) p = incidentSum bs1 p + incidentSum bs2 p.
Proof.
  unfold incidentSum. induction bs1 as [|b bs1 IH]; simpl; [done|].
  rewrite IH. lia.
Qed.

Lemma incidentSum_insert bs i b b' p :
  bs !! i = Some b →
  incidentSum (<[i := b']> bs) p = incidentSum bs p - contrib p b + contrib p b'.
Proof.
  revert i. induction bs as [|c bs IH]; intros [|i] H; simpl in *; try done.
  - inversion H; subst. lia.
  - rewrite (IH i H). lia.
Qed.

Lemma incidentSum_delete bs i b p :
  bs !! i = Some b →
  incidentSum (delete i bs) p = incidentSum bs p - contrib p b.
Proof.
  revert i. induction bs as [|c bs IH]; intros [|i] H; simpl in *; try done.
  - inversion H; subst. lia.
  - rewrite (IH i H). lia.
Qed.

Lemma same_coords_sym p q : same_coords p q = same_coords q p.
Proof.
  unfold same_coords.
  rewrite (Z.eqb_sym (Point.x p)), (Z.eqb_sym (Point.y p)). done.
Qed.

Lemma same_coords_true p q :
  same_coords p q = true ↔ Point.x p = Point.x q ∧ Point.y p = Point.y q.
Proof. unfold same_coords. rewrite andb_true_iff, !Z.eqb_eq. done. Qed.

Lemma contrib_coords p q b :
  Point.x p = Point.x q → Point.y p = Point.y q → contrib p b = contrib q b.
Proof.
  intros Hx Hy. unfold contrib, incident, same_coords. by rewrite Hx, Hy.
Qed.

Lemma incidentSum_coords bs p q :
  Point.x p = Point.x q → Point.y p = Point.y q →
  incidentSum bs p = incidentSum bs q.
Proof.
  intros Hx Hy. unfold incidentSum.
  induction bs as [|b bs IH]; simpl; [done|].
  by rewrite IH, (contrib_coords p q b Hx Hy).
Qed.

(** Bridges selected by their id. *)

Lemma map_by_id_none (bs : list Bridge.t) (i : nat) (c : Z) :
  i ∉ map Bridge.id bs →
  map (λ b, if Nat.eqb (Bridge.id b) i then Bridge.spread_count b c else b) bs = bs.
Proof.
  induction bs as [|b bs IH]; simpl; [done|].
  intros Hn. apply not_elem_of_cons in Hn as [Hne Hn].
  destruct (Nat.eqb_spec (Bridge.id b) i); [congruence|].
  by rewrite IH.
Qed.

Lemma map_by_id (bs : list Bridge.t) (j : nat) (bridge : Bridge.t) (c : Z) :
  NoDup (map Bridge.id bs) → bs !! j = Some bridge →
  map (λ b, if Nat.eqb (Bridge.id b) (Bridge.id bridge)
            then Bridge.spread_count b c else b) bs
  = <[j := Bridge.spread_count bridge c]> bs.
Proof.
  revert j. induction bs as [|b bs IH]; intros [|j] Hnd Hj; simpl in *; try done.
  - inversion Hj; subst. apply NoDup_cons in Hnd as [Hn _].
    rewrite Nat.eqb_refl. by rewrite map_by_id_none.
  - apply NoDup_cons in Hnd as [Hn Hnd].
    destruct (Nat.eqb_spec (Bridge.id b) (Bridge.id bridge)) as [Heq|Hne].
    + exfalso. apply Hn. rewrite Heq.
      apply list_elem_of_fmap. exists bridge. split; [done|].
      by eapply list_elem_of_lookup_2.
    + by rewrite (IH j).
Qed.

Lemma filter_by_id_none (bs : list Bridge.t) (i : nat) :
  i ∉ map Bridge.id bs → filter (λ b, Bridge.id b ≠ i) bs = bs.
Proof.
  induction bs as [|b bs IH]; simpl; [done|].
  intros Hn. apply not_elem_of_cons in Hn as [Hne Hn].
  rewrite filter_cons_True by congruence. by rewrite IH.
Qed.

Lemma filter_by_id (bs : list Bridge.t) (j : nat) (bridge : Bridge.t) :
  NoDup (map Bridge.id bs) → bs !! j = Some bridge →
  filter (λ b, Bridge.id b ≠ Bridge.id bridge) bs = delete j bs.
Proof.
  revert j. induction bs as [|b bs IH]; intros [|j] Hnd Hj; simpl in *; try done.
  - inversion Hj; subst. apply NoDup_cons in Hnd as [Hn _].
    rewrite filter_cons_False by (intros H; by apply H).
    by rewrite filter_by_id_none.
  - apply NoDup_cons in Hnd as [Hn Hnd].
    destruct (decide (Bridge.id b = Bridge.id bridge)) as [Heq|Hne].
    + exfalso. apply Hn. rewrite Heq.
      apply list_elem_of_fmap. exists bridge. split; [done|].
      by eapply list_elem_of_lookup_2.
    + rewrite filter_cons_True by done. by rewrite (IH j).
Qed.

(** ** Allocation of the updated islands *)

Lemma consistent_subseteq (l l' : list Point.t) :
  consistent l → (∀ o, o ∈ l' → o ∈ l) → consistent l'.
Proof. intros Hc Hsub o1 o2 H1 H2. apply Hc; auto. Qed.

Lemma bounded_subseteq (n m : nat) (l l' : list Point.t) :
  bounded n l → (∀ o, o ∈ l' → o ∈ l) → (n ≤ m)%nat → bounded m l'.
Proof. intros Hb Hsub Hle o Ho. specialize (Hb o (Hsub o Ho)). lia. Qed.

Lemma consistent_cons_fresh (n : nat) (q : Point.t) (l : list Point.t) :
  consistent l → bounded n l → Point.ref q = n → consistent (q :: l).
Proof.
  intros Hc Hb Hq o1 o2 H1 H2 Heq.
  apply elem_of_cons in H1 as [->|H1]; apply elem_of_cons in H2 as [->|H2].
  - done.
  - specialize (Hb o2 H2). lia.
  - specialize (Hb o1 H1). lia.
  - by apply Hc.
Qed.

Lemma mapAlloc_le test upd old :
  ∀ n b' n', mapAlloc test upd n old = (b', n') → (n ≤ n')%nat.
Proof.
  induction old as [|p ps IH]; intros n b' n' H; simpl in H.
  - inversion H; lia.
  - destruct (test p).
    + destruct (mapAlloc test upd (S n) ps) as [ps' m] eqn:E.
      inversion H; subst. apply IH in E. lia.
    + destruct (mapAlloc test upd n ps) as [ps' m] eqn:E.
      inversion H; subst. by apply IH in E.
Qed.

(** The islands made by [mapAlloc] are new objects: the heap stays sound,
    whatever else ([L]) is alive. *)
Lemma mapAlloc_heap test upd old :
  ∀ n L b' n',
    mapAlloc test upd n old = (b', n') →
    consistent (old ++ L) → bounded n (old ++ L) →
    consistent (b' ++ L) ∧ bounded n' (b' ++ L).
Proof.
  induction old as [|p ps IH]; intros n L b' n' H Hc Hb; simpl in H.
  - inversion H; subst. done.
  - destruct (test p).
    + destruct (mapAlloc test upd (S n) ps) as [ps' m] eqn:E.
      inversion H; subst. clear H.
      set (q := Point.spread_remaining n p (upd p)).
      destruct (IH (S n) (q :: L) ps' n' E) as [Hc' Hb'].
      * eapply consistent_subseteq.
        -- apply (consistent_cons_fresh n q ((p :: ps) ++ L)); [done|done|done].
        -- intros o Ho. rewrite elem_of_app, elem_of_cons in Ho.
           rewrite elem_of_cons. simpl. rewrite elem_of_cons, elem_of_app.
           tauto.
      * intros o Ho. rewrite elem_of_app, elem_of_cons in Ho.
        destruct Ho as [Ho|[->|Ho]].
        -- assert (Point.ref o < n)%nat; [|lia].
           apply Hb. simpl. rewrite elem_of_cons, elem_of_app. auto.
        -- simpl. lia.
        -- assert (Point.ref o < n)%nat; [|lia].
           apply Hb. simpl. rewrite elem_of_cons, elem_of_app. auto.
      * split.
        -- eapply consistent_subseteq; [exact Hc'|].
           intros o Ho. simpl in Ho. rewrite elem_of_cons, elem_of_app in Ho.
           rewrite elem_of_app, elem_of_cons. tauto.
        -- intros o Ho. apply Hb'.
           simpl in Ho. rewrite elem_of_cons, elem_of_app in Ho.
           rewrite elem_of_app, elem_of_cons. tauto.
    + destruct (mapAlloc test upd n ps) as [ps' m] eqn:E.
      inversion H; subst. clear H.
      destruct (IH n (p :: L) ps' n' E) as [Hc' Hb'].
      * eapply consistent_subseteq; [exact Hc|].
        intros o Ho. rewrite elem_of_app, elem_of_cons in Ho.
        simpl. rewrite elem_of_cons, elem_of_app. tauto.
      * intros o Ho. apply Hb.
        rewrite elem_of_app, elem_of_cons in Ho.
        simpl. rewrite elem_of_cons, elem_of_app. tauto.
      * split.
        -- eapply consistent_subseteq; [exact Hc'|].
           intros o Ho. simpl in Ho. rewrite elem_of_cons, elem_of_app in Ho.
           rewrite elem_of_app, elem_of_cons. tauto.
        -- intros o Ho. apply Hb'.
           simpl in Ho. rewrite elem_of_cons, elem_of_app in Ho.
           rewrite elem_of_app, elem_of_cons. tauto.
Qed.

Lemma mapAlloc_updated test upd old :
  ∀ n b' n', mapAlloc test upd n old = (b', n') →
             Forall2 (updated test upd) old b'.
Proof.
  induction old as [|p ps IH]; intros n b' n' H; simpl in H.
  - inversion H; subst. constructor.
  - destruct (test p) eqn:Ht.
    + destruct (mapAlloc test upd (S n) ps) as [ps' m] eqn:E.
      inversion H; subst. constructor; [|by eapply IH].
      unfold updated. rewrite Ht. simpl. done.
    + destruct (mapAlloc test upd n ps) as [ps' m] eqn:E.
      inversion H; subst. constructor; [|by eapply IH].
      unfold updated. rewrite Ht. done.
Qed.

Lemma mapAlloc_ext test upd upd' old :
  (∀ p, upd p = upd' p) →
  ∀ n, mapAlloc test upd n old = mapAlloc test upd' n old.
Proof.
  intros Hext. induction old as [|p ps IH]; intros n; simpl; [done|].
  destruct (test p).
  - by rewrite IH, Hext.
  - by rewrite IH.
Qed.

Lemma restoreOne_updatePointConnections bridge s :
  restoreOne bridge s
  = updatePointConnections (Bridge.start bridge) (Bridge.end_ bridge) (-1) s.
Proof.
  unfold restoreOne, updatePointConnections.
  rewrite (mapAlloc_ext _ (λ p, Point.remainingConnections p + 1)
                          (λ p, Point.remainingConnections p - -1)); [done|].
  intros p. lia.
Qed.

(** ** The ledger invariant (C1) *)

Lemma updatePointConnections_bridges a b c s :
  bridges (updatePointConnections a b c s) = bridges s.
Proof.
  unfold updatePointConnections. by destruct (mapAlloc _ _ _ _).
Qed.

Lemma updatePointConnections_nextId a b c s :
  nextId (updatePointConnections a b c s) = nextId s.
Proof.
  unfold updatePointConnections. by destruct (mapAlloc _ _ _ _).
Qed.

Lemma updatePointConnections_selectedPoint a b c s :
  selectedPoint (updatePointConnections a b c s) = selectedPoint s.
Proof.
  unfold updatePointConnections. by destruct (mapAlloc _ _ _ _).
Qed.

Lemma updatePointConnections_updated a b c s :
  Forall2 (updated (touches a b) (λ p, Point.remainingConnections p - c))
          (board s) (board (updatePointConnections a b c s)).
Proof.
  unfold updatePointConnections.
  destruct (mapAlloc _ _ _ _) as [b' n'] eqn:E. simpl.
  by apply mapAlloc_updated in E.
Qed.

Lemma updatePointConnections_Wf a b c s :
  Wf s → Wf (updatePointConnections a b c s).
Proof.
  intros [Hcnt Hid Hlt Hcons Hbnd].
  unfold updatePointConnections.
  destruct (mapAlloc _ _ _ _) as [b' n'] eqn:E.
  destruct (mapAlloc_heap _ _ _ _
              (endpoints (bridges s) ++ option_list (selectedPoint s))
              _ _ E Hcons Hbnd) as [Hc' Hb'].
  by constructor.
Qed.

(** If the budgets, once changed, agree with the bridge set, the ledger
    invariant holds after [updatePointConnections]. *)
Lemma updatePointConnections_ledger a b c s :
  Forall (λ p, Point.remainingConnections p - (if touches a b p then c else 0)
               = Point.value p - incidentSum (bridges s) p) (board s) →
  ledger_ok (updatePointConnections a b c s).
Proof.
  intros H. unfold ledger_ok.
  rewrite updatePointConnections_bridges.
  pose proof (updatePointConnections_updated a b c s) as HF.
  induction HF as [|p p' l l' Hu HF IH]; [constructor|].
  inversion H; subst. constructor; [|by apply IH].
  destruct Hu as (Hv & Hx & Hy & _ & _ & Hr & _).
  rewrite Hr, Hv, (incidentSum_coords _ p' p Hx Hy).
  destruct (touches a b p); lia.
Qed.

Lemma Forall_delete {A : Type} (P : A → Prop) (l : list A) (i : nat) :
  Forall P l → Forall P (delete i l).
Proof.
  rewrite !Forall_forall. intros H a Ha. apply H.
  eapply elem_of_sublist; [exact Ha|apply sublist_delete].
Qed.

Lemma elem_of_endpoints (bs : list Bridge.t) (o : Point.t) :
  o ∈ endpoints bs ↔ ∃ b, b ∈ bs ∧ (o = Bridge.start b ∨ o = Bridge.end_ b).
Proof.
  unfold endpoints. rewrite list_elem_of_In, in_flat_map. split.
  - intros (b & Hb & Ho). exists b. rewrite list_elem_of_In. split; [done|].
    simpl in Ho. destruct Ho as [<-|[<-|[]]]; auto.
  - intros (b & Hb & Ho). exists b. rewrite <- list_elem_of_In. split; [done|].
    simpl. destruct Ho as [->| ->]; auto.
Qed.

Lemma elem_of_live (s : State) (o : Point.t) :
  o ∈ live s ↔ o ∈ board s ∨ o ∈ endpoints (bridges s) ∨ selectedPoint s = Some o.
Proof.
  unfold live. rewrite !elem_of_app.
  destruct (selectedPoint s) as [q|]; simpl.
  - rewrite list_elem_of_singleton.
    split; (intros [?|[?|?]]; [by left|by right; left|right; right; congruence]).
  - rewrite elem_of_nil.
    split; (intros [?|[?|?]]; [by left|by right; left|done]).
Qed.

(** Replacing the bridge set by one that uses live islands only. *)
Lemma Wf_change_bridges (s : State) (bs' : list Bridge.t) (nid : nat) :
  Wf s →
  Forall (λ b, Bridge.count b = 1 ∨ Bridge.count b = 2) bs' →
  NoDup (map Bridge.id bs') →
  Forall (λ b, (Bridge.id b < nid)%nat) bs' →
  (∀ o, o ∈ endpoints bs' → o ∈ live s) →
  Wf (mkState (board s) bs' (selectedPoint s) (isDragging s) (nextRef s) nid).
Proof.
  intros [Hcnt Hid Hlt Hcons Hbnd] Hcnt' Hid' Hlt' Hsub.
  assert (∀ o, o ∈ live (mkState (board s) bs' (selectedPoint s)
                                 (isDragging s) (nextRef s) nid) → o ∈ live s)
    as Hlive.
  { intros o. rewrite !elem_of_live. simpl. intros [?|[?|?]]; auto.
    apply elem_of_live. auto. }
  constructor; simpl; try done.
  - eapply consistent_subseteq; eauto.
  - eapply bounded_subseteq; eauto.
Qed.

Lemma Wf_setSelection (s : State) (sel : option Point.t) (drag : bool) :
  Wf s → (∀ o, sel = Some o → o ∈ live s) → Wf (setSelection sel drag s).
Proof.
  intros [Hcnt Hid Hlt Hcons Hbnd] Hsel.
  assert (∀ o, o ∈ live (setSelection sel drag s) → o ∈ live s) as Hlive.
  { intros o Ho. apply elem_of_live in Ho. simpl in Ho.
    destruct Ho as [?|[?|?]]; [apply elem_of_live; auto..|by apply Hsel]. }
  constructor; simpl; try done.
  - eapply consistent_subseteq; eauto.
  - eapply bounded_subseteq; eauto.
Qed.

Lemma Inv_setSelection (s : State) (sel : option Point.t) (drag : bool) :
  Inv s → (∀ o, sel = Some o → o ∈ live s) → Inv (setSelection sel drag s).
Proof.
  intros [Hl Hw] Hsel. split; [exact Hl|]. by apply Wf_setSelection.
Qed.

(** A bridge found by reference joins the coordinates of the two islands
    it was looked up with. *)
Lemma joins_incident (s : State) (start end_ : Point.t) (b : Bridge.t) :
  consistent (live s) → start ∈ live s → end_ ∈ live s → b ∈ bridges s →
  joins start end_ b = true →
  ∀ p, incident b p = touches start end_ p.
Proof.
  intros Hc Hs He Hb Hj p.
  assert (Bridge.start b ∈ live s) as Hbs.
  { apply elem_of_live. right; left. apply elem_of_endpoints. eauto. }
  assert (Bridge.end_ b ∈ live s) as Hbe.
  { apply elem_of_live. right; left. apply elem_of_endpoints. eauto. }
  unfold joins, ptr_eq in Hj. unfold incident, touches.
  rewrite (same_coords_sym p start), (same_coords_sym p end_).
  apply orb_true_iff in Hj as [Hj|Hj]; apply andb_true_iff in Hj as [H1 H2];
    apply Nat.eqb_eq in H1, H2.
  - by rewrite (Hc _ _ Hbs Hs H1), (Hc _ _ Hbe He H2).
  - rewrite (Hc _ _ Hbs He H1), (Hc _ _ Hbe Hs H2). apply orb_comm.
Qed.

Lemma ledger_ok_lookup (s : State) (p : Point.t) :
  ledger_ok s → p ∈ board s →
  Point.remainingConnections p = Point.value p - incidentSum (bridges s) p.
Proof. unfold ledger_ok. rewrite Forall_forall. auto. Qed.

(** [addOrUpdateBridge] keeps the invariant, whichever live islands it is
    called with. *)
Lemma addOrUpdateBridge_Inv (start end_ : Point.t) (s : State) :
  Inv s → start ∈ live s → end_ ∈ live s →
  Inv (addOrUpdateBridge start end_ s).
Proof.
  intros [Hl Hw] Hs He. unfold addOrUpdateBridge.
  destruct (findIndex (joins start end_) (bridges s)) as [idx|] eqn:Hfind.
  - apply findIndex_Some in Hfind as (ex & Hex & Hj & _).
    rewrite Hex.
    assert (ex ∈ bridges s) as Hin by (by eapply list_elem_of_lookup_2).
    pose proof (joins_incident s start end_ ex (wf_consistent s Hw) Hs He Hin Hj)
      as Hinc.
    assert (Bridge.count ex = 1 ∨ Bridge.count ex = 2) as Hc.
    { pose proof (wf_counts s Hw) as HF. rewrite Forall_forall in HF. auto. }
    destruct (Z.leb_spec 2 (Bridge.count ex)) as [Hge|Hlt].
    + (* remove *)
      split.
      * apply updatePointConnections_ledger. simpl.
        apply Forall_forall. intros p Hp.
        rewrite (incidentSum_delete _ _ _ _ Hex).
        rewrite (ledger_ok_lookup s p Hl Hp).
        unfold contrib. rewrite Hinc. destruct (touches start end_ p); lia.
      * apply updatePointConnections_Wf. unfold setBridges.
        apply Wf_change_bridges; [done|..].
        -- apply Forall_delete, (wf_counts s Hw).
        -- eapply sublist_NoDup; [apply (wf_ids s Hw)|].
           apply fmap_sublist, sublist_delete.
        -- apply Forall_delete, (wf_ids_lt s Hw).
        -- intros o Ho. apply elem_of_live. right; left.
           apply elem_of_endpoints in Ho as (b & Hb & Ho).
           apply elem_of_endpoints. exists b. split; [|done].
           eapply elem_of_sublist; [exact Hb|apply sublist_delete].
    + (* 1 -> 2 *)
      assert (Bridge.count ex = 1) as Hc1 by lia.
      split.
      * apply updatePointConnections_ledger. simpl.
        apply Forall_forall. intros p Hp.
        rewrite (incidentSum_insert _ _ _ _ _ Hex).
        rewrite (ledger_ok_lookup s p Hl Hp).
        unfold contrib. unfold incident at 2. simpl.
        fold (incident ex p). rewrite Hinc, Hc1.
        destruct (touches start end_ p); lia.
      * apply updatePointConnections_Wf. unfold setBridges.
        apply Wf_change_bridges; [done|..].
        -- apply Forall_insert; [apply (wf_counts s Hw)|]. simpl. auto.
        -- rewrite list_fmap_insert. simpl.
           rewrite list_insert_id; [apply (wf_ids s Hw)|].
           by rewrite list_lookup_fmap, Hex.
        -- apply Forall_insert; [apply (wf_ids_lt s Hw)|]. simpl.
           pose proof (wf_ids_lt s Hw) as HF. rewrite Forall_forall in HF. auto.
        -- intros o Ho. apply elem_of_live. right; left.
           apply elem_of_endpoints in Ho as (b & Hb & Ho).
           apply elem_of_endpoints.
           apply list_elem_of_lookup in Hb as [k Hk].
           destruct (decide (k = idx)) as [->|Hne].
           ++ rewrite list_lookup_insert_eq in Hk
                by (by eapply lookup_lt_Some).
              inversion Hk; subst. simpl in Ho. eauto.
           ++ rewrite list_lookup_insert_ne in Hk by done.
              exists b. split; [by eapply list_elem_of_lookup_2|done].
  - (* new single *)
    apply findIndex_None in Hfind.
    split.
    + apply updatePointConnections_ledger. simpl.
      apply Forall_forall. intros p Hp.
      rewrite incidentSum_app. simpl.
      rewrite (ledger_ok_lookup s p Hl Hp).
      unfold contrib, incident. simpl.
      rewrite (same_coords_sym start p), (same_coords_sym end_ p).
      fold (touches start end_ p). destruct (touches start end_ p); lia.
    + apply updatePointConnections_Wf.
      apply Wf_change_bridges; [done|..].
      * apply Forall_app. split; [apply (wf_counts s Hw)|].
        constructor; [simpl; auto|constructor].
      * rewrite fmap_app. simpl. apply NoDup_app. split_and!.
        -- apply (wf_ids s Hw).
        -- intros i Hi Hi'. apply list_elem_of_singleton in Hi'. subst.
           apply list_elem_of_fmap in Hi as (b & Hb1 & Hb2).
           pose proof (wf_ids_lt s Hw) as HF. rewrite Forall_forall in HF.
           specialize (HF b Hb2). lia.
        -- apply NoDup_singleton.
      * apply Forall_app. split.
        -- eapply Forall_impl; [apply (wf_ids_lt s Hw)|]. simpl. intros; lia.
        -- constructor; [simpl; lia|constructor].
      * intros o Ho. apply elem_of_endpoints in Ho as (b & Hb & Ho).
        apply elem_of_app in Hb as [Hb|Hb].
        -- apply elem_of_live. right; left. apply elem_of_endpoints. eauto.
        -- apply list_elem_of_singleton in Hb. subst b. simpl in Ho.
           destruct Ho as [->| ->]; done.
Qed.

Lemma incident_touches (b : Bridge.t) (p : Point.t) :
  incident b p = touches (Bridge.start b) (Bridge.end_ b) p.
Proof.
  unfold incident, touches.
  by rewrite (same_coords_sym p (Bridge.start b)), (same_coords_sym p (Bridge.end_ b)).
Qed.

(** [handleBridgeClick] keeps the invariant when the bridge clicked is one
    of the bridge set. *)
Lemma handleBridgeClick_Inv (j : nat) (bridge : Bridge.t) (s : State) :
  Inv s → bridges s !! j = Some bridge → Inv (handleBridgeClick bridge s).
Proof.
  intros [Hl Hw] Hj. unfold handleBridgeClick.
  rewrite !restoreOne_updatePointConnections.
  assert (Bridge.count bridge = 1 ∨ Bridge.count bridge = 2) as Hc.
  { pose proof (wf_counts s Hw) as HF. rewrite Forall_forall in HF.
    apply HF. by eapply list_elem_of_lookup_2. }
  destruct (Z.ltb_spec 1 (Bridge.count bridge)) as [Hgt|Hle].
  - rewrite (map_by_id _ j _ 1 (wf_ids s Hw) Hj).
    split.
    + apply updatePointConnections_ledger. simpl.
      apply Forall_forall. intros p Hp.
      rewrite (incidentSum_insert _ _ _ _ _ Hj).
      rewrite (ledger_ok_lookup s p Hl Hp).
      unfold contrib. unfold incident at 2. simpl.
      fold (incident bridge p). rewrite incident_touches.
      destruct (touches _ _ p); lia.
    + apply updatePointConnections_Wf. unfold setBridges.
      apply Wf_change_bridges; [done|..].
      * apply Forall_insert; [apply (wf_counts s Hw)|]. simpl. auto.
      * rewrite list_fmap_insert. simpl.
        rewrite list_insert_id; [apply (wf_ids s Hw)|].
        by rewrite list_lookup_fmap, Hj.
      * apply Forall_insert; [apply (wf_ids_lt s Hw)|]. simpl.
        pose proof (wf_ids_lt s Hw) as HF. rewrite Forall_forall in HF.
        apply HF. by eapply list_elem_of_lookup_2.
      * intros o Ho. apply elem_of_live. right; left.
        apply elem_of_endpoints in Ho as (b & Hb & Ho).
        apply elem_of_endpoints.
        apply list_elem_of_lookup in Hb as [k Hk].
        destruct (decide (k = j)) as [->|Hne].
        -- rewrite list_lookup_insert_eq in Hk by (by eapply lookup_lt_Some).
           inversion Hk; subst. simpl in Ho.
           exists bridge. split; [by eapply list_elem_of_lookup_2|done].
        -- rewrite list_lookup_insert_ne in Hk by done.
           exists b. split; [by eapply list_elem_of_lookup_2|done].
  - rewrite (filter_by_id _ j _ (wf_ids s Hw) Hj).
    split.
    + apply updatePointConnections_ledger. simpl.
      apply Forall_forall. intros p Hp.
      rewrite (incidentSum_delete _ _ _ _ Hj).
      rewrite (ledger_ok_lookup s p Hl Hp).
      unfold contrib. rewrite incident_touches.
      destruct (touches _ _ p); lia.
    + apply updatePointConnections_Wf. unfold setBridges.
      apply Wf_change_bridges; [done|..].
      * apply Forall_delete, (wf_counts s Hw).
      * eapply sublist_NoDup; [apply (wf_ids s Hw)|].
        apply fmap_sublist, sublist_delete.
      * apply Forall_delete, (wf_ids_lt s Hw).
      * intros o Ho. apply elem_of_live. right; left.
        apply elem_of_endpoints in Ho as (b & Hb & Ho).
        apply elem_of_endpoints. exists b. split; [|done].
        eapply elem_of_sublist; [exact Hb|apply sublist_delete].
Qed.

Lemma handlePointClick_Inv (pt : Point.t) (s : State) :
  Inv s → pt ∈ board s → Inv (handlePointClick pt s).
Proof.
  intros HI Hpt. unfold handlePointClick.
  assert (pt ∈ live s) as Hlive by (apply elem_of_live; auto).
  destruct (selectedPoint s) as [sel|] eqn:Hsel.
  - destruct (ptr_eq pt sel).
    + apply Inv_setSelection; [done|]. intros; discriminate.
    + apply Inv_setSelection; [|intros; discriminate].
      destruct (isValidConnection (board s) sel pt); [|done].
      apply addOrUpdateBridge_Inv; [done| |done].
      apply elem_of_live. auto.
  - apply Inv_setSelection; [done|]. intros o [= <-]. done.
Qed.

Lemma handleMouseMove_Inv (near_test : Z → Z → bool) (s : State) :
  Inv s → Inv (handleMouseMove near_test s).
Proof.
  intros HI. unfold handleMouseMove.
  destruct (isDragging s); [|done].
  destruct (selectedPoint s) as [sel|] eqn:Hsel; [|done].
  destruct (board s) as [|p0 ps] eqn:Hb; [done|].
  destruct (List.find _ (p0 :: ps)) as [nr|] eqn:Hfind; [|done].
  destruct (isValidConnection (p0 :: ps) sel nr); [|done].
  apply find_some in Hfind as [Hin _].
  apply Inv_setSelection; [|intros; discriminate].
  apply addOrUpdateBridge_Inv; [done|..]; apply elem_of_live.
  - auto.
  - left. rewrite Hb. by apply list_elem_of_In.
Qed.

Lemma handle_Inv (s : State) (e : event) : Inv s → Inv (handle s e).
Proof.
  intros HI. destruct e as [i|j|near_test|]; simpl.
  - destruct (board s !! i) as [pt|] eqn:Hi; [|done].
    apply handlePointClick_Inv; [done|]. by eapply list_elem_of_lookup_2.
  - destruct (bridges s !! j) as [b|] eqn:Hj; [|done].
    by eapply handleBridgeClick_Inv.
  - by apply handleMouseMove_Inv.
  - apply Inv_setSelection; [done|]. intros; discriminate.
Qed.

Lemma foldr_max_ge (l : list nat) (n : nat) :
  n ∈ l → (n ≤ foldr Nat.max 0 l)%nat.
Proof.
  induction l as [|m l IH]; simpl.
  - by rewrite elem_of_nil.
  - rewrite elem_of_cons. intros [->|H]; [lia|]. specialize (IH H). lia.
Qed.

Lemma initState_Inv (puzzle : GameBoard) :
  fresh puzzle → consistent puzzle → Inv (initState puzzle).
Proof.
  intros Hf Hc. split.
  - unfold ledger_ok, initState. simpl.
    eapply Forall_impl; [exact Hf|]. simpl. intros p Hp. lia.
  - assert (∀ o, o ∈ live (initState puzzle) → o ∈ puzzle) as Hlive.
    { intros o Ho. apply elem_of_live in Ho. simpl in Ho.
      destruct Ho as [?|[Ho|?]]; [done| |done].
      by apply elem_of_nil in Ho. }
    constructor; simpl.
    + constructor.
    + constructor.
    + constructor.
    + eapply consistent_subseteq; eauto.
    + intros o Ho. apply Hlive in Ho.
      assert (Point.ref o ≤ foldr Nat.max 0 (map Point.ref puzzle))%nat; [|lia].
      apply foldr_max_ge. apply list_elem_of_fmap. eauto.
Qed.

Lemma run_snoc (puzzle : GameBoard) (es : list event) (e : event) :
  run puzzle (es ++ [e]) = handle (run puzzle es) e.
Proof. unfold run. by rewrite foldl_app. Qed.

Lemma run_Inv (puzzle : GameBoard) (es : list event) :
  fresh puzzle → consistent puzzle → Inv (run puzzle es).
Proof.
  intros Hf Hc. induction es as [|e es IH] using rev_ind.
  - by apply initState_Inv.
  - rewrite run_snoc. by apply handle_Inv.
Qed.

Lemma NoDup_refs_consistent (l : list Point.t) :
  NoDup (map Point.ref l) → consistent l.
Proof.
  intros Hnd o1 o2 H1 H2 Heq.
  apply list_elem_of_lookup in H1 as [i Hi], H2 as [j Hj].
  assert (i = j) as ->.
  { eapply NoDup_lookup; [exact Hnd|..].
    - by rewrite list_lookup_fmap, Hi.
    - rewrite list_lookup_fmap, Hj. simpl. by rewrite Heq. }
  congruence.
Qed.

(** C1.  In every state reached from a freshly generated board by pressing
    islands, moving and releasing the pointer (the primary cycle:
    [addOrUpdateBridge] after [isValidConnection]) and clicking bridges (the
    reduction path: [handleBridgeClick] on a bridge of the set), every
    island has remainingConnections = value - (sum of the counts of the
    bridges incident to it). *)
Theorem ledger_invariant (puzzle : GameBoard) (es : list event) :
  fresh puzzle → consistent puzzle →
  Forall (λ p, Point.remainingConnections p
               = Point.value p - incidentSum (bridges (run puzzle es)) p)
         (board (run puzzle es)).
Proof. intros Hf Hc. apply (run_Inv puzzle es Hf Hc). Qed.

Lemma ledger_invariant_witness :
  let es := [PointClick 0; PointClick 1; PointClick 0; MouseMove (λ x y, x =? 1);
             BridgeClick 1; BridgeClick 0] in
  fresh fallbackBoard ∧ consistent fallbackBoard ∧
  Forall (λ p, Point.remainingConnections p
               = Point.value p - incidentSum (bridges (run fallbackBoard es)) p)
         (board (run fallbackBoard es)).
Proof.
  assert (fresh fallbackBoard) as Hf by (repeat constructor).
  assert (consistent fallbackBoard) as Hc.
  { apply NoDup_refs_consistent. simpl. apply NoDup_ListNoDup.
    repeat constructor; simpl; intuition discriminate. }
  split_and!; [exact Hf|exact Hc|].
  exact (ledger_invariant fallbackBoard _ Hf Hc).
Defined.

(** ** The connection validator (C2) *)

Lemma blocks_true (start end_ p : Point.t) :
  blocks start end_ p = true
  ↔ Point.ref p ≠ Point.ref start ∧ Point.ref p ≠ Point.ref end_
    ∧ strictly_between start end_ p.
Proof.
  unfold blocks, ptr_eq, strictly_between.
  destruct (Nat.eqb_spec (Point.ref p) (Point.ref start)) as [Hs|Hs]; simpl.
  { split; [done|]. intros (? & _); done. }
  destruct (Nat.eqb_spec (Point.ref p) (Point.ref end_)) as [He|He]; simpl.
  { split; [done|]. intros (_ & ? & _); done. }
  destruct (Z.eqb_spec (Point.x start) (Point.x end_)) as [Hx|Hx].
  - rewrite !andb_true_iff, Z.eqb_eq, !Z.ltb_lt. split.
    + intros [[H1 H2] H3]. split_and!; auto.
    + intros (_ & _ & [(_ & H1 & H2 & H3)|(Hne & _)]); [auto|done].
  - rewrite !andb_true_iff, Z.eqb_eq, !Z.ltb_lt. split.
    + intros [[H1 H2] H3]. split_and!; auto.
    + intros (_ & _ & [(Heq & _)|(_ & H1 & H2 & H3)]); [done|auto].
Qed.

Lemma existsb_blocks (board : GameBoard) (start end_ : Point.t) :
  existsb (blocks start end_) board = true ↔ island_between board start end_.
Proof.
  rewrite existsb_exists. unfold island_between. split.
  - intros (p & Hin & Hb). apply blocks_true in Hb. exists p.
    rewrite list_elem_of_In. tauto.
  - intros (p & Hin & Hb). exists p. rewrite <- list_elem_of_In.
    split; [done|]. apply blocks_true. tauto.
Qed.

(** C2, as the code has it.  The validator answers true exactly when the
    two islands share an axis (same x or same y, possibly both), both have
    remainingConnections > 0, and no third island of the board lies
    strictly between them; it does not compare start with end. *)
Theorem isValidConnection_iff (board : GameBoard) (start end_ : Point.t) :
  isValidConnection board start end_ = true ↔ isLegal_code board start end_.
Proof.
  unfold isValidConnection, isLegal_code.
  rewrite <- existsb_blocks.
  destruct (Z.eqb_spec (Point.x start) (Point.x end_)) as [Hx|Hx];
    destruct (Z.eqb_spec (Point.y start) (Point.y end_)) as [Hy|Hy]; simpl;
    try (split; [done|intros ([?|?] & _); done]);
    destruct (Z.leb_spec (Point.remainingConnections start) 0) as [Hs|Hs]; simpl;
    try (split; [done|intros (_ & ? & _); lia]);
    destruct (Z.leb_spec (Point.remainingConnections end_) 0) as [He|He]; simpl;
    try (split; [done|intros (_ & _ & ? & _); lia]);
    destruct (existsb (blocks start end_) board); simpl;
    split; try done; try (intros (_ & _ & _ & ?); done);
    intros _; split_and!; auto.
Qed.

(** For two islands at different coordinates, what the validator checks is
    the contract of the specification. *)
Lemma isLegal_code_spec (board : GameBoard) (start end_ : Point.t) :
  consistent [start; end_] →
  same_coords start end_ = false →
  isLegal_code board start end_ ↔ isLegal_spec board start end_.
Proof.
  intros Hc Hne. unfold isLegal_code, isLegal_spec.
  assert (¬ (Point.x start = Point.x end_ ∧ Point.y start = Point.y end_)) as Hd.
  { rewrite <- same_coords_true. by rewrite Hne. }
  split.
  - intros (Hax & Hs & He & Hb). split_and!; try done.
    + intros Href. apply Hd.
      rewrite (Hc start end_); [done|..]; try done;
        rewrite !elem_of_cons; auto.
    + destruct Hax as [Hx|Hy].
      * left. split; [done|]. intros Hy. by apply Hd.
      * right. split; [|done]. intros Hx. by apply Hd.
  - intros (_ & Hax & Hs & He & Hb). split_and!; try done.
    destruct Hax as [[? _]|[_ ?]]; auto.
Qed.

(** C2, as the specification states it, fails when start and end are the
    same island: the validator accepts, the contract does not. *)
Lemma isValidConnection_same_island :
  let A := Point.mk 0 2 0 0 0 0 2 in
  A ∈ fallbackBoard
  ∧ ¬ (isValidConnection fallbackBoard A A = true
       ↔ isLegal_spec fallbackBoard A A).
Proof.
  simpl. split; [apply list_elem_of_here|].
  intros [H _]. destruct (H eq_refl) as (Hne & _). by apply Hne.
Qed.

(** ** The win check (C10) *)

(** C10.  On a non-empty board the win check answers true exactly when
    every island has remainingConnections = 0, and running it again on the
    same board gives the same answer. *)
Theorem win_evaluator (board : GameBoard) (isGameWon : bool) :
  board ≠ [] →
  (winEffect board isGameWon = true
   ↔ Forall (λ p, Point.remainingConnections p = 0) board)
  ∧ winEffect board (winEffect board isGameWon) = winEffect board isGameWon.
Proof.
  intros Hne. unfold winEffect.
  destruct board as [|p ps]; [done|].
  replace (0 <? length (p :: ps))%nat with true
    by (symmetry; apply Nat.ltb_lt; simpl; lia).
  split; [|done].
  rewrite forallb_forall, Forall_forall. split.
  - intros H q Hq. apply Z.eqb_eq, H. by apply list_elem_of_In.
  - intros H q Hq. apply Z.eqb_eq, H. by apply list_elem_of_In.
Qed.

Lemma win_evaluator_witness :
  fallbackBoard ≠ []
  ∧ ((winEffect fallbackBoard true = true
      ↔ Forall (λ p, Point.remainingConnections p = 0) fallbackBoard)
     ∧ winEffect fallbackBoard (winEffect fallbackBoard true)
       = winEffect fallbackBoard true).
Proof.
  assert (fallbackBoard ≠ []) as Hne by discriminate.
  split; [exact Hne|]. exact (win_evaluator fallbackBoard true Hne).
Defined.

(** ** The reduction path on a bridge that is not in the set (C3) *)

(** C3, as the code has it.  [handleBridgeClick] does not check that the
    bridge it is given is still in the bridge set.  For a bridge whose id
    is not in the set, the bridge set is left as it is, but every island at
    the coordinates of one of the bridge's endpoints still gets one
    connection back; the other islands are the same objects as before. *)
Theorem handleBridgeClick_absent (bridge : Bridge.t) (s : State) :
  Bridge.id bridge ∉ map Bridge.id (bridges s) →
  bridges (handleBridgeClick bridge s) = bridges s
  ∧ Forall2 (updated (touches (Bridge.start bridge) (Bridge.end_ bridge))
                     (λ p, Point.remainingConnections p + 1))
            (board s) (board (handleBridgeClick bridge s)).
Proof.
  intros Hid. unfold handleBridgeClick.
  assert (∀ bs, bridges (restoreOne bridge (setBridges bs s)) = bs
                ∧ Forall2 (updated (touches (Bridge.start bridge) (Bridge.end_ bridge))
                                   (λ p, Point.remainingConnections p + 1))
                          (board s) (board (restoreOne bridge (setBridges bs s))))
    as Hrestore.
  { intros bs. unfold restoreOne. simpl.
    destruct (mapAlloc _ _ _ _) as [b' n'] eqn:E. simpl.
    split; [done|]. by apply mapAlloc_updated in E. }
  destruct (1 <? Bridge.count bridge).
  - rewrite (map_by_id_none _ _ _ Hid). apply Hrestore.
  - rewrite (filter_by_id_none _ _ Hid). apply Hrestore.
Qed.

Lemma handleBridgeClick_absent_witness :
  let bridge := Bridge.mk 7 (Point.mk 0 2 0 0 0 0 2) (Point.mk 1 2 1 0 0 0 2) 1 false in
  let s := initState fallbackBoard in
  (Bridge.id bridge ∉ map Bridge.id (bridges s))
  ∧ bridges (handleBridgeClick bridge s) = bridges s
  ∧ Forall2 (updated (touches (Bridge.start bridge) (Bridge.end_ bridge))
                     (λ p, Point.remainingConnections p + 1))
            (board s) (board (handleBridgeClick bridge s)).
Proof.
  intros bridge s.
  assert (Bridge.id bridge ∉ map Bridge.id (bridges s)) as Hid
    by (simpl; apply not_elem_of_nil).
  split; [exact Hid|]. exact (handleBridgeClick_absent bridge s Hid).
Defined.

(** C3, as the specification states it, fails: on the fallback board, where
    no bridge has been placed, a reduction request for the pair of the two
    islands raises both budgets from 2 to 3. *)
Lemma handleBridgeClick_absent_not_noop :
  let bridge := Bridge.mk 7 (Point.mk 0 2 0 0 0 0 2) (Point.mk 1 2 1 0 0 0 2) 1 false in
  let s := initState fallbackBoard in
  bridges s = []
  ∧ map Point.remainingConnections (board s) = [2; 2]
  ∧ map Point.remainingConnections (board (handleBridgeClick bridge s)) = [3; 3].
Proof. simpl. done. Qed.

(** ** One bridge per pair of coordinates (C4) *)

(** C4 fails on the code.  [addOrUpdateBridge] looks the existing bridge up
    by the identity of the two [Point] objects, and [updatePointConnections]
    replaces both islands by new objects as soon as the first bridge is
    placed.  Dragging twice from island (0,0) to island (1,0) of the
    fallback board therefore leaves two bridges of count 1 on the same pair
    of coordinates, and no bridge of count 2. *)
Theorem second_request_adds_second_bridge :
  let near_B := λ x y, (x =? 1) && (y =? 0) in
  let s := run fallbackBoard
               [PointClick 0; MouseMove near_B; PointClick 0; MouseMove near_B] in
  ∃ b1 b2,
    bridges s = [b1; b2]
    ∧ same_pair b1 b2 = true
    ∧ Bridge.count b1 = 1 ∧ Bridge.count b2 = 1
    ∧ map Point.remainingConnections (board s) = [0; 0].
Proof. simpl. eexists _, _. split; [reflexivity|]. done. Qed.

(** ** The primary cycle (C5) *)

Lemma touches_blocks (a b p : Point.t) :
  touches a b p = true → blocks a b p = false.
Proof.
  unfold touches. rewrite orb_true_iff, !same_coords_true.
  intros Ht. apply not_true_is_false. rewrite blocks_true.
  unfold strictly_between. intros (_ & _ & Hb). lia.
Qed.

Lemma touches_coords (a b p p' : Point.t) :
  Point.x p' = Point.x p → Point.y p' = Point.y p →
  touches a b p' = touches a b p.
Proof. intros Hx Hy. unfold touches, same_coords. by rewrite Hx, Hy. Qed.

Lemma existsb_blocks_updated (a b : Point.t) (upd : Point.t → Z)
    (old new : GameBoard) :
  Forall2 (updated (touches a b) upd) old new →
  existsb (blocks a b) new = existsb (blocks a b) old.
Proof.
  induction 1 as [|p p' l l' Hu _ IH]; simpl; [done|].
  rewrite IH. f_equal.
  destruct Hu as (_ & Hx & Hy & _ & _ & _ & Hsame).
  destruct (touches a b p) eqn:Ht.
  - rewrite (touches_blocks a b p Ht).
    apply touches_blocks. by rewrite (touches_coords a b p p').
  - by rewrite (Hsame eq_refl).
Qed.

Lemma isValidConnection_updated (a b : Point.t) (upd : Point.t → Z)
    (old new : GameBoard) :
  Forall2 (updated (touches a b) upd) old new →
  isValidConnection new a b = isValidConnection old a b.
Proof.
  intros H. unfold isValidConnection.
  by rewrite (existsb_blocks_updated a b upd old new H).
Qed.

(** Absent -> Single *)
Lemma addOrUpdateBridge_absent (a b : Point.t) (s : State) :
  findIndex (joins a b) (bridges s) = None →
  bridges (addOrUpdateBridge a b s)
  = bridges s ++ [Bridge.mk (nextId s) a b 1 (Point.x a =? Point.x b)]
  ∧ Forall2 (updated (touches a b) (λ p, Point.remainingConnections p - 1))
            (board s) (board (addOrUpdateBridge a b s)).
Proof.
  intros Hf. unfold addOrUpdateBridge. rewrite Hf.
  rewrite updatePointConnections_bridges. split; [done|].
  apply (updatePointConnections_updated a b 1
           (mkState (board s) _ (selectedPoint s) (isDragging s) (nextRef s) _)).
Qed.

Lemma joins_refl (a b : Point.t) (i : nat) (c : Z) (v : bool) :
  joins a b (Bridge.mk i a b c v) = true.
Proof. unfold joins, ptr_eq. simpl. by rewrite !Nat.eqb_refl. Qed.

(** Single -> Double *)
Lemma addOrUpdateBridge_single (a b : Point.t) (s : State)
    (bs : list Bridge.t) (i : nat) (v : bool) :
  bridges s = bs ++ [Bridge.mk i a b 1 v] →
  findIndex (joins a b) bs = None →
  bridges (addOrUpdateBridge a b s) = bs ++ [Bridge.mk i a b 2 v]
  ∧ Forall2 (updated (touches a b) (λ p, Point.remainingConnections p - 1))
            (board s) (board (addOrUpdateBridge a b s)).
Proof.
  intros Hbs Hf. unfold addOrUpdateBridge. rewrite Hbs.
  rewrite (findIndex_app_last _ _ _ Hf (joins_refl a b i 1 v)).
  rewrite list_lookup_middle by done. simpl.
  rewrite updatePointConnections_bridges. split.
  - unfold setBridges. simpl.
    rewrite insert_app_r_alt by lia. by rewrite Nat.sub_diag.
  - rewrite <- Hbs.
    apply (updatePointConnections_updated a b 1 (setBridges _ s)).
Qed.

(** Double -> Absent *)
Lemma addOrUpdateBridge_double (a b : Point.t) (s : State)
    (bs : list Bridge.t) (i : nat) (v : bool) :
  bridges s = bs ++ [Bridge.mk i a b 2 v] →
  findIndex (joins a b) bs = None →
  bridges (addOrUpdateBridge a b s) = bs
  ∧ Forall2 (updated (touches a b) (λ p, Point.remainingConnections p - -2))
            (board s) (board (addOrUpdateBridge a b s)).
Proof.
  intros Hbs Hf. unfold addOrUpdateBridge. rewrite Hbs.
  rewrite (findIndex_app_last _ _ _ Hf (joins_refl a b i 2 v)).
  rewrite list_lookup_middle by done. simpl.
  rewrite updatePointConnections_bridges. split.
  - unfold setBridges. simpl.
    rewrite delete_middle. apply app_nil_r.
  - rewrite <- Hbs.
    apply (updatePointConnections_updated a b (-2) (setBridges _ s)).
Qed.

Lemma updated_thrice_fields (a b : Point.t) (b0 b1 b2 b3 : GameBoard) :
  Forall2 (updated (touches a b) (λ p, Point.remainingConnections p - 1)) b0 b1 →
  Forall2 (updated (touches a b) (λ p, Point.remainingConnections p - 1)) b1 b2 →
  Forall2 (updated (touches a b) (λ p, Point.remainingConnections p - -2)) b2 b3 →
  map Point.fields b3 = map Point.fields b0.
Proof.
  intros H01. revert b2 b3.
  induction H01 as [|p0 p1 l0 l1 H1 _ IH]; intros b2 b3 H12 H23.
  - inversion H12; subst. inversion H23; subst. done.
  - inversion H12 as [|? p2 ? l2 H2 H12']; subst.
    inversion H23 as [|? p3 ? l3 H3 H23']; subst.
    simpl. f_equal; [|by eapply IH].
    destruct H1 as (Hv1 & Hx1 & Hy1 & Hh1 & Hw1 & Hr1 & _).
    destruct H2 as (Hv2 & Hx2 & Hy2 & Hh2 & Hw2 & Hr2 & _).
    destruct H3 as (Hv3 & Hx3 & Hy3 & Hh3 & Hw3 & Hr3 & _).
    rewrite (touches_coords a b p1 p2 Hx2 Hy2) in Hr3.
    rewrite (touches_coords a b p0 p1 Hx1 Hy1) in Hr2, Hr3.
    unfold Point.fields.
    rewrite Hv3, Hv2, Hv1, Hx3, Hx2, Hx1, Hy3, Hy2, Hy1,
            Hh3, Hh2, Hh1, Hw3, Hw2, Hw1.
    rewrite Hr3, Hr2, Hr1. f_equal.
    destruct (touches a b p0); lia.
Qed.

(** C5, as the code has it.  Take two [Point] objects with no bridge
    between them for which the validator answers true.  Applying the
    primary cycle to these same two objects makes a bridge of count 1, then
    raises it to count 2, then removes it: after three applications the
    bridge set is what it was and every island has the value, the
    coordinates and the remainingConnections it had. *)
Theorem primary_cycle_three_times (start end_ : Point.t) (s : State) :
  findIndex (joins start end_) (bridges s) = None →
  isValidConnection (board s) start end_ = true →
  let s1 := primaryCycle start end_ s in
  let s2 := primaryCycle start end_ s1 in
  let s3 := primaryCycle start end_ s2 in
  (∃ b, bridges s1 = bridges s ++ [b] ∧ Bridge.count b = 1
        ∧ bridges s2 = bridges s ++ [Bridge.spread_count b 2])
  ∧ bridges s3 = bridges s
  ∧ map Point.fields (board s3) = map Point.fields (board s).
Proof.
  intros Habs Hvalid s1 s2 s3.
  assert (s1 = addOrUpdateBridge start end_ s) as E1.
  { unfold s1, primaryCycle. by rewrite Hvalid. }
  destruct (addOrUpdateBridge_absent start end_ s Habs) as [Hb1 Hu1].
  rewrite <- E1 in Hb1, Hu1.
  assert (isValidConnection (board s1) start end_ = true) as Hv1.
  { by rewrite (isValidConnection_updated _ _ _ _ _ Hu1). }
  assert (s2 = addOrUpdateBridge start end_ s1) as E2.
  { unfold s2, primaryCycle. by rewrite Hv1. }
  destruct (addOrUpdateBridge_single start end_ s1 _ _ _ Hb1 Habs) as [Hb2 Hu2].
  rewrite <- E2 in Hb2, Hu2.
  assert (isValidConnection (board s2) start end_ = true) as Hv2.
  { by rewrite (isValidConnection_updated _ _ _ _ _ Hu2). }
  assert (s3 = addOrUpdateBridge start end_ s2) as E3.
  { unfold s3, primaryCycle. by rewrite Hv2. }
  destruct (addOrUpdateBridge_double start end_ s2 _ _ _ Hb2 Habs) as [Hb3 Hu3].
  rewrite <- E3 in Hb3, Hu3.
  split_and!.
  - eexists. split_and!; [exact Hb1|done|exact Hb2].
  - exact Hb3.
  - exact (updated_thrice_fields start end_ _ _ _ _ Hu1 Hu2 Hu3).
Qed.

Lemma primary_cycle_three_times_witness :
  let A := Point.mk 0 2 0 0 0 0 2 in
  let B := Point.mk 1 2 1 0 0 0 2 in
  let s := initState fallbackBoard in
  let s1 := primaryCycle A B s in
  let s2 := primaryCycle A B s1 in
  let s3 := primaryCycle A B s2 in
  findIndex (joins A B) (bridges s) = None
  ∧ isValidConnection (board s) A B = true
  ∧ (∃ b, bridges s1 = bridges s ++ [b] ∧ Bridge.count b = 1
          ∧ bridges s2 = bridges s ++ [Bridge.spread_count b 2])
  ∧ bridges s3 = bridges s
  ∧ map Point.fields (board s3) = map Point.fields (board s).
Proof.
  intros A B s.
  assert (findIndex (joins A B) (bridges s) = None) as H1 by reflexivity.
  assert (isValidConnection (board s) A B = true) as H2 by reflexivity.
  split; [exact H1|]. split; [exact H2|].
  exact (primary_cycle_three_times A B s H1 H2).
Defined.

(** C5, as the specification states it, fails on the fallback board, whose
    two islands have remainingConnections = 2 and no bridge.  Applied four
    times to the same two objects, the primary cycle ends on a bridge of
    count 1 and budgets of 1; applied four times through the user
    interface, which hands over the islands of the current board, it ends
    on two bridges and budgets of 0. *)
Lemma primary_cycle_four_times_counterexample :
  let A := Point.mk 0 2 0 0 0 0 2 in
  let B := Point.mk 1 2 1 0 0 0 2 in
  let s := initState fallbackBoard in
  let s4 := Nat.iter 4 (primaryCycle A B) s in
  let u4 := run fallbackBoard
                [PointClick 0; PointClick 1; PointClick 0; PointClick 1;
                 PointClick 0; PointClick 1; PointClick 0; PointClick 1] in
  (board s = [A; B] ∧ bridges s = []
   ∧ 2 <= Point.remainingConnections A ∧ 2 <= Point.remainingConnections B)
  ∧ (map Bridge.count (bridges s4) = [1]
     ∧ map Point.remainingConnections (board s4) = [1; 1])
  ∧ (map Bridge.count (bridges u4) = [1; 1]
     ∧ map Point.remainingConnections (board u4) = [0; 0]).
Proof. simpl. split_and!; try done; lia. Qed.

(** ** The generation loop (C7, C8) *)

Lemma bind_Some {A B : Type} (m : Rand A) (k : A → Rand B)
    (tape tape' : list nat) (b : B) :
  bind m k tape = Some (b, tape') ↔
  ∃ a tape1, m tape = Some (a, tape1) ∧ k a tape1 = Some (b, tape').
Proof.
  unfold bind. split.
  - destruct (m tape) as [[a tape1]|]; [|done]. eauto.
  - intros (a & tape1 & -> & H). done.
Qed.

Lemma generateLoop_exhausted (mode : Mode) (n : nat) (tape tape' : list nat) :
  exhausted mode n tape = Some tape' →
  generateLoop mode n tape = Some (fallbackBoard, tape').
Proof.
  revert tape. induction n as [|n IH]; intros tape; simpl.
  - by intros [= ->].
  - unfold bind. destruct (attempt mode tape) as [[[puzzle|] tape1]|]; try done.
    apply IH.
Qed.

(** C7.  When all 100 attempts end with [continue], the generator returns
    the fallback board: two islands, at (0,0) and (1,0), each with value 2
    and remainingConnections 2; the state installed for it has no
    bridge. *)
Theorem generation_fallback (mode : Mode) (tape tape' : list nat) :
  exhausted mode 100 tape = Some tape' →
  ∃ puzzle,
    generateValidPuzzle mode tape = Some (puzzle, tape')
    ∧ map (λ p, (Point.x p, Point.y p, Point.value p, Point.remainingConnections p))
          puzzle
      = [(0, 0, 2, 2); (1, 0, 2, 2)]
    ∧ bridges (initState puzzle) = [].
Proof.
  intros H. exists fallbackBoard. split_and!; [|done|done].
  by apply generateLoop_exhausted.
Qed.

Lemma generation_fallback_witness :
  let tape := mjoin (replicate 100 [0; 0; 0; 1; 1; 2; 2; 3; 3; 4; 4]%nat) in
  exhausted easy 100 tape = Some []
  ∧ ∃ puzzle,
      generateValidPuzzle easy tape = Some (puzzle, [])
      ∧ map (λ p, (Point.x p, Point.y p, Point.value p, Point.remainingConnections p))
            puzzle
        = [(0, 0, 2, 2); (1, 0, 2, 2)]
      ∧ bridges (initState puzzle) = [].
Proof.
  intros tape.
  assert (exhausted easy 100 tape = Some []) as H by (vm_compute; reflexivity).
  split; [exact H|]. exact (generation_fallback easy tape [] H).
Defined.

Lemma fresh_finalize (islands : list Point.t) : fresh (finalize islands).
Proof.
  unfold fresh, finalize. apply Forall_forall. intros p Hp.
  apply list_elem_of_lookup in Hp as [i Hi].
  rewrite list_lookup_imap in Hi.
  destruct (islands !! i) as [q|]; simpl in Hi; [|done].
  by inversion Hi.
Qed.

(** What an attempt that returns has gone through. *)
Lemma attempt_accepted (mode : Mode) (tape tape' : list nat) (puzzle : GameBoard) :
  attempt mode tape = Some (Some puzzle, tape') →
  ∃ r positions tape1 tape2 potential1 usedEdges islands',
    randomInt (maxIslands (MODES_CONFIG mode) - minIslands (MODES_CONFIG mode) + 1)
              tape = Some (r, tape1)
    ∧ samplePositions (gridSize (MODES_CONFIG mode))
                      (r + minIslands (MODES_CONFIG mode)) tape1
      = Some (positions, tape2)
    ∧ buildEdges (createIslands positions) tape2
      = Some (Some (potential1, usedEdges, islands'), tape')
    ∧ existsb (λ i, Point.value i =? 0) islands' = false
    ∧ puzzle = finalize islands'.
Proof.
  unfold attempt. intros H.
  apply bind_Some in H as (r & tape1 & Hr & H).
  apply bind_Some in H as (positions & tape2 & Hp & H).
  apply bind_Some in H as (built & tape3 & Hb & H).
  destruct built as [[[potential1 usedEdges] islands']|]; [|done].
  destruct (existsb _ islands') eqn:Hz; [done|].
  unfold ret in H. inversion H; subst.
  exists r, positions, tape1, tape2, potential1, usedEdges, islands'. done.
Qed.

(** A property of the boards of accepted attempts and of the fallback board
    is a property of every generated board. *)
Lemma generateLoop_ind (P : GameBoard → Prop) (mode : Mode) :
  P fallbackBoard →
  (∀ tape tape' puzzle, attempt mode tape = Some (Some puzzle, tape') → P puzzle) →
  ∀ n tape tape' puzzle,
    generateLoop mode n tape = Some (puzzle, tape') → P puzzle.
Proof.
  intros Hfb Hacc. induction n as [|n IH]; intros tape tape' puzzle; simpl.
  - unfold ret. by intros [= <- _].
  - intros H. apply bind_Some in H as ([q|] & tape1 & Ha & H).
    + unfold ret in H. inversion H; subst. by eapply Hacc.
    + by eapply IH.
Qed.

(** C8.  Whatever the generator returns, an accepted board or the fallback
    board, every island has remainingConnections = value. *)
Theorem generation_budgets (mode : Mode) (tape tape' : list nat)
    (puzzle : GameBoard) :
  generateValidPuzzle mode tape = Some (puzzle, tape') →
  Forall (λ p, Point.remainingConnections p = Point.value p) puzzle.
Proof.
  apply (generateLoop_ind fresh mode).
  - repeat constructor.
  - intros t t' q Ha.
    apply attempt_accepted in Ha as (? & ? & ? & ? & ? & ? & islands' & _ & _ & _ & _ & ->).
    apply fresh_finalize.
Qed.

Lemma generation_budgets_witness :
  let tape := [0; 0; 0; 1; 0; 2; 0; 3; 0; 4; 0; 0; 0; 0; 0; 0; 0]%nat in
  ∃ puzzle tape',
    generateValidPuzzle easy tape = Some (puzzle, tape')
    ∧ Forall (λ p, Point.remainingConnections p = Point.value p) puzzle.
Proof.
  intros tape.
  assert (∃ puzzle tape', generateValidPuzzle easy tape = Some (puzzle, tape'))
    as (puzzle & tape' & H) by (vm_compute; eauto).
  exists puzzle, tape'. split; [exact H|].
  exact (generation_budgets easy tape tape' puzzle H).
Defined.

(** ** Values of generated boards (C6) *)

(** *** The positions are distinct *)

Lemma sampleLoop_unfold (fuel g c : nat) (positions : list (Z * Z)) :
  sampleLoop fuel g c positions
  = if (length positions <? c)%nat then
      match fuel with
      | O => λ _, None
      | S fuel' =>
          xr <~ randomInt g ;;
          yr <~ randomInt g ;;
          let x := Z.of_nat xr in
          let y := Z.of_nat yr in
          if negb (existsb (λ p, (p.1 =? x) && (p.2 =? y)) positions)
          then sampleLoop fuel' g c (positions ++ [(x, y)])
          else sampleLoop fuel' g c positions
      end
    else ret positions.
Proof. by destruct fuel. Qed.

Lemma sampleLoop_NoDup (fuel g c : nat) :
  ∀ positions tape res tape',
    NoDup positions →
    sampleLoop fuel g c positions tape = Some (res, tape') →
    NoDup res.
Proof.
  assert (∀ (positions : list (Z * Z)) tape res tape',
            NoDup positions → ret positions tape = Some (res, tape') → NoDup res)
    as Hret.
  { intros positions tape res tape' Hnd H. unfold ret in H. by inversion H; subst. }
  induction fuel as [|fuel IH]; intros positions tape res tape' Hnd H;
    rewrite sampleLoop_unfold in H;
    (destruct (length positions <? c)%nat; [|by eapply Hret]).
  { done. }
  apply bind_Some in H as (xr & tape1 & _ & H).
  apply bind_Some in H as (yr & tape2 & _ & H).
  simpl in H.
  destruct (existsb _ positions) eqn:Hex; simpl in H.
  - by eapply IH.
  - eapply IH; [|exact H].
    apply NoDup_app. split_and!; [done| |apply NoDup_singleton].
    intros pos Hin Hin'. apply list_elem_of_singleton in Hin'. subst pos.
    assert (existsb (λ p, (p.1 =? Z.of_nat xr) && (p.2 =? Z.of_nat yr)) positions
            = true) as Ht; [|congruence].
    apply existsb_exists. exists (Z.of_nat xr, Z.of_nat yr).
    rewrite <- list_elem_of_In. split; [done|]. simpl.
    by rewrite !Z.eqb_refl.
Qed.

Lemma samplePositions_NoDup (g c : nat) (tape tape' : list nat)
    (positions : list (Z * Z)) :
  samplePositions g c tape = Some (positions, tape') → NoDup positions.
Proof.
  unfold samplePositions. apply sampleLoop_NoDup. constructor.
Qed.

Lemma createIslands_lookup (positions : list (Z * Z)) (i : nat) (p : Point.t) :
  createIslands positions !! i = Some p →
  ∃ pos, positions !! i = Some pos ∧ p = Point.mk i 0 pos.1 pos.2 0 0 0.
Proof.
  unfold createIslands. rewrite list_lookup_imap.
  destruct (positions !! i) as [pos|]; simpl; [|done].
  intros [= <-]. eauto.
Qed.

Lemma createIslands_ok (positions : list (Z * Z)) :
  NoDup positions → islands_ok (createIslands positions).
Proof.
  intros Hnd. split.
  - intros i p Hp. apply createIslands_lookup in Hp as (pos & _ & ->). done.
  - intros i j p q Hp Hq Hx Hy.
    apply createIslands_lookup in Hp as ([x1 y1] & Hi & ->).
    apply createIslands_lookup in Hq as ([x2 y2] & Hj & ->).
    simpl in *. subst. by eapply NoDup_lookup.
Qed.

Lemma createIslands_value (positions : list (Z * Z)) :
  Forall (λ p, Point.value p = 0) (createIslands positions).
Proof.
  apply Forall_forall. intros p Hp.
  apply list_elem_of_lookup in Hp as [i Hi].
  apply createIslands_lookup in Hi as (pos & _ & ->). done.
Qed.

(** *** The candidate edges *)

Lemma elem_of_potentialEdges (islands : list Point.t) (e : Edge.t) :
  islands_ok islands → e ∈ potentialEdges islands →
  candidate islands (Edge.start e) (Edge.end_ e).
Proof.
  intros [Href _] He. unfold potentialEdges in He.
  apply list_elem_of_bind in He as (i & He & Hi).
  apply list_elem_of_bind in He as (j & He & Hj).
  apply elem_of_seq in Hi, Hj.
  destruct (islands !! i) as [A|] eqn:HA; [|by apply elem_of_nil in He].
  destruct (islands !! j) as [B|] eqn:HB; [|by apply elem_of_nil in He].
  destruct ((Point.x A =? Point.x B) || (Point.y A =? Point.y B)) eqn:Hal;
    [|by apply elem_of_nil in He].
  destruct (hasIslandInBetween A B islands) eqn:Hbt; simpl in He;
    [by apply elem_of_nil in He|].
  apply list_elem_of_singleton in He. subst e. simpl.
  rewrite (Href _ _ HA), (Href _ _ HB).
  split; [lia|]. exists A, B. split_and!; try done.
  apply orb_true_iff in Hal. rewrite !Z.eqb_eq in Hal. done.
Qed.

Lemma potentialEdges_NoDup (islands : list Point.t) :
  islands_ok islands → NoDup (potentialEdges islands).
Proof.
  intros [Href _]. unfold potentialEdges.
  assert (∀ i j e,
    e ∈ match islands !! i, islands !! j with
        | Some A, Some B =>
            if (Point.x A =? Point.x B) || (Point.y A =? Point.y B) then
              if negb (hasIslandInBetween A B islands)
              then [Edge.mk (Point.ref A) (Point.ref B)]
              else []
            else []
        | _, _ => []
        end → e = Edge.mk i j) as Hcell.
  { intros i j e He.
    destruct (islands !! i) as [A|] eqn:HA; [|by apply elem_of_nil in He].
    destruct (islands !! j) as [B|] eqn:HB; [|by apply elem_of_nil in He].
    destruct ((Point.x A =? Point.x B) || (Point.y A =? Point.y B));
      [|by apply elem_of_nil in He].
    destruct (negb (hasIslandInBetween A B islands));
      [|by apply elem_of_nil in He].
    apply list_elem_of_singleton in He.
    by rewrite He, (Href _ _ HA), (Href _ _ HB). }
  apply NoDup_bind; [| |apply NoDup_seq].
  - intros i1 i2 e _ _ H1 H2.
    apply list_elem_of_bind in H1 as (j1 & H1 & _).
    apply list_elem_of_bind in H2 as (j2 & H2 & _).
    apply Hcell in H1, H2. congruence.
  - intros i _. apply NoDup_bind; [| |apply NoDup_seq].
    + intros j1 j2 e _ _ H1 H2. apply Hcell in H1, H2. congruence.
    + intros j _.
      destruct (islands !! i) as [A|]; [|constructor].
      destruct (islands !! j) as [B|]; [|constructor].
      destruct ((Point.x A =? Point.x B) || (Point.y A =? Point.y B));
        [|constructor].
      destruct (negb (hasIslandInBetween A B islands)); [|constructor].
      apply NoDup_singleton.
Qed.

(** *** Shuffling permutes *)

Lemma swap_Permutation {A : Type} (arr : list A) (i j : nat) :
  swap arr i j ≡ₚ arr.
Proof.
  unfold swap.
  destruct (arr !! i) as [ai|] eqn:Hi; [|done].
  destruct (arr !! j) as [aj|] eqn:Hj; [|done].
  pose proof (lookup_lt_Some _ _ _ Hi) as Hli.
  pose proof (lookup_lt_Some _ _ _ Hj) as Hlj.
  apply Permutation_inj. split; [by rewrite !length_insert|].
  exists (λ k, if decide (k = i) then j else if decide (k = j) then i else k).
  split.
  - intros k1 k2 Hk. repeat case_decide; subst; congruence.
  - intros k. destruct (decide (k = j)) as [->|Hkj].
    + rewrite list_lookup_insert_eq by (by rewrite length_insert).
      case_decide; subst; done.
    + rewrite list_lookup_insert_ne by done.
      destruct (decide (k = i)) as [->|Hki].
      * by rewrite list_lookup_insert_eq.
      * by rewrite list_lookup_insert_ne.
Qed.

Lemma shuffleFrom_Permutation {A : Type} (i : nat) :
  ∀ (arr res : list A) (tape tape' : list nat),
    shuffleFrom i arr tape = Some (res, tape') → res ≡ₚ arr.
Proof.
  induction i as [|i IH]; intros arr res tape tape' H; simpl in H.
  - unfold ret in H. by inversion H.
  - apply bind_Some in H as (j & tape1 & _ & H).
    apply IH in H. by rewrite H, swap_Permutation.
Qed.

Lemma shuffleArray_Permutation {A : Type} (arr res : list A)
    (tape tape' : list nat) :
  shuffleArray arr tape = Some (res, tape') → res ≡ₚ arr.
Proof. apply shuffleFrom_Permutation. Qed.

(** *** The edges used *)

Lemma mstStep_used (parent parent' : gmap nat nat) (used used' : list UsedEdge.t)
    (e : Edge.t) :
  mstStep (parent, used) e = Some (parent', used') →
  used' = used ∨ used' = used ++ [UsedEdge.mk (Edge.start e) (Edge.end_ e) 1].
Proof.
  unfold mstStep.
  destruct (sameSet parent _ _) as [[parent1 same]|]; [|done].
  destruct same; simpl.
  - intros [= _ <-]. by left.
  - destruct (union parent1 _ _); [|done]. intros [= _ <-]. by right.
Qed.

Lemma mstLoop_used (es : list Edge.t) :
  ∀ parent used parent' used',
    mstLoop (parent, used) es = Some (parent', used') →
    ∃ acc, acc `sublist_of` es
           ∧ used' = used ++ map (λ e, UsedEdge.mk (Edge.start e) (Edge.end_ e) 1) acc.
Proof.
  induction es as [|e es IH]; intros parent used parent' used' H;
    cbn [mstLoop] in H.
  - inversion H; subst. exists []. split; [constructor|]. by rewrite app_nil_r.
  - destruct (mstStep (parent, used) e) as [[parent1 used1]|] eqn:Hs; [|done].
    apply IH in H as (acc & Hsub & ->).
    apply mstStep_used in Hs as [->| ->].
    + exists acc. split; [by apply sublist_cons|done].
    + exists (e :: acc). split; [by apply sublist_skip|].
      by rewrite <- app_assoc.
Qed.

Lemma NoDup_fmap_elem {A B : Type} (f : A → B) (l : list A) (a b : A) :
  NoDup (f <$> l) → a ∈ l → b ∈ l → f a = f b → a = b.
Proof.
  intros Hnd Ha Hb Hf.
  apply list_elem_of_lookup in Ha as [i Hi], Hb as [j Hj].
  assert (i = j) as ->.
  { eapply NoDup_lookup; [exact Hnd|..].
    - by rewrite list_lookup_fmap, Hi.
    - rewrite list_lookup_fmap, Hj. simpl. by rewrite Hf. }
  congruence.
Qed.

Lemma mstLoop_used_ok (islands : list Point.t) (es : list Edge.t)
    (parent parent' : gmap nat nat) (used' : list UsedEdge.t) :
  Forall (λ e, candidate islands (Edge.start e) (Edge.end_ e)) es →
  NoDup es →
  mstLoop (parent, []) es = Some (parent', used') →
  used_ok islands used'.
Proof.
  intros Hc Hnd H. apply mstLoop_used in H as (acc & Hsub & ->). simpl.
  split.
  - apply Forall_fmap, Forall_forall. intros e He. simpl. split; [|by left].
    rewrite Forall_forall in Hc. apply Hc. by eapply elem_of_sublist.
  - rewrite <- list_fmap_compose.
    apply NoDup_fmap_2_strong; [|by eapply sublist_NoDup].
    intros [a1 b1] [a2 b2] _ _. simpl. congruence.
Qed.

Lemma augment_used_ok (islands : list Point.t) (es : list Edge.t) :
  Forall (λ e, candidate islands (Edge.start e) (Edge.end_ e)) es →
  ∀ extras used, used_ok islands used → used_ok islands (augment extras used es).
Proof.
  induction 1 as [|e es He _ IH]; intros extras used Hok; simpl; [done|].
  destruct (extras <=? 0); [done|].
  destruct (findIndex (sameEdge e) used) as [k|] eqn:Hfind.
  - apply findIndex_Some in Hfind as (ex & Hex & _ & _).
    rewrite Hex.
    destruct (UsedEdge.count ex <? 2); [|by apply IH].
    apply IH. destruct Hok as [HF Hnd].
    assert (ex ∈ used) as Hin by (by eapply list_elem_of_lookup_2).
    split.
    + apply Forall_insert; [done|]. simpl.
      rewrite Forall_forall in HF. destruct (HF ex Hin) as [Hc _]. auto.
    + rewrite list_fmap_insert. simpl.
      rewrite list_insert_id; [done|]. by rewrite list_lookup_fmap, Hex.
  - apply findIndex_None in Hfind. apply IH.
    destruct Hok as [HF Hnd]. split.
    + apply Forall_app. split; [done|].
      constructor; [|constructor]. simpl. auto.
    + rewrite fmap_app. simpl. apply NoDup_app. split_and!; [done| |apply NoDup_singleton].
      intros pr Hin Hin'. apply list_elem_of_singleton in Hin'. subst pr.
      apply list_elem_of_fmap in Hin as (ue & Hpair & Hue).
      rewrite Forall_forall in Hfind. specialize (Hfind ue Hue).
      unfold sameEdge in Hfind. inversion Hpair as [[H1 H2]].
      by rewrite <- H1, <- H2, !Nat.eqb_refl in Hfind.
Qed.

(** *** The values are the degrees *)

Lemma addValue_lookup (i k : nat) (c : Z) (islands : list Point.t) (p : Point.t) :
  islands !! k = Some p →
  ∃ p', addValue i c islands !! k = Some p'
        ∧ Point.value p' = Point.value p + (if Nat.eqb i k then c else 0).
Proof.
  intros Hp. unfold addValue. rewrite list_lookup_alter.
  destruct (Nat.eqb_spec i k) as [->|Hne].
  - rewrite decide_True by done. rewrite Hp. simpl. eauto.
  - rewrite decide_False by done. exists p. split; [done|]. lia.
Qed.

Lemma sumValues_lookup (used : list UsedEdge.t) :
  ∀ (islands : list Point.t) (k : nat) (p : Point.t),
    islands !! k = Some p →
    ∃ p', sumValues used islands !! k = Some p'
          ∧ Point.value p' = Point.value p + degree used k.
Proof.
  unfold sumValues.
  induction used as [|ue used IH]; intros islands k p Hp; simpl.
  - exists p. split; [done|]. lia.
  - destruct (addValue_lookup (UsedEdge.start ue) k (UsedEdge.count ue) _ _ Hp)
      as (p1 & Hp1 & Hv1).
    destruct (addValue_lookup (UsedEdge.end_ ue) k (UsedEdge.count ue) _ _ Hp1)
      as (p2 & Hp2 & Hv2).
    destruct (IH _ k p2 Hp2) as (p' & Hp' & Hv').
    exists p'. split; [done|]. lia.
Qed.

Lemma sumValues_length (used : list UsedEdge.t) :
  ∀ islands : list Point.t, length (sumValues used islands) = length islands.
Proof.
  unfold sumValues.
  induction used as [|ue used IH]; intros islands; simpl; [done|].
  rewrite IH. unfold addValue. by rewrite !length_alter.
Qed.

Lemma sumValues_value (used : list UsedEdge.t) (islands : list Point.t)
    (k : nat) (p' : Point.t) :
  Forall (λ p, Point.value p = 0) islands →
  sumValues used islands !! k = Some p' →
  Point.value p' = degree used k.
Proof.
  intros Hz Hp'.
  assert (k < length islands)%nat as Hk.
  { rewrite <- (sumValues_length used). by eapply lookup_lt_Some. }
  apply lookup_lt_is_Some in Hk as [p Hp].
  destruct (sumValues_lookup used islands k p Hp) as (q & Hq & Hv).
  rewrite Hq in Hp'. inversion Hp'; subst.
  rewrite Forall_forall in Hz. rewrite Hv, (Hz p); [lia|].
  by eapply list_elem_of_lookup_2.
Qed.

(** *** At most four neighbours *)

Lemma hasIslandInBetween_false (A B : Point.t) (all : list Point.t) :
  hasIslandInBetween A B all = false →
  (Point.x A = Point.x B ∨ Point.y A = Point.y B)
  ∧ ∀ p, p ∈ all →
         ¬ (Point.ref p ≠ Point.ref A ∧ Point.ref p ≠ Point.ref B
            ∧ strictly_between A B p).
Proof.
  unfold hasIslandInBetween. intros H. split.
  - destruct (Z.eqb_spec (Point.x A) (Point.x B)); [by left|].
    destruct (Z.eqb_spec (Point.y A) (Point.y B)); [by right|]. done.
  - intros p Hp Hb. apply blocks_true in Hb.
    destruct (negb (Point.x A =? Point.x B) && negb (Point.y A =? Point.y B));
      [done|].
    assert (existsb (blocks A B) all = true); [|congruence].
    apply existsb_exists. exists p. by rewrite <- list_elem_of_In.
Qed.

Lemma adjacent_unblocked (islands : list Point.t) (i q : nat) :
  islands_ok islands → adjacent islands i q →
  ∃ Pi Q,
    islands !! i = Some Pi ∧ islands !! q = Some Q ∧ i ≠ q
    ∧ (Point.x Pi = Point.x Q ∨ Point.y Pi = Point.y Q)
    ∧ ∀ k P, islands !! k = Some P → k ≠ i → k ≠ q →
             ¬ strictly_between Pi Q P.
Proof.
  intros [Href _] [Hc|Hc]; destruct Hc as (Hlt & A & B & HA & HB & Hal & Hbt);
    apply hasIslandInBetween_false in Hbt as [_ Hbt].
  - exists A, B. split_and!; try done; [lia|].
    intros k P HP Hki Hkq Hsb.
    apply (Hbt P); [by eapply list_elem_of_lookup_2|].
    rewrite (Href _ _ HP), (Href _ _ HA), (Href _ _ HB). done.
  - exists B, A. split_and!; try done; [lia|by destruct Hal; [left|right]|].
    intros k P HP Hki Hkq Hsb.
    apply (Hbt P); [by eapply list_elem_of_lookup_2|].
    rewrite (Href _ _ HP), (Href _ _ HA), (Href _ _ HB).
    split_and!; try done.
    unfold strictly_between in *. lia.
Qed.

(** Seen from an island, no two of its neighbours lie in the same
    direction: the nearer one would be between the island and the other. *)
Lemma direction_inj (islands : list Point.t) (i q1 q2 : nat) :
  islands_ok islands → adjacent islands i q1 → adjacent islands i q2 →
  direction islands i q1 = direction islands i q2 → q1 = q2.
Proof.
  intros Hok H1 H2 Hdir.
  destruct (adjacent_unblocked islands i q1 Hok H1)
    as (Pi & Q1 & HPi & HQ1 & Hne1 & Hal1 & Hun1).
  destruct (adjacent_unblocked islands i q2 Hok H2)
    as (Pi' & Q2 & HPi' & HQ2 & Hne2 & Hal2 & Hun2).
  rewrite HPi in HPi'. inversion HPi'; subst Pi'. clear HPi'.
  destruct (decide (q1 = q2)) as [|Hne]; [done|exfalso].
  destruct Hok as [_ Hcoords].
  assert (¬ (Point.x Q1 = Point.x Q2 ∧ Point.y Q1 = Point.y Q2)) as Hd12.
  { intros [Hx Hy]. apply Hne. by eapply (Hcoords q1 q2 Q1 Q2). }
  assert (¬ (Point.x Pi = Point.x Q1 ∧ Point.y Pi = Point.y Q1)) as Hd1.
  { intros [Hx Hy]. apply Hne1. by eapply (Hcoords i q1 Pi Q1). }
  assert (¬ (Point.x Pi = Point.x Q2 ∧ Point.y Pi = Point.y Q2)) as Hd2.
  { intros [Hx Hy]. apply Hne2. by eapply (Hcoords i q2 Pi Q2). }
  specialize (Hun1 q2 Q2 HQ2 (not_eq_sym Hne2) (not_eq_sym Hne)).
  specialize (Hun2 q1 Q1 HQ1 (not_eq_sym Hne1) Hne).
  unfold direction, coordsAt in Hdir. rewrite HPi, HQ1, HQ2 in Hdir.
  destruct (Z.eqb_spec (Point.y Q1) (Point.y Pi)) as [Ey1|Ey1];
    destruct (Z.eqb_spec (Point.y Q2) (Point.y Pi)) as [Ey2|Ey2].
  - (* both on the row of the island *)
    assert (Point.x Q1 < Point.x Q2 ∨ Point.x Q2 < Point.x Q1) as Hlt by lia.
    destruct (Z.ltb_spec (Point.x Q1) (Point.x Pi));
      destruct (Z.ltb_spec (Point.x Q2) (Point.x Pi)); try discriminate;
      (destruct Hlt; [apply Hun2 + apply Hun1|apply Hun1 + apply Hun2];
       unfold strictly_between; right; split_and!; lia).
  - destruct (Z.ltb_spec (Point.x Q1) (Point.x Pi));
      destruct (Z.ltb_spec (Point.y Q2) (Point.y Pi)); discriminate.
  - destruct (Z.ltb_spec (Point.y Q1) (Point.y Pi));
      destruct (Z.ltb_spec (Point.x Q2) (Point.x Pi)); discriminate.
  - (* both on the column of the island *)
    assert (Point.x Pi = Point.x Q1) as Ex1 by (destruct Hal1; [done|lia]).
    assert (Point.x Pi = Point.x Q2) as Ex2 by (destruct Hal2; [done|lia]).
    assert (Point.y Q1 < Point.y Q2 ∨ Point.y Q2 < Point.y Q1) as Hlt by lia.
    destruct (Z.ltb_spec (Point.y Q1) (Point.y Pi));
      destruct (Z.ltb_spec (Point.y Q2) (Point.y Pi)); try discriminate;
      (destruct Hlt; [apply Hun2 + apply Hun1|apply Hun1 + apply Hun2];
       unfold strictly_between; left; split_and!; lia).
Qed.

Lemma length_Dir (l : list Dir) : NoDup l → (length l ≤ 4)%nat.
Proof.
  intros Hnd.
  change 4%nat with (length [West; East; North; South]).
  apply submseteq_length, NoDup_submseteq; [done|].
  intros d _. destruct d; rewrite !elem_of_cons; tauto.
Qed.

Lemma degree_le (islands : list Point.t) (used : list UsedEdge.t) (i : nat) :
  used_ok islands used →
  0 <= degree used i
  <= 2 * Z.of_nat (length (filter (λ ue, UsedEdge.start ue = i
                                         ∨ UsedEdge.end_ ue = i) used)).
Proof.
  intros [HF _]. unfold degree.
  induction HF as [|ue used [Hc Hcnt] _ IH]; simpl; [lia|].
  destruct Hc as (Hlt & _).
  destruct (Nat.eqb_spec (UsedEdge.start ue) i) as [Hs|Hs];
    destruct (Nat.eqb_spec (UsedEdge.end_ ue) i) as [He|He]; try lia.
  - rewrite filter_cons_True by auto. simpl length. lia.
  - rewrite filter_cons_True by auto. simpl length. lia.
  - rewrite filter_cons_False by tauto. lia.
Qed.

Lemma incident_used_le_4 (islands : list Point.t) (used : list UsedEdge.t)
    (i : nat) :
  islands_ok islands → used_ok islands used →
  (length (filter (λ ue, UsedEdge.start ue = i ∨ UsedEdge.end_ ue = i) used)
   ≤ 4)%nat.
Proof.
  intros Hok [HF Hnd].
  set (l := filter _ used).
  rewrite <- (length_fmap (λ ue, direction islands i (partner i ue)) l).
  apply length_Dir.
  assert (∀ ue, ue ∈ l → ue ∈ used ∧ adjacent islands i (partner i ue)
                         ∧ (UsedEdge.start ue < UsedEdge.end_ ue)%nat
                         ∧ (UsedEdge.start ue = i ∨ UsedEdge.end_ ue = i))
    as Hl.
  { intros ue Hue. apply list_elem_of_filter in Hue as [Hinc Hin].
    rewrite Forall_forall in HF. destruct (HF ue Hin) as [Hc _].
    split_and!; [done| |by destruct Hc|done].
    unfold adjacent, partner.
    destruct (Nat.eqb_spec (UsedEdge.start ue) i) as [Hs|Hs].
    - left. by rewrite <- Hs.
    - right. destruct Hinc as [?|He]; [done|]. by rewrite <- He. }
  apply NoDup_fmap_2_strong.
  - intros ue1 ue2 H1 H2 Hdir.
    apply Hl in H1 as (Hin1 & Hadj1 & Hlt1 & Hinc1).
    apply Hl in H2 as (Hin2 & Hadj2 & Hlt2 & Hinc2).
    pose proof (direction_inj islands i _ _ Hok Hadj1 Hadj2 Hdir) as Hq.
    apply (NoDup_fmap_elem _ used ue1 ue2 Hnd Hin1 Hin2).
    unfold partner in Hq.
    destruct (Nat.eqb_spec (UsedEdge.start ue1) i);
      destruct (Nat.eqb_spec (UsedEdge.start ue2) i);
      f_equal; lia.
  - apply NoDup_filter. by eapply NoDup_fmap_1.
Qed.

Lemma degree_bounds (islands : list Point.t) (used : list UsedEdge.t) (i : nat) :
  islands_ok islands → used_ok islands used → 0 <= degree used i <= 8.
Proof.
  intros Hok Hu.
  pose proof (degree_le islands used i Hu).
  pose proof (incident_used_le_4 islands used i Hok Hu).
  lia.
Qed.

(** *** Assembling the attempt *)

Lemma buildEdges_accepted (islands islands' : list Point.t)
    (tape tape' : list nat) (potential1 : list Edge.t) (used : list UsedEdge.t) :
  islands_ok islands →
  buildEdges islands tape = Some (Some (potential1, used, islands'), tape') →
  potential1 ≡ₚ potentialEdges islands
  ∧ used_ok islands used
  ∧ islands' = sumValues used islands.
Proof.
  intros Hok H. unfold buildEdges in H.
  apply bind_Some in H as (p1 & tape1 & Hsh1 & H).
  apply shuffleArray_Permutation in Hsh1.
  destruct (mstLoop (unionFindInit islands, []) p1) as [[parent tree]|] eqn:Hmst.
  2:{ unfold ret in H. inversion H. }
  apply bind_Some in H as (p2 & tape2 & Hsh2 & H).
  apply shuffleArray_Permutation in Hsh2.
  unfold ret in H. inversion H; subst. clear H.
  assert (Forall (λ e, candidate islands (Edge.start e) (Edge.end_ e))
                 (potentialEdges islands)) as Hcand.
  { apply Forall_forall. intros e He. by apply elem_of_potentialEdges. }
  split_and!; [done| |done].
  apply augment_used_ok.
  - by rewrite Hsh2, Hsh1.
  - eapply mstLoop_used_ok; [|
      |exact Hmst].
    + by rewrite Hsh1.
    + rewrite Hsh1. by apply potentialEdges_NoDup.
Qed.

Lemma attempt_values (mode : Mode) (tape tape' : list nat) (puzzle : GameBoard) :
  attempt mode tape = Some (Some puzzle, tape') →
  Forall (λ p, 1 <= Point.value p <= 8) puzzle.
Proof.
  intros H.
  apply attempt_accepted in H
    as (r & positions & tape1 & tape2 & potential1 & used & islands'
        & _ & Hpos & Hbuild & Hzero & ->).
  apply samplePositions_NoDup in Hpos.
  pose proof (createIslands_ok positions Hpos) as Hok.
  apply (buildEdges_accepted _ _ _ _ _ _ Hok) in Hbuild as (_ & Hused & ->).
  apply Forall_forall. intros p Hp.
  apply list_elem_of_lookup in Hp as [k Hk].
  unfold finalize in Hk. rewrite list_lookup_imap in Hk.
  destruct (sumValues used (createIslands positions) !! k) as [q|] eqn:Hq;
    simpl in Hk; [|done].
  inversion Hk; subst p. simpl.
  pose proof (sumValues_value used _ k q (createIslands_value positions) Hq) as Hv.
  pose proof (degree_bounds _ used k Hok Hused) as Hdeg.
  assert (Point.value q ≠ 0); [|lia].
  intros Hz.
  assert (existsb (λ i, Point.value i =? 0)
                  (sumValues used (createIslands positions)) = true);
    [|congruence].
  apply existsb_exists. exists q. split.
  - apply list_elem_of_In. by eapply list_elem_of_lookup_2.
  - by apply Z.eqb_eq.
Qed.

(** C6.  Every board that the generator returns has all its island values
    between 1 and 8: the boards accepted by the generation loop, and the
    fallback board too. *)
Theorem generation_values (mode : Mode) (tape tape' : list nat)
    (puzzle : GameBoard) :
  generateValidPuzzle mode tape = Some (puzzle, tape') →
  Forall (λ p, 1 <= Point.value p <= 8) puzzle.
Proof.
  apply (generateLoop_ind (Forall (λ p, 1 <= Point.value p <= 8)) mode).
  - repeat constructor; simpl; lia.
  - intros t t' q. apply attempt_values.
Qed.

Lemma generation_values_witness :
  let tape := [3; 0; 0; 4; 0; 2; 0; 0; 2; 4; 2; 2; 4; 0; 4; 4; 4; 2; 3;
               1; 0; 2; 5; 3; 1; 0; 4; 1; 7; 3; 2; 6; 1; 0; 2; 2; 1;
               0; 1; 2; 3; 4; 5; 6; 7; 8; 9; 10; 11; 12]%nat in
  ∃ puzzle tape',
    generateValidPuzzle easy tape = Some (puzzle, tape')
    ∧ Forall (λ p, 1 <= Point.value p <= 8) puzzle.
Proof.
  intros tape.
  assert (∃ puzzle tape', generateValidPuzzle easy tape = Some (puzzle, tape'))
    as (puzzle & tape' & H) by (vm_compute; eauto).
  exists puzzle, tape'. split; [exact H|].
  exact (generation_values easy tape tape' puzzle H).
Defined.

(** ** The spanning tree (C9) *)

(** *** Representatives *)

Section UnionFind.

#[local] Set Default Proof Using "Type".

(** The number of islands and the height function of the invariant. *)
Variables (K : nat) (h : nat → nat).

Lemma uf_root_is_root (parent : gmap nat nat) (a r : nat) :
  uf_root parent a r → parent !! r = Some r.
Proof. induction 1; done. Qed.

Lemma uf_root_unique (parent : gmap nat nat) (a r1 r2 : nat) :
  uf_root parent a r1 → uf_root parent a r2 → r1 = r2.
Proof.
  intros H1. revert r2. induction H1 as [a Ha|a p r Ha Hne _ IH]; intros r2 H2.
  - inversion H2; subst; [done|]. congruence.
  - inversion H2; subst; [congruence|].
    apply IH. congruence.
Qed.

Lemma uf_root_height (parent : gmap nat nat) (a r : nat) :
  (∀ a p, parent !! a = Some p → p ≠ a → (h a < h p)%nat) →
  uf_root parent a r → a ≠ r → (h a < h r)%nat.
Proof.
  intros Hh H. induction H as [a Ha|a p r Ha Hne Hr IH]; intros Har; [done|].
  specialize (Hh a p Ha Hne).
  destruct (decide (p = r)) as [->|Hpr]; [done|].
  specialize (IH Hpr). lia.
Qed.

Lemma uf_root_exists (parent : gmap nat nat) (a : nat) :
  uf_inv_h K h parent → (a < K)%nat → ∃ r, uf_root parent a r.
Proof.
  intros (Hdom & _ & Hcl & Hh & Hb).
  remember (K - h a)%nat as n eqn:Hn.
  revert a Hn. induction (lt_wf n) as [n _ IH]. intros a Hn Ha.
  destruct (proj1 (Hdom a) Ha) as [p Hp].
  destruct (decide (p = a)) as [->|Hne].
  - exists a. by constructor.
  - pose proof (Hh a p Hp Hne). pose proof (Hcl a p Hp) as HpK.
    pose proof (Hb p HpK).
    destruct (IH (K - h p)%nat ltac:(lia) p eq_refl HpK) as [r Hr].
    exists r. by eapply uf_root_step.
Qed.

Lemma uf_root_lt (parent : gmap nat nat) (a r : nat) :
  uf_inv_h K h parent → uf_root parent a r → (a < K)%nat ∧ (r < K)%nat.
Proof.
  intros (Hdom & _ & Hcl & _) H. split.
  - apply Hdom. destruct H; eauto.
  - apply uf_root_is_root in H. by eapply Hcl.
Qed.

Lemma roots_lookup (parent : gmap nat nat) (r : nat) :
  roots parent !! r = Some r ↔ parent !! r = Some r.
Proof.
  unfold roots. rewrite map_lookup_filter_Some. simpl.
  split; [by intros [? _]|by intros ?].
Qed.

Lemma roots_nonempty (parent : gmap nat nat) :
  uf_inv_h K h parent → (0 < K)%nat → (0 < size (roots parent))%nat.
Proof.
  intros Hinv HK.
  destruct (uf_root_exists parent 0%nat Hinv HK) as [r Hr].
  apply uf_root_is_root, roots_lookup in Hr.
  assert (size (roots parent) ≠ 0%nat); [|lia].
  eapply map_size_ne_0_lookup_2. eauto.
Qed.

(** *** Path compression *)

(** Pointing an island at its representative changes no representative. *)
Lemma compress_equiv (parent : gmap nat nat) (a r : nat) :
  uf_root parent a r → uf_equiv parent (<[a := r]> parent).
Proof.
  intros Har b r'. split.
  - induction 1 as [b Hb|b p r' Hb Hne Hr IH].
    + destruct (decide (b = a)) as [->|Hba].
      * assert (r = a) as -> by (eapply uf_root_unique; [exact Har|by constructor]).
        constructor. by rewrite lookup_insert_eq.
      * constructor. by rewrite lookup_insert_ne.
    + destruct (decide (b = a)) as [->|Hba].
      * assert (r' = r) as ->.
        { eapply uf_root_unique; [|exact Har]. by eapply uf_root_step. }
        destruct (decide (r = a)) as [->|Hra].
        -- constructor. by rewrite lookup_insert_eq.
        -- eapply uf_root_step; [by rewrite lookup_insert_eq|done|].
           constructor. rewrite lookup_insert_ne by done.
           by eapply uf_root_is_root.
      * eapply uf_root_step; [by rewrite lookup_insert_ne|done|done].
  - induction 1 as [b Hb|b p r' Hb Hne Hr IH].
    + destruct (decide (b = a)) as [->|Hba].
      * rewrite lookup_insert_eq in Hb. inversion Hb; subst. done.
      * rewrite lookup_insert_ne in Hb by done. by constructor.
    + destruct (decide (b = a)) as [->|Hba].
      * rewrite lookup_insert_eq in Hb. inversion Hb; subst.
        assert (r' = p) as ->; [|done].
        eapply uf_root_unique; [exact IH|].
        constructor. by eapply uf_root_is_root.
      * rewrite lookup_insert_ne in Hb by done. by eapply uf_root_step.
Qed.

Lemma compress_roots (parent : gmap nat nat) (a r : nat) :
  uf_root parent a r → roots (<[a := r]> parent) = roots parent.
Proof.
  intros Har. destruct (decide (a = r)) as [->|Hne].
  - rewrite insert_id; [done|]. by eapply uf_root_is_root.
  - unfold roots. apply map_filter_insert_not'; simpl; [done|].
    intros p Hp. inversion Har; subst; congruence.
Qed.

Lemma compress_inv (parent : gmap nat nat) (a r : nat) :
  uf_inv_h K h parent → uf_root parent a r →
  uf_inv_h K h (<[a := r]> parent).
Proof.
  intros Hinv Har.
  destruct (uf_root_lt parent a r Hinv Har) as [HaK HrK].
  destruct Hinv as (Hdom & Hsz & Hcl & Hh & Hb).
  split_and!.
  - intros b. rewrite Hdom. destruct (decide (b = a)) as [->|Hne].
    + rewrite lookup_insert_eq. split; [eauto|]. intros _. by apply Hdom.
    + by rewrite lookup_insert_ne.
  - rewrite map_size_insert_Some; [done|]. by apply Hdom.
  - intros b p. destruct (decide (b = a)) as [->|Hne].
    + rewrite lookup_insert_eq. by intros [= <-].
    + rewrite lookup_insert_ne by done. apply Hcl.
  - intros b p. destruct (decide (b = a)) as [->|Hne].
    + rewrite lookup_insert_eq. intros [= <-] Hra.
      eapply uf_root_height; eauto.
    + rewrite lookup_insert_ne by done. apply Hh.
  - intros b HbK. rewrite (compress_roots parent a r Har). by apply Hb.
Qed.

(** [find] returns the representative; the compressed structure satisfies
    the invariant and has the same representatives. *)
Lemma find_fuel_spec (fuel : nat) :
  ∀ (parent : gmap nat nat) (a : nat),
    uf_inv_h K h parent → (a < K)%nat →
    (K - size (roots parent) - h a < fuel)%nat →
    ∃ parent' r,
      find_fuel fuel parent a = Some (parent', r)
      ∧ uf_root parent a r
      ∧ uf_inv_h K h parent'
      ∧ uf_equiv parent parent'
      ∧ roots parent' = roots parent.
Proof.
  induction fuel as [|fuel IH]; intros parent a Hinv HaK Hfuel; [lia|].
  pose proof Hinv as (Hdom & Hsz & Hcl & Hh & Hb).
  destruct (proj1 (Hdom a) HaK) as [pa Hpa].
  simpl. rewrite Hpa.
  destruct (Nat.eqb_spec pa a) as [->|Hne]; simpl.
  - exists parent, a. split_and!; try done. by constructor.
  - pose proof (Hh a pa Hpa Hne) as Hlt.
    pose proof (Hcl a pa Hpa) as HpK. pose proof (Hb pa HpK) as Hbp.
    destruct (IH parent pa Hinv HpK ltac:(lia))
      as (parent1 & r & Hf & Hr & Hinv1 & Heq1 & Hroots1).
    rewrite Hf. rewrite lookup_insert_eq.
    assert (uf_root parent a r) as Har by (by eapply uf_root_step).
    assert (uf_root parent1 a r) as Har1 by (by apply Heq1).
    exists (<[a := r]> parent1), r. split_and!; try done.
    + by apply compress_inv.
    + intros b r'. rewrite (Heq1 b r'). by apply compress_equiv.
    + by rewrite (compress_roots parent1 a r Har1).
Qed.

Lemma find_spec (parent : gmap nat nat) (a : nat) :
  uf_inv_h K h parent → (a < K)%nat →
  ∃ parent' r,
    find parent a = Some (parent', r)
    ∧ uf_root parent a r
    ∧ uf_inv_h K h parent'
    ∧ uf_equiv parent parent'
    ∧ roots parent' = roots parent.
Proof.
  intros Hinv HaK. unfold find.
  apply find_fuel_spec; [done|done|].
  pose proof (roots_nonempty parent Hinv ltac:(lia)).
  destruct Hinv as (_ & -> & _). lia.
Qed.

(** *** Linking two representatives *)

Lemma link_roots (parent : gmap nat nat) (ra rb : nat) :
  parent !! rb = Some rb → ra ≠ rb →
  (size (roots (<[rb := ra]> parent)) + 1 = size (roots parent))%nat.
Proof.
  intros Hrb Hne. unfold roots.
  rewrite map_filter_insert_False by (simpl; congruence).
  rewrite map_filter_delete.
  assert (is_Some (filter (λ kv : nat * nat, kv.1 = kv.2) parent !! rb)) as Hs.
  { exists rb. by apply map_lookup_filter_Some. }
  rewrite map_size_delete_Some by done.
  pose proof (map_size_ne_0_lookup_2 _ _ Hs). lia.
Qed.

Lemma link_root (parent : gmap nat nat) (ra rb c r : nat) :
  parent !! ra = Some ra → parent !! rb = Some rb → ra ≠ rb →
  uf_root parent c r →
  uf_root (<[rb := ra]> parent) c (if decide (r = rb) then ra else r).
Proof.
  intros Hra Hrb Hne. induction 1 as [c Hc|c p r Hc Hpc Hr IH].
  - destruct (decide (c = rb)) as [->|Hcb].
    + eapply uf_root_step; [by rewrite lookup_insert_eq|done|].
      constructor. by rewrite lookup_insert_ne.
    + constructor. by rewrite lookup_insert_ne.
  - assert (c ≠ rb) as Hcb by congruence.
    eapply uf_root_step; [by rewrite lookup_insert_ne|done|done].
Qed.

Lemma link_inv (parent : gmap nat nat) (ra rb : nat) :
  uf_inv_h K h parent →
  parent !! ra = Some ra → parent !! rb = Some rb → ra ≠ rb →
  uf_inv K (<[rb := ra]> parent).
Proof.
  intros (Hdom & Hsz & Hcl & Hh & Hb) Hra Hrb Hne.
  pose proof (link_roots parent ra rb Hrb Hne) as Hsize.
  assert (ra < K)%nat as HraK by (apply Hdom; eauto).
  assert (rb < K)%nat as HrbK by (apply Hdom; eauto).
  exists (λ x, if decide (x = ra) then Nat.max (h ra) (S (h rb)) else h x).
  split_and!.
  - intros b. rewrite Hdom. destruct (decide (b = rb)) as [->|Hbb].
    + rewrite lookup_insert_eq. split; eauto.
    + by rewrite lookup_insert_ne.
  - rewrite map_size_insert_Some; [done|]. eauto.
  - intros b p. destruct (decide (b = rb)) as [->|Hbb].
    + rewrite lookup_insert_eq. by intros [= <-].
    + rewrite lookup_insert_ne by done. apply Hcl.
  - intros b p. destruct (decide (b = rb)) as [->|Hbb].
    + rewrite lookup_insert_eq. intros [= <-] _.
      rewrite decide_False by done. rewrite decide_True by done. lia.
    + rewrite lookup_insert_ne by done. intros Hbp Hpb.
      assert (b ≠ ra) by congruence.
      rewrite (decide_False (P := b = ra)) by done.
      pose proof (Hh b p Hbp Hpb). case_decide; subst; lia.
  - intros b HbK. pose proof (Hb b HbK). pose proof (Hb ra HraK).
    pose proof (Hb rb HrbK). case_decide; subst; lia.
Qed.

(** *** [sameSet], [union] and one step of the loop *)

Lemma sameSet_spec (parent : gmap nat nat) (a b : nat) :
  uf_inv_h K h parent → (a < K)%nat → (b < K)%nat →
  ∃ parent' ra rb,
    sameSet parent a b = Some (parent', Nat.eqb ra rb)
    ∧ uf_root parent a ra ∧ uf_root parent b rb
    ∧ uf_inv_h K h parent'
    ∧ uf_equiv parent parent'
    ∧ roots parent' = roots parent.
Proof.
  intros Hinv Ha Hb. unfold sameSet.
  destruct (find_spec parent a Hinv Ha)
    as (parent1 & ra & -> & Hra & Hinv1 & Heq1 & Hroots1).
  destruct (find_spec parent1 b Hinv1 Hb)
    as (parent2 & rb & -> & Hrb & Hinv2 & Heq2 & Hroots2).
  exists parent2, ra, rb. split_and!; try done.
  - by apply Heq1.
  - intros c r. by rewrite (Heq1 c r), (Heq2 c r).
  - congruence.
Qed.

Lemma union_spec (parent : gmap nat nat) (a b ra rb : nat) :
  uf_inv_h K h parent → (a < K)%nat → (b < K)%nat →
  uf_root parent a ra → uf_root parent b rb → ra ≠ rb →
  ∃ parent',
    union parent a b = Some parent'
    ∧ uf_inv K parent'
    ∧ (size (roots parent') + 1 = size (roots parent))%nat
    ∧ ∀ c r, uf_root parent c r →
             uf_root parent' c (if decide (r = rb) then ra else r).
Proof.
  intros Hinv Ha Hb Hra Hrb Hne. unfold union.
  destruct (find_spec parent b Hinv Hb)
    as (parent1 & rb' & -> & Hrb' & Hinv1 & Heq1 & Hroots1).
  assert (rb' = rb) as -> by (by eapply uf_root_unique).
  destruct (find_spec parent1 a Hinv1 Ha)
    as (parent2 & ra' & -> & Hra' & Hinv2 & Heq2 & Hroots2).
  assert (ra' = ra) as ->.
  { eapply uf_root_unique; [|exact Hra]. by apply Heq1. }
  assert (parent2 !! ra = Some ra) as Hra2.
  { eapply uf_root_is_root. apply Heq2. exact Hra'. }
  assert (parent2 !! rb = Some rb) as Hrb2.
  { eapply uf_root_is_root. apply Heq2, Heq1. exact Hrb. }
  exists (<[rb := ra]> parent2). split_and!; [done| | |].
  - by eapply link_inv.
  - rewrite (link_roots parent2 ra rb Hrb2 Hne). congruence.
  - intros c r Hc. apply link_root; try done. by apply Heq2, Heq1.
Qed.

End UnionFind.

Lemma same_component_roots (parent : gmap nat nat) (c d rc rd : nat) :
  uf_root parent c rc → uf_root parent d rd →
  same_component parent c d ↔ rc = rd.
Proof.
  intros Hc Hd. split.
  - intros (r & H1 & H2).
    rewrite (uf_root_unique _ _ _ _ Hc H1). by eapply uf_root_unique.
  - intros ->. by exists rd.
Qed.

(** What one iteration of the loop does: the edge is skipped when its
    endpoints have the same representative; otherwise it is pushed and the
    representative of [end] is made to point to that of [start]. *)
Lemma mstStep_spec (K : nat) (parent : gmap nat nat) (used : list UsedEdge.t)
    (e : Edge.t) :
  uf_inv K parent → (Edge.start e < K)%nat → (Edge.end_ e < K)%nat →
  ∃ parent' used',
    mstStep (parent, used) e = Some (parent', used')
    ∧ uf_inv K parent'
    ∧ ((same_component parent (Edge.start e) (Edge.end_ e)
        ∧ used' = used
        ∧ uf_equiv parent parent' ∧ roots parent' = roots parent)
       ∨ (¬ same_component parent (Edge.start e) (Edge.end_ e)
          ∧ used' = used ++ [UsedEdge.mk (Edge.start e) (Edge.end_ e) 1]
          ∧ (size (roots parent') + 1 = size (roots parent))%nat
          ∧ ∃ ra rb,
              uf_root parent (Edge.start e) ra ∧ uf_root parent (Edge.end_ e) rb
              ∧ ra ≠ rb
              ∧ ∀ c r, uf_root parent c r →
                       uf_root parent' c (if decide (r = rb) then ra else r))).
Proof.
  intros [h Hinv] Ha Hb. unfold mstStep.
  destruct (sameSet_spec K h parent _ _ Hinv Ha Hb)
    as (parent1 & ra & rb & -> & Hra & Hrb & Hinv1 & Heq1 & Hroots1).
  pose proof (same_component_roots parent _ _ ra rb Hra Hrb) as Hsc.
  destruct (Nat.eqb_spec ra rb) as [Heq|Hne]; simpl.
  - exists parent1, used. split_and!; [done|by exists h|].
    left. split_and!; try done. by apply Hsc.
  - destruct (union_spec K h parent1 _ _ ra rb Hinv1 Ha Hb)
      as (parent2 & -> & Hinv2 & Hsize & Hmap); [by apply Heq1..|done|].
    exists parent2, (used ++ [UsedEdge.mk (Edge.start e) (Edge.end_ e) 1]).
    split_and!; [done|done|].
    right. split_and!; [by rewrite Hsc|done|congruence|].
    exists ra, rb. split_and!; try done.
    intros c r Hc. by apply Hmap, Heq1.
Qed.

(** *** Paths of candidate edges *)

Lemma connected_mono (es es' : list Edge.t) (a b : nat) :
  (∀ e, e ∈ es → e ∈ es') → connected es a b → connected es' a b.
Proof.
  intros Hsub. induction 1 as [a|a b c _ IH He].
  - constructor.
  - eapply connected_step; [exact IH|]. destruct He; auto.
Qed.

Lemma connected_trans (es : list Edge.t) (a b c : nat) :
  connected es a b → connected es b c → connected es a c.
Proof.
  intros Hab. induction 1 as [b|b c d _ IH He]; [done|].
  eapply connected_step; [by apply IH|done].
Qed.

Lemma connected_sym (es : list Edge.t) (a b : nat) :
  connected es a b → connected es b a.
Proof.
  induction 1 as [a|a b c _ IH He]; [constructor|].
  eapply connected_trans; [|exact IH].
  eapply connected_step; [constructor|]. destruct He; auto.
Qed.

(** The paths of a graph with one more edge. *)
Lemma connected_snoc (es : list Edge.t) (a b c d : nat) :
  connected (es ++ [Edge.mk a b]) c d
  ↔ connected es c d
    ∨ (connected es c a ∧ connected es b d)
    ∨ (connected es c b ∧ connected es a d).
Proof.
  split.
  - induction 1 as [c|c x d _ IH He].
    + left. constructor.
    + rewrite !elem_of_app, !list_elem_of_singleton in He.
      destruct He as [[He|He]|[He|He]].
      * destruct IH as [IH|[[IH1 IH2]|[IH1 IH2]]].
        -- left. eapply connected_step; eauto.
        -- right; left. split; [done|]. eapply connected_step; eauto.
        -- right; right. split; [done|]. eapply connected_step; eauto.
      * inversion He; subst x d.
        destruct IH as [IH|[[IH1 IH2]|[IH1 IH2]]].
        -- right; left. split; [done|constructor].
        -- right; left. split; [done|constructor].
        -- left. done.
      * destruct IH as [IH|[[IH1 IH2]|[IH1 IH2]]].
        -- left. eapply connected_step; eauto.
        -- right; left. split; [done|]. eapply connected_step; eauto.
        -- right; right. split; [done|]. eapply connected_step; eauto.
      * inversion He; subst x d.
        destruct IH as [IH|[[IH1 IH2]|[IH1 IH2]]].
        -- right; right. split; [done|constructor].
        -- left. done.
        -- right; right. split; [done|constructor].
  - assert (∀ x y, connected es x y → connected (es ++ [Edge.mk a b]) x y) as Hm.
    { intros x y. apply connected_mono. intros e He. apply elem_of_app. auto. }
    assert (connected (es ++ [Edge.mk a b]) a b) as Hab.
    { eapply connected_step; [constructor|]. left.
      apply elem_of_app. right. by apply list_elem_of_singleton. }
    intros [H|[[H1 H2]|[H1 H2]]].
    + by apply Hm.
    + eapply connected_trans; [by apply Hm|].
      eapply connected_trans; [exact Hab|by apply Hm].
    + eapply connected_trans; [by apply Hm|].
      eapply connected_trans; [apply connected_sym; exact Hab|by apply Hm].
Qed.

(** *** The invariant of the loop *)

Lemma mstStep_inv (K : nat) (done : list Edge.t)
    (st : gmap nat nat * list UsedEdge.t) (e : Edge.t) :
  mst_inv K done st → (Edge.start e < K)%nat → (Edge.end_ e < K)%nat →
  ∃ st', mstStep st e = Some st' ∧ mst_inv K (done ++ [e]) st'.
Proof.
  destruct st as [parent used]. intros (Hinv & Hcount & Hcomp) Ha Hb.
  simpl in Hinv, Hcount, Hcomp.
  destruct (mstStep_spec K parent used e Hinv Ha Hb)
    as (parent' & used' & Hstep & Hinv' & Hcase).
  exists (parent', used'). split; [done|].
  destruct e as [a b]. simpl in *.
  split_and!; simpl; [done|..].
  - destruct Hcase as [(_ & -> & _ & ->)|(_ & -> & Hsz & _)]; [done|].
    rewrite length_app. simpl. lia.
  - intros c d Hc Hd. rewrite connected_snoc, <- !Hcomp by done.
    destruct Hcase as [(Hsame & _ & Heq & _)|(Hdiff & _ & _ & Hmerge)].
    + assert (same_component parent' c d ↔ same_component parent c d) as ->.
      { unfold same_component. split; intros (r & H1 & H2); exists r;
          split; by apply Heq. }
      split; [auto|].
      destruct Hinv as [h Hinv].
      destruct (uf_root_exists K h parent a Hinv Ha) as [ra Hra].
      destruct (uf_root_exists K h parent b Hinv Hb) as [rb Hrb].
      destruct (uf_root_exists K h parent c Hinv Hc) as [rc Hrc].
      destruct (uf_root_exists K h parent d Hinv Hd) as [rd Hrd].
      rewrite (same_component_roots parent a b ra rb) in Hsame by done.
      rewrite (same_component_roots parent c d rc rd),
              (same_component_roots parent c a rc ra),
              (same_component_roots parent b d rb rd),
              (same_component_roots parent c b rc rb),
              (same_component_roots parent a d ra rd) by done.
      intros [?|[[? ?]|[? ?]]]; congruence.
    + destruct Hmerge as (ra & rb & Hra & Hrb & Hne & Hmap).
      destruct Hinv as [h Hinv].
      destruct (uf_root_exists K h parent c Hinv Hc) as [rc Hrc].
      destruct (uf_root_exists K h parent d Hinv Hd) as [rd Hrd].
      rewrite (same_component_roots parent' c d _ _ (Hmap c rc Hrc) (Hmap d rd Hrd)).
      rewrite (same_component_roots parent c d rc rd),
              (same_component_roots parent c a rc ra),
              (same_component_roots parent b d rb rd),
              (same_component_roots parent c b rc rb),
              (same_component_roots parent a d ra rd) by done.
      repeat case_decide; split; intros; subst; try tauto; try congruence;
        intuition congruence.
Qed.

Lemma mstLoop_inv (K : nat) (es : list Edge.t) :
  ∀ (done : list Edge.t) (st : gmap nat nat * list UsedEdge.t),
    mst_inv K done st → edges_in_range K es →
    ∃ st', mstLoop st es = Some st' ∧ mst_inv K (done ++ es) st'.
Proof.
  induction es as [|e es IH]; intros done st Hinv Hr; cbn [mstLoop].
  - exists st. by rewrite app_nil_r.
  - apply Forall_cons in Hr as [[Ha Hb] Hr].
    destruct (mstStep_inv K done st e Hinv Ha Hb) as (st1 & -> & Hinv1).
    destruct (IH (done ++ [e]) st1 Hinv1 Hr) as (st' & Hloop & Hinv').
    exists st'. split; [done|]. by rewrite <- app_assoc in Hinv'.
Qed.

(** *** The initial structure *)

Lemma unionFindInit_snoc (islands : list Point.t) (p : Point.t) :
  unionFindInit (islands ++ [p])
  = <[Point.ref p := Point.ref p]> (unionFindInit islands).
Proof. unfold unionFindInit. by rewrite foldl_app. Qed.

Lemma unionFindInit_lookup (islands : list Point.t) :
  (∀ i p, islands !! i = Some p → Point.ref p = i) →
  ∀ a, unionFindInit islands !! a
       = if decide (a < length islands)%nat then Some a else None.
Proof.
  induction islands as [|p islands IH] using rev_ind; intros Href a.
  - unfold unionFindInit. simpl. by rewrite lookup_empty.
  - rewrite unionFindInit_snoc, length_app. simpl.
    assert (Point.ref p = length islands) as ->.
    { apply Href. by apply list_lookup_middle. }
    assert (∀ i q, islands !! i = Some q → Point.ref q = i) as Href'.
    { intros i q Hq. apply Href. by apply lookup_app_l_Some. }
    destruct (decide (a = length islands)) as [->|Hne].
    + rewrite lookup_insert_eq. by rewrite decide_True by lia.
    + rewrite lookup_insert_ne by done. rewrite (IH Href').
      repeat case_decide; try done; lia.
Qed.

Lemma unionFindInit_size (islands : list Point.t) :
  (∀ i p, islands !! i = Some p → Point.ref p = i) →
  size (unionFindInit islands) = length islands.
Proof.
  induction islands as [|p islands IH] using rev_ind; intros Href.
  - apply map_size_empty.
  - assert (∀ i q, islands !! i = Some q → Point.ref q = i) as Href'.
    { intros i q Hq. apply Href. by apply lookup_app_l_Some. }
    rewrite unionFindInit_snoc, length_app. simpl.
    assert (Point.ref p = length islands) as ->.
    { apply Href. by apply list_lookup_middle. }
    rewrite map_size_insert, (unionFindInit_lookup islands Href').
    rewrite decide_False by lia. rewrite (IH Href'). simpl. lia.
Qed.

Lemma connected_nil (a b : nat) : connected [] a b ↔ a = b.
Proof.
  split; [|intros ->; constructor].
  induction 1 as [a|a b c _ IH He]; [done|].
  destruct He as [He|He]; by apply elem_of_nil in He.
Qed.

Lemma unionFindInit_inv (islands : list Point.t) :
  (∀ i p, islands !! i = Some p → Point.ref p = i) →
  mst_inv (length islands) [] (unionFindInit islands, []).
Proof.
  intros Href.
  pose proof (unionFindInit_lookup islands Href) as Hl.
  assert (roots (unionFindInit islands) = unionFindInit islands) as Hroots.
  { unfold roots. apply map_filter_id. intros i x. rewrite Hl.
    case_decide; [|done]. by intros [= <-]. }
  assert (uf_inv_h (length islands) (λ _, 0%nat) (unionFindInit islands)) as Hinv.
  { split_and!.
    - intros a. rewrite Hl. case_decide; (split; [eauto; done|]).
      + done.
      + intros [? ?]; done.
    - by apply unionFindInit_size.
    - intros a p. rewrite Hl. case_decide; [|done]. by intros [= <-].
    - intros a p. rewrite Hl. case_decide; [|done]. by intros [= <-].
    - intros a _. rewrite Hroots, (unionFindInit_size islands Href). lia. }
  split_and!; simpl.
  - by exists (λ _, 0%nat).
  - rewrite Hroots, (unionFindInit_size islands Href). lia.
  - intros c d Hc Hd. rewrite connected_nil.
    apply same_component_roots; constructor; rewrite Hl; by rewrite decide_True.
Qed.

(** *** One component *)

Lemma size_1_unique (m : gmap nat nat) (i j x y : nat) :
  size m = 1%nat → m !! i = Some x → m !! j = Some y → i = j.
Proof.
  intros Hsz Hi Hj. destruct (decide (i = j)) as [|Hne]; [done|exfalso].
  assert (size (delete i m) ≠ 0%nat) as Hnz.
  { eapply (map_size_ne_0_lookup_2 _ j). rewrite lookup_delete_ne by done. eauto. }
  rewrite map_size_delete_Some in Hnz by eauto. lia.
Qed.

Lemma roots_size_1 (K : nat) (parent : gmap nat nat) :
  uf_inv K parent → (0 < K)%nat →
  size (roots parent) = 1%nat
  ↔ ∀ c d, (c < K)%nat → (d < K)%nat → same_component parent c d.
Proof.
  intros [h Hinv] HK. split.
  - intros Hsz c d Hc Hd.
    destruct (uf_root_exists K h parent c Hinv Hc) as [rc Hrc].
    destruct (uf_root_exists K h parent d Hinv Hd) as [rd Hrd].
    apply (same_component_roots parent c d rc rd Hrc Hrd).
    eapply (size_1_unique (roots parent)); [done|..];
      apply roots_lookup; by eapply uf_root_is_root.
  - intros Hall.
    destruct (uf_root_exists K h parent 0%nat Hinv HK) as [r Hr].
    assert (roots parent = {[r := r]}) as ->; [|apply map_size_singleton].
    apply map_eq. intros k.
    destruct (decide (k = r)) as [->|Hne].
    + rewrite lookup_singleton_eq. apply roots_lookup.
      by eapply uf_root_is_root.
    + rewrite lookup_singleton_ne by done.
      destruct (roots parent !! k) as [v|] eqn:Hk; [exfalso|done].
      unfold roots in Hk. apply map_lookup_filter_Some in Hk as [Hk Hkv].
      simpl in Hkv. subst v.
      assert (k < K)%nat as HkK by (by apply Hinv; eauto).
      apply Hne.
      apply (same_component_roots parent k 0%nat k r); [by constructor|done|].
      by apply Hall.
Qed.

(** C9.  The spanning-tree loop over the islands [0 .. K-1] and any list of
    candidate edges between them runs to its end.  At every edge, the edge
    is pushed on [usedEdges] exactly when its endpoints are not in the same
    union-find component, and after the iteration the components are those
    of before with the two endpoints' components merged.  At the end, the
    number of edges pushed is K-1 exactly when the candidate graph is
    connected. *)
Theorem spanning_tree (islands : list Point.t) (potential : list Edge.t) :
  (∀ i p, islands !! i = Some p → Point.ref p = i) →
  (0 < length islands)%nat →
  edges_in_range (length islands) potential →
  (∀ pre e post,
     potential = pre ++ e :: post →
     ∃ parent used parent' used',
       mstLoop (unionFindInit islands, []) pre = Some (parent, used)
       ∧ mstStep (parent, used) e = Some (parent', used')
       ∧ ((¬ same_component parent (Edge.start e) (Edge.end_ e)
           ∧ used' = used ++ [UsedEdge.mk (Edge.start e) (Edge.end_ e) 1])
          ∨ (same_component parent (Edge.start e) (Edge.end_ e)
             ∧ used' = used))
       ∧ ∀ c d, (c < length islands)%nat → (d < length islands)%nat →
           (same_component parent' c d
            ↔ same_component parent c d
              ∨ (same_component parent c (Edge.start e)
                 ∧ same_component parent (Edge.end_ e) d)
              ∨ (same_component parent c (Edge.end_ e)
                 ∧ same_component parent (Edge.start e) d)))
  ∧ ∃ parent used,
      mstLoop (unionFindInit islands, []) potential = Some (parent, used)
      ∧ (length used = (length islands - 1)%nat
         ↔ graph_connected (length islands) potential).
Proof.
  intros Href HK Hrange.
  pose proof (unionFindInit_inv islands Href) as Hinit.
  split.
  - intros pre e post ->.
    apply Forall_app in Hrange as [Hpre Hpost].
    apply Forall_cons in Hpost as [[Ha Hb] _].
    destruct (mstLoop_inv _ pre [] _ Hinit Hpre)
      as ([parent used] & Hloop & Hinv).
    simpl in Hinv.
    destruct (mstStep_spec _ parent used e (proj1 Hinv) Ha Hb)
      as (parent' & used' & Hstep & _ & Hcase).
    destruct (mstStep_inv _ pre (parent, used) e Hinv Ha Hb)
      as (st' & Hstep' & Hinv').
    rewrite Hstep in Hstep'. inversion Hstep'; subst st'. clear Hstep'.
    exists parent, used, parent', used'. split_and!; [done|done| |].
    + destruct Hcase as [(Hs & Hu & _)|(Hs & Hu & _)]; [by right|by left].
    + intros c d Hc Hd.
      destruct Hinv as (_ & _ & Hcomp). destruct Hinv' as (_ & _ & Hcomp').
      simpl in Hcomp, Hcomp'.
      rewrite (Hcomp' c d Hc Hd), !Hcomp by done.
      destruct e as [a b]. apply connected_snoc.
  - destruct (mstLoop_inv _ potential [] _ Hinit Hrange)
      as ([parent used] & Hloop & Hinv & Hcount & Hcomp).
    simpl in Hinv, Hcount, Hcomp.
    exists parent, used. split; [done|].
    rewrite <- (Hcount) at 1.
    assert (length used = (size (roots parent) + length used - 1)%nat
            ↔ size (roots parent) = 1%nat) as -> by lia.
    rewrite (roots_size_1 _ parent Hinv) by lia.
    unfold graph_connected. split; intros H c d Hc Hd.
    + apply Hcomp; [done..|]. by apply H.
    + apply Hcomp; [done..|]. by apply H.
Qed.

Lemma spanning_tree_witness :
  let islands := createIslands [(0, 0); (1, 0); (2, 0); (1, 3)] in
  let potential := potentialEdges islands in
  (∀ i p, islands !! i = Some p → Point.ref p = i)
  ∧ (0 < length islands)%nat
  ∧ edges_in_range (length islands) potential
  ∧ (∀ pre e post,
       potential = pre ++ e :: post →
       ∃ parent used parent' used',
         mstLoop (unionFindInit islands, []) pre = Some (parent, used)
         ∧ mstStep (parent, used) e = Some (parent', used')
         ∧ ((¬ same_component parent (Edge.start e) (Edge.end_ e)
             ∧ used' = used ++ [UsedEdge.mk (Edge.start e) (Edge.end_ e) 1])
            ∨ (same_component parent (Edge.start e) (Edge.end_ e)
               ∧ used' = used))
         ∧ ∀ c d, (c < length islands)%nat → (d < length islands)%nat →
             (same_component parent' c d
              ↔ same_component parent c d
                ∨ (same_component parent c (Edge.start e)
                   ∧ same_component parent (Edge.end_ e) d)
                ∨ (same_component parent c (Edge.end_ e)
                   ∧ same_component parent (Edge.start e) d)))
  ∧ ∃ parent used,
      mstLoop (unionFindInit islands, []) potential = Some (parent, used)
      ∧ (length used = (length islands - 1)%nat
         ↔ graph_connected (length islands) potential).
Proof.
  intros islands potential.
  assert (∀ i p, islands !! i = Some p → Point.ref p = i) as H1.
  { intros i p Hp. apply createIslands_lookup in Hp as (pos & _ & ->). done. }
  assert (0 < length islands)%nat as H2 by (simpl; lia).
  assert (edges_in_range (length islands) potential) as H3.
  { repeat constructor; simpl; lia. }
  split; [exact H1|]. split; [exact H2|]. split; [exact H3|].
  exact (spanning_tree islands potential H1 H2 H3).
Defined.

(** ** The generator meets the hypotheses above *)

Lemma candidate_lt (islands : list Point.t) (a b : nat) :
  candidate islands a b → (a < length islands)%nat ∧ (b < length islands)%nat.
Proof.
  intros (_ & A & B & HA & HB & _).
  split; by eapply lookup_lt_Some.
Qed.

(** The candidate edges of an attempt join islands of the attempt, so the
    spanning-tree loop of [buildEdges] never fails. *)
Lemma mstLoop_potential_total (islands : list Point.t) (potential1 : list Edge.t) :
  islands_ok islands →
  potential1 ≡ₚ potentialEdges islands →
  edges_in_range (length islands) potential1
  ∧ is_Some (mstLoop (unionFindInit islands, []) potential1).
Proof.
  intros Hok Hperm.
  assert (edges_in_range (length islands) potential1) as Hrange.
  { unfold edges_in_range. rewrite Hperm. apply Forall_forall. intros e He.
    by apply candidate_lt, elem_of_potentialEdges. }
  split; [done|].
  destruct (mstLoop_inv (length islands) potential1 [] _
              (unionFindInit_inv islands (proj1 Hok)) Hrange) as (st & -> & _).
  eauto.
Qed.

Lemma buildEdges_total (islands : list Point.t) (tape tape' : list nat)
    (res : option (list Edge.t * list UsedEdge.t * list Point.t)) :
  islands_ok islands →
  buildEdges islands tape = Some (res, tape') → is_Some res.
Proof.
  intros Hok H. unfold buildEdges in H.
  apply bind_Some in H as (p1 & tape1 & Hsh1 & H).
  apply shuffleArray_Permutation in Hsh1.
  destruct (mstLoop_potential_total islands p1 Hok Hsh1) as [_ [[parent tree] Hmst]].
  rewrite Hmst in H.
  apply bind_Some in H as (p2 & tape2 & _ & H).
  unfold ret in H. inversion H; subst. eauto.
Qed.

Lemma finalize_consistent (islands : list Point.t) : consistent (finalize islands).
Proof.
  intros o1 o2 H1 H2 Href. unfold finalize in H1, H2.
  apply elem_of_lookup_imap in H1 as (i1 & p1 & -> & Hp1).
  apply elem_of_lookup_imap in H2 as (i2 & p2 & -> & Hp2).
  simpl in Href. assert (i1 = i2) as -> by lia.
  congruence.
Qed.

(** A generated board is fresh and its islands are distinct objects. *)
Lemma generated_fresh_consistent (mode : Mode) (tape tape' : list nat)
    (puzzle : GameBoard) :
  generateValidPuzzle mode tape = Some (puzzle, tape') →
  fresh puzzle ∧ consistent puzzle.
Proof.
  apply (generateLoop_ind (λ b, fresh b ∧ consistent b) mode).
  - split; [repeat constructor|].
    apply NoDup_refs_consistent. simpl. apply NoDup_ListNoDup.
    repeat constructor; simpl; intuition discriminate.
  - intros t t' q Ha.
    apply attempt_accepted in Ha
      as (? & ? & ? & ? & ? & ? & islands' & _ & _ & _ & _ & ->).
    split; [apply fresh_finalize|apply finalize_consistent].
Qed.

(** The ledger invariant in the games played on generated boards. *)
Lemma generated_ledger (mode : Mode) (tape tape' : list nat)
    (puzzle : GameBoard) (es : list event) :
  generateValidPuzzle mode tape = Some (puzzle, tape') →
  ledger_ok (run puzzle es).
Proof.
  intros H. apply generated_fresh_consistent in H as [Hf Hc].
  apply (run_Inv puzzle es Hf Hc).
Qed.

(** * Further properties of the component *)

(** ** What the handlers leave alone *)

Lemma updated_static (test : Point.t → bool) (upd : Point.t → Z)
    (old new : GameBoard) :
  Forall2 (updated test upd) old new → map static new = map static old.
Proof.
  induction 1 as [|p p' l l' Hu _ IH]; simpl; [done|].
  destruct Hu as (Hv & Hx & Hy & Hh & Hw & _).
  unfold static at 1 3. by rewrite IH, Hv, Hx, Hy, Hh, Hw.
Qed.

Lemma updated_refl (test : Point.t → bool) (l : GameBoard) :
  Forall2 (updated test (λ p, Point.remainingConnections p - 0)) l l.
Proof.
  apply Forall_Forall2_diag, Forall_forall. intros p _.
  unfold updated. split_and!; try done. destruct (test p); lia.
Qed.

(** The board after [addOrUpdateBridge]: the islands at the coordinates of
    the two arguments have lost [c] connections, for some [c] of at most 1
    (1 for a new or a raised bridge, -2 for a removed one). *)
Lemma addOrUpdateBridge_board (a b : Point.t) (s : State) :
  ∃ c, c <= 1
       ∧ Forall2 (updated (touches a b) (λ p, Point.remainingConnections p - c))
                 (board s) (board (addOrUpdateBridge a b s)).
Proof.
  unfold addOrUpdateBridge.
  destruct (findIndex (joins a b) (bridges s)) as [idx|].
  - destruct (bridges s !! idx) as [ex|].
    + destruct (2 <=? Bridge.count ex).
      * exists (-2). split; [lia|].
        apply (updatePointConnections_updated a b (-2) (setBridges _ s)).
      * exists 1. split; [lia|].
        apply (updatePointConnections_updated a b 1 (setBridges _ s)).
    + exists 0. split; [lia|]. apply updated_refl.
  - exists 1. split; [lia|].
    apply (updatePointConnections_updated a b 1
             (mkState (board s) _ (selectedPoint s) (isDragging s) (nextRef s) _)).
Qed.

Lemma handleBridgeClick_board (bridge : Bridge.t) (s : State) :
  Forall2 (updated (touches (Bridge.start bridge) (Bridge.end_ bridge))
                   (λ p, Point.remainingConnections p - -1))
          (board s) (board (handleBridgeClick bridge s)).
Proof.
  unfold handleBridgeClick. rewrite !restoreOne_updatePointConnections.
  destruct (1 <? Bridge.count bridge);
    apply (updatePointConnections_updated _ _ (-1) (setBridges _ s)).
Qed.

Lemma handle_static (s : State) (e : event) :
  map static (board (handle s e)) = map static (board s).
Proof.
  destruct e as [i|j|near_test|]; simpl.
  - destruct (board s !! i) as [pt|]; [|done].
    unfold handlePointClick.
    destruct (selectedPoint s) as [sel|]; [|done].
    destruct (ptr_eq pt sel); [done|]. simpl.
    destruct (isValidConnection (board s) sel pt); [|done].
    destruct (addOrUpdateBridge_board sel pt s) as (c & _ & HF).
    by eapply updated_static.
  - destruct (bridges s !! j) as [b|]; [|done].
    eapply updated_static, handleBridgeClick_board.
  - unfold handleMouseMove.
    destruct (isDragging s); [|done].
    destruct (selectedPoint s) as [sel|]; [|done].
    destruct (board s) as [|p0 ps] eqn:Hb; [by rewrite Hb|].
    destruct (List.find _ (p0 :: ps)) as [nr|]; [|by rewrite Hb].
    destruct (isValidConnection (p0 :: ps) sel nr); [|by rewrite Hb].
    destruct (addOrUpdateBridge_board sel nr s) as (c & _ & HF).
    cbn [setSelection board].
    rewrite (updated_static _ _ _ _ HF). by rewrite Hb.
  - done.
Qed.

Lemma run_static (puzzle : GameBoard) (es : list event) :
  map static (board (run puzzle es)) = map static puzzle.
Proof.
  induction es as [|e es IH] using rev_ind; [done|].
  by rewrite run_snoc, handle_static.
Qed.

(** X1.  No handler adds, removes or moves an island, or changes its
    value: through any sequence of events the board keeps its islands, in
    the same order, with their coordinates and values.  The two bridge
    counters [horizontal] and [vertical] of an island are never written
    either. *)
Theorem board_static (puzzle : GameBoard) (es : list event) :
  length (board (run puzzle es)) = length puzzle
  ∧ map static (board (run puzzle es)) = map static puzzle.
Proof.
  pose proof (run_static puzzle es) as H. split; [|done].
  by rewrite <- (List.length_map static), H, List.length_map.
Qed.

(** ** Bridges in play *)

Lemma mapAlloc_refs test upd old :
  ∀ n b' n' p',
    mapAlloc test upd n old = (b', n') → p' ∈ b' →
    (p' ∈ old ∧ test p' = false) ∨ (n ≤ Point.ref p' < n')%nat.
Proof.
  induction old as [|p ps IH]; intros n b' n' p' H Hp'; simpl in H.
  - inversion H; subst. by apply elem_of_nil in Hp'.
  - destruct (test p) eqn:Ht.
    + destruct (mapAlloc test upd (S n) ps) as [ps' m] eqn:E.
      inversion H; subst. pose proof (mapAlloc_le _ _ _ _ _ _ E).
      apply elem_of_cons in Hp' as [->|Hp'].
      * right. simpl. lia.
      * destruct (IH _ _ _ _ E Hp') as [[? ?]|?].
        -- left. split; [by apply list_elem_of_further|done].
        -- right. lia.
    + destruct (mapAlloc test upd n ps) as [ps' m] eqn:E.
      inversion H; subst.
      apply elem_of_cons in Hp' as [->|Hp'].
      * left. split; [apply list_elem_of_here|done].
      * destruct (IH _ _ _ _ E Hp') as [[? ?]|?].
        -- left. split; [by apply list_elem_of_further|done].
        -- by right.
Qed.

Lemma updatePointConnections_refs (a b : Point.t) (c : Z) (s : State) (p' : Point.t) :
  p' ∈ board (updatePointConnections a b c s) →
  (p' ∈ board s ∧ touches a b p' = false) ∨ (nextRef s ≤ Point.ref p')%nat.
Proof.
  unfold updatePointConnections.
  destruct (mapAlloc _ _ _ _) as [b' n'] eqn:E. simpl. intros Hp'.
  destruct (mapAlloc_refs _ _ _ _ _ _ _ E Hp') as [?|?]; [by left|right; lia].
Qed.

Lemma isValidConnection_true (board : GameBoard) (a b : Point.t) :
  isValidConnection board a b = true →
  (Point.x a = Point.x b ∨ Point.y a = Point.y b)
  ∧ 0 < Point.remainingConnections a ∧ 0 < Point.remainingConnections b.
Proof.
  unfold isValidConnection.
  destruct (Z.eqb_spec (Point.x a) (Point.x b));
    destruct (Z.eqb_spec (Point.y a) (Point.y b)); simpl; try done;
    destruct (Z.leb_spec (Point.remainingConnections a) 0); simpl; try done;
    destruct (Z.leb_spec (Point.remainingConnections b) 0); simpl; try done;
    intros _; split_and!; auto.
Qed.

(** On a detached state the lookup of [addOrUpdateBridge] finds nothing
    when its second argument is an island of the board. *)
Lemma detached_findIndex (s : State) (sel pt : Point.t) :
  detached s → pt ∈ board s →
  findIndex (joins sel pt) (bridges s) = None.
Proof.
  intros Hd Hpt. apply findIndex_None, Forall_forall. intros b Hb.
  apply not_true_is_false. unfold joins, ptr_eq.
  rewrite orb_true_iff, !andb_true_iff, !Nat.eqb_eq.
  intros [[_ He]|[Hs _]].
  - apply (Hd (Bridge.end_ b) pt); [|done|done].
    apply elem_of_endpoints. eauto.
  - apply (Hd (Bridge.start b) pt); [|done|done].
    apply elem_of_endpoints. eauto.
Qed.

Lemma same_coords_refl (p : Point.t) : same_coords p p = true.
Proof. unfold same_coords. by rewrite !Z.eqb_refl. Qed.

Lemma addOrUpdateBridge_Play (sel pt : Point.t) (s : State) :
  Wf s → Play s → sel ∈ live s → pt ∈ board s →
  isValidConnection (board s) sel pt = true →
  Play (addOrUpdateBridge sel pt s).
Proof.
  intros Hw [Hd Hsingle Hal] Hsel Hpt Hv.
  pose proof (detached_findIndex s sel pt Hd Hpt) as Hfind.
  assert (pt ∈ live s) as Hptl by (apply elem_of_live; auto).
  unfold addOrUpdateBridge. rewrite Hfind.
  set (nb := Bridge.mk (nextId s) sel pt 1 (Point.x sel =? Point.x pt)).
  set (s1 := mkState (board s) (bridges s ++ [nb]) (selectedPoint s)
                     (isDragging s) (nextRef s) (S (nextId s))).
  constructor; rewrite ?updatePointConnections_bridges; simpl.
  - intros o p Ho Hp. rewrite updatePointConnections_bridges in Ho. simpl in Ho.
    apply updatePointConnections_refs in Hp. simpl in Hp.
    apply elem_of_endpoints in Ho as (b & Hb & Ho).
    assert (o ∈ live s) as Hol.
    { apply elem_of_app in Hb as [Hb|Hb].
      - apply elem_of_live. right; left. apply elem_of_endpoints. eauto.
      - apply list_elem_of_singleton in Hb. subst b. simpl in Ho.
        by destruct Ho as [->| ->]. }
    destruct Hp as [[Hp Ht]|Hfresh].
    + apply elem_of_app in Hb as [Hb|Hb].
      * apply (Hd o p); [|done]. apply elem_of_endpoints. eauto.
      * apply list_elem_of_singleton in Hb. subst b. simpl in Ho.
        intros Href.
        assert (p = o) as ->.
        { apply (wf_consistent s Hw); [apply elem_of_live; auto|done|done]. }
        unfold touches in Ht. apply orb_false_iff in Ht as [Ht1 Ht2].
        destruct Ho as [->| ->]; by rewrite same_coords_refl in *.
    + pose proof (wf_bounded s Hw o Hol). lia.
  - apply Forall_app. split; [done|]. by repeat constructor.
  - apply Forall_app. split; [done|]. constructor; [|constructor].
    split; [|done]. simpl. by apply isValidConnection_true in Hv as [? _].
Qed.

Lemma handleBridgeClick_Play (bridge : Bridge.t) (s : State) :
  Wf s → Play s → bridge ∈ bridges s → Play (handleBridgeClick bridge s).
Proof.
  intros Hw [Hd Hsingle Hal] Hin. unfold handleBridgeClick.
  rewrite !restoreOne_updatePointConnections.
  assert (∀ bs,
    (∀ b, b ∈ bs → ∃ b0, b0 ∈ bridges s ∧ Bridge.start b = Bridge.start b0
                         ∧ Bridge.end_ b = Bridge.end_ b0
                         ∧ Bridge.isVertical b = Bridge.isVertical b0
                         ∧ Bridge.count b = 1) →
    Play (updatePointConnections (Bridge.start bridge) (Bridge.end_ bridge) (-1)
            (setBridges bs s))) as Hgen.
  { intros bs Hbs.
    rewrite Forall_forall in Hsingle, Hal.
    constructor; rewrite ?updatePointConnections_bridges; simpl.
    - intros o p Ho Hp. rewrite updatePointConnections_bridges in Ho. simpl in Ho.
      apply updatePointConnections_refs in Hp. simpl in Hp.
      apply elem_of_endpoints in Ho as (b & Hb & Ho).
      destruct (Hbs b Hb) as (b0 & Hb0 & Hs & He & _).
      assert (o ∈ endpoints (bridges s)) as Ho0.
      { apply elem_of_endpoints. exists b0. split; [done|].
        destruct Ho as [->| ->]; [left|right]; done. }
      destruct Hp as [[Hp _]|Hfresh]; [by apply (Hd o p)|].
      assert (o ∈ live s) as Hol by (apply elem_of_live; auto).
      pose proof (wf_bounded s Hw o Hol). lia.
    - apply Forall_forall. intros b Hb. by destruct (Hbs b Hb) as (_ & _ & _ & _ & _ & ?).
    - apply Forall_forall. intros b Hb.
      destruct (Hbs b Hb) as (b0 & Hb0 & Hs & He & Hv & _).
      unfold aligned_bridge. rewrite Hs, He, Hv. by apply Hal. }
  rewrite Forall_forall in Hsingle.
  destruct (1 <? Bridge.count bridge); apply Hgen.
  - intros b Hb. apply list_elem_of_fmap in Hb as (b0 & -> & Hb0).
    exists b0. destruct (Nat.eqb _ _); simpl; split_and!; auto.
  - intros b Hb. apply list_elem_of_filter in Hb as [_ Hb].
    exists b. split_and!; auto.
Qed.

Lemma Play_setSelection (s : State) (sel : option Point.t) (drag : bool) :
  Play s → Play (setSelection sel drag s).
Proof. intros [? ? ?]. by constructor. Qed.

Lemma handle_Play (s : State) (e : event) :
  Wf s → Play s → Play (handle s e).
Proof.
  intros Hw HP. destruct e as [i|j|near_test|]; simpl.
  - destruct (board s !! i) as [pt|] eqn:Hi; [|done].
    apply list_elem_of_lookup_2 in Hi.
    unfold handlePointClick.
    destruct (selectedPoint s) as [sel|] eqn:Hsel;
      [|by apply Play_setSelection].
    destruct (ptr_eq pt sel); apply Play_setSelection; [done|].
    destruct (isValidConnection (board s) sel pt) eqn:Hv; [|done].
    apply addOrUpdateBridge_Play; try done. apply elem_of_live. auto.
  - destruct (bridges s !! j) as [b|] eqn:Hj; [|done].
    apply handleBridgeClick_Play; try done. by eapply list_elem_of_lookup_2.
  - unfold handleMouseMove.
    destruct (isDragging s); [|done].
    destruct (selectedPoint s) as [sel|] eqn:Hsel; [|done].
    destruct (board s) as [|p0 ps] eqn:Hb; [done|].
    destruct (List.find _ (p0 :: ps)) as [nr|] eqn:Hfind; [|done].
    destruct (isValidConnection (p0 :: ps) sel nr) eqn:Hv; [|done].
    apply find_some in Hfind as [Hin _]. apply list_elem_of_In in Hin.
    apply Play_setSelection, addOrUpdateBridge_Play; try done.
    + apply elem_of_live. auto.
    + by rewrite Hb.
    + by rewrite Hb.
  - by apply Play_setSelection.
Qed.

Lemma run_Play (puzzle : GameBoard) (es : list event) :
  fresh puzzle → consistent puzzle → Play (run puzzle es).
Proof.
  intros Hf Hc. induction es as [|e es IH] using rev_ind.
  - constructor; simpl; [|constructor|constructor].
    intros o p Ho. by apply elem_of_nil in Ho.
  - rewrite run_snoc. apply handle_Play; [|done].
    apply (run_Inv puzzle es Hf Hc).
Qed.

(** X2.  A game never holds a double bridge.  [addOrUpdateBridge] finds an
    existing bridge only through the identity of its two [Point] objects,
    and the islands a handler passes to it are objects of the current
    board, which no bridge holds any more; so, in every state reached from
    a fresh board, every bridge has count 1 (and a click on a bridge always
    removes it). *)
Theorem bridges_always_single (puzzle : GameBoard) (es : list event) :
  fresh puzzle → consistent puzzle →
  Forall (λ b, Bridge.count b = 1) (bridges (run puzzle es)).
Proof. intros Hf Hc. apply (run_Play puzzle es Hf Hc). Qed.

Lemma bridges_always_single_witness :
  let near_B := λ x y, (x =? 1) && (y =? 0) in
  let es := [PointClick 0; MouseMove near_B; PointClick 0; PointClick 1;
             BridgeClick 0] in
  fresh fallbackBoard ∧ consistent fallbackBoard
  ∧ Forall (λ b, Bridge.count b = 1) (bridges (run fallbackBoard es)).
Proof.
  assert (fresh fallbackBoard) as Hf by (repeat constructor).
  assert (consistent fallbackBoard) as Hc.
  { apply NoDup_refs_consistent. simpl. apply NoDup_ListNoDup.
    repeat constructor; simpl; intuition discriminate. }
  split; [exact Hf|]. split; [exact Hc|].
  exact (bridges_always_single fallbackBoard _ Hf Hc).
Defined.

(** X3.  Every bridge of a game joins two points of one row or one column,
    and its [isVertical] flag is true exactly when the two points have the
    same x. *)
Theorem bridges_axis_aligned (puzzle : GameBoard) (es : list event) :
  fresh puzzle → consistent puzzle →
  Forall (λ b,
            (Point.x (Bridge.start b) = Point.x (Bridge.end_ b)
             ∨ Point.y (Bridge.start b) = Point.y (Bridge.end_ b))
            ∧ Bridge.isVertical b
              = (Point.x (Bridge.start b) =? Point.x (Bridge.end_ b)))
         (bridges (run puzzle es)).
Proof. intros Hf Hc. apply (run_Play puzzle es Hf Hc). Qed.

Lemma bridges_axis_aligned_witness :
  let es := [PointClick 0; PointClick 1; PointClick 1; PointClick 0] in
  fresh fallbackBoard ∧ consistent fallbackBoard
  ∧ Forall (λ b,
              (Point.x (Bridge.start b) = Point.x (Bridge.end_ b)
               ∨ Point.y (Bridge.start b) = Point.y (Bridge.end_ b))
              ∧ Bridge.isVertical b
                = (Point.x (Bridge.start b) =? Point.x (Bridge.end_ b)))
           (bridges (run fallbackBoard es)).
Proof.
  assert (fresh fallbackBoard) as Hf by (repeat constructor).
  assert (consistent fallbackBoard) as Hc.
  { apply NoDup_refs_consistent. simpl. apply NoDup_ListNoDup.
    repeat constructor; simpl; intuition discriminate. }
  split; [exact Hf|]. split; [exact Hc|].
  exact (bridges_axis_aligned fallbackBoard _ Hf Hc).
Defined.

(** ** Budgets in play *)

Lemma updated_coords (test : Point.t → bool) (upd : Point.t → Z)
    (old new : GameBoard) :
  Forall2 (updated test upd) old new → map coords new = map coords old.
Proof.
  induction 1 as [|p p' l l' Hu _ IH]; simpl; [done|].
  destruct Hu as (_ & Hx & Hy & _). unfold coords at 1 3.
  by rewrite IH, Hx, Hy.
Qed.

Lemma coords_unique (l : GameBoard) (p q : Point.t) :
  NoDup (map coords l) → p ∈ l → q ∈ l → same_coords p q = true → p = q.
Proof.
  intros Hnd Hp Hq Hs. apply same_coords_true in Hs as [Hx Hy].
  apply (NoDup_fmap_elem coords l p q Hnd Hp Hq).
  unfold coords. by rewrite Hx, Hy.
Qed.

Lemma Forall2_elem_r {A B : Type} (R : A → B → Prop) (l : list A) (k : list B)
    (y : B) :
  Forall2 R l k → y ∈ k → ∃ x, x ∈ l ∧ R x y.
Proof.
  induction 1 as [|a b l k Hab _ IH]; intros Hy.
  - by apply elem_of_nil in Hy.
  - apply elem_of_cons in Hy as [->|Hy].
    + exists a. split; [apply list_elem_of_here|done].
    + destruct (IH Hy) as (x & Hx & HR). exists x.
      split; [by apply list_elem_of_further|done].
Qed.

(** A validated [addOrUpdateBridge] leaves no budget negative. *)
Lemma addOrUpdateBridge_Budget (sel pt : Point.t) (s : State) :
  Budget s → selectedPoint s = Some sel → pt ∈ board s →
  isValidConnection (board s) sel pt = true →
  Budget (setSelection None false (addOrUpdateBridge sel pt s)).
Proof.
  intros [Hnn Hco Hsel] Hs Hpt Hv.
  apply isValidConnection_true in Hv as (_ & Hrs & Hrp).
  destruct (addOrUpdateBridge_board sel pt s) as (c & Hc & HF).
  constructor; simpl.
  - apply Forall_forall. intros p' Hp'.
    destruct (Forall2_elem_r _ _ _ _ HF Hp')
      as (p & Hp & _ & Hx & Hy & _ & _ & Hr & _).
    rewrite Forall_forall in Hnn. specialize (Hnn p Hp).
    rewrite Hr. destruct (touches sel pt p) eqn:Ht; [|done].
    unfold touches in Ht. apply orb_true_iff in Ht as [Ht|Ht].
    + specialize (Hsel sel p Hs Hp Ht). lia.
    + rewrite (coords_unique _ p pt Hco Hp Hpt Ht). lia.
  - by rewrite (updated_coords _ _ _ _ HF).
  - intros ? ? [=].
Qed.

Lemma handle_Budget (s : State) (e : event) : Budget s → Budget (handle s e).
Proof.
  intros HB. destruct e as [i|j|near_test|]; simpl.
  - destruct (board s !! i) as [pt|] eqn:Hi; [|done].
    apply list_elem_of_lookup_2 in Hi.
    unfold handlePointClick.
    destruct (selectedPoint s) as [sel|] eqn:Hsel.
    + destruct (ptr_eq pt sel).
      * destruct HB as [Hnn Hco _]. constructor; simpl; [done|done|].
        intros ? ? [=].
      * destruct (isValidConnection (board s) sel pt) eqn:Hv.
        -- by apply addOrUpdateBridge_Budget.
        -- destruct HB as [Hnn Hco _]. constructor; simpl; [done|done|].
           intros ? ? [=].
    + destruct HB as [Hnn Hco _]. constructor; simpl; [done|done|].
      intros sel p [= <-] Hp Hs.
      by rewrite (coords_unique _ p pt Hco Hp Hi Hs).
  - destruct (bridges s !! j) as [b|] eqn:Hj; [|done].
    pose proof (handleBridgeClick_board b s) as HF.
    destruct HB as [Hnn Hco Hsel].
    assert (selectedPoint (handleBridgeClick b s) = selectedPoint s) as Hsame.
    { unfold handleBridgeClick. rewrite !restoreOne_updatePointConnections.
      destruct (1 <? Bridge.count b);
        by rewrite updatePointConnections_selectedPoint. }
    rewrite Forall_forall in Hnn.
    constructor.
    + apply Forall_forall. intros p' Hp'.
      destruct (Forall2_elem_r _ _ _ _ HF Hp')
        as (p & Hp & _ & _ & _ & _ & _ & Hr & _).
      specialize (Hnn p Hp). rewrite Hr. destruct (touches _ _ p); lia.
    + by rewrite (updated_coords _ _ _ _ HF).
    + intros sel p' Hs Hp' Hsc. rewrite Hsame in Hs.
      destruct (Forall2_elem_r _ _ _ _ HF Hp')
        as (p & Hp & _ & Hx & Hy & _ & _ & Hr & _).
      assert (same_coords p sel = true) as Hsc'.
      { unfold same_coords in *. by rewrite <- Hx, <- Hy. }
      specialize (Hsel sel p Hs Hp Hsc'). rewrite Hr.
      destruct (touches _ _ p); lia.
  - unfold handleMouseMove.
    destruct (isDragging s); [|done].
    destruct (selectedPoint s) as [sel|] eqn:Hsel; [|done].
    destruct (board s) as [|p0 ps] eqn:Hb; [done|].
    destruct (List.find _ (p0 :: ps)) as [nr|] eqn:Hfind; [|done].
    destruct (isValidConnection (p0 :: ps) sel nr) eqn:Hv; [|done].
    apply find_some in Hfind as [Hin _]. apply list_elem_of_In in Hin.
    apply addOrUpdateBridge_Budget; try done; by rewrite Hb.
  - destruct HB as [Hnn Hco _]. constructor; simpl; [done|done|].
    intros ? ? [=].
Qed.

Lemma run_Budget (puzzle : GameBoard) (es : list event) :
  Forall (λ p, 0 <= Point.remainingConnections p) puzzle →
  NoDup (map coords puzzle) →
  Budget (run puzzle es).
Proof.
  intros Hnn Hco. induction es as [|e es IH] using rev_ind.
  - constructor; simpl; [done|done|]. intros ? ? [=].
  - rewrite run_snoc. by apply handle_Budget.
Qed.




(** ** The validator and the two paths together *)

Lemma blocks_sym (a b p : Point.t) :
  Point.x a = Point.x b ∨ Point.y a = Point.y b →
  blocks a b p = blocks b a p.
Proof.
  intros Hal. apply eq_true_iff_eq. rewrite !blocks_true.
  unfold strictly_between. split; intros (H1 & H2 & H3); split_and!; try done; lia.
Qed.

(** X5.  The validator does not depend on the order of the two islands:
    dragging from A to B is legal exactly when dragging from B to A is. *)
Theorem isValidConnection_sym (board : GameBoard) (a b : Point.t) :
  isValidConnection board a b = isValidConnection board b a.
Proof.
  unfold isValidConnection.
  rewrite (Z.eqb_sym (Point.x b)), (Z.eqb_sym (Point.y b)).
  rewrite (orb_comm (Point.remainingConnections b <=? 0)).
  destruct (Z.eqb_spec (Point.x a) (Point.x b)) as [Hx|Hx];
    destruct (Z.eqb_spec (Point.y a) (Point.y b)) as [Hy|Hy]; simpl; try done;
    (destruct (_ || _); [done|]); f_equal;
    induction board as [|p l IH]; simpl; try done;
    rewrite IH; f_equal; apply blocks_sym; auto.
Qed.

Lemma updated_twice_fields (a b : Point.t) (b0 b1 b2 : GameBoard) :
  Forall2 (updated (touches a b) (λ p, Point.remainingConnections p - 1)) b0 b1 →
  Forall2 (updated (touches a b) (λ p, Point.remainingConnections p - -1)) b1 b2 →
  map Point.fields b2 = map Point.fields b0.
Proof.
  intros H01. revert b2.
  induction H01 as [|p0 p1 l0 l1 H1 _ IH]; intros b2 H12.
  - inversion H12; subst. done.
  - inversion H12 as [|? p2 ? l2 H2 H12']; subst.
    simpl. f_equal; [|by eapply IH].
    destruct H1 as (Hv1 & Hx1 & Hy1 & Hh1 & Hw1 & Hr1 & _).
    destruct H2 as (Hv2 & Hx2 & Hy2 & Hh2 & Hw2 & Hr2 & _).
    rewrite (touches_coords a b p0 p1 Hx1 Hy1) in Hr2.
    unfold Point.fields.
    rewrite Hv2, Hv1, Hx2, Hx1, Hy2, Hy1, Hh2, Hh1, Hw2, Hw1.
    rewrite Hr2, Hr1. f_equal.
    destruct (touches a b p0); lia.
Qed.

(** X6.  The reduction path undoes the primary one.  After
    [addOrUpdateBridge] has placed a new bridge between two points that no
    bridge joined, a click on that bridge gives back the bridge set of
    before, and every island has the contents it had (the islands at the
    two places are new objects). *)
Theorem add_then_click_restores (a b : Point.t) (s : State) :
  Forall (λ br, (Bridge.id br < nextId s)%nat) (bridges s) →
  findIndex (joins a b) (bridges s) = None →
  ∃ nb,
    bridges (addOrUpdateBridge a b s) = bridges s ++ [nb]
    ∧ bridges (handleBridgeClick nb (addOrUpdateBridge a b s)) = bridges s
    ∧ map Point.fields (board (handleBridgeClick nb (addOrUpdateBridge a b s)))
      = map Point.fields (board s).
Proof.
  intros Hlt Hfind.
  destruct (addOrUpdateBridge_absent a b s Hfind) as [Hb1 Hu1].
  set (nb := Bridge.mk (nextId s) a b 1 (Point.x a =? Point.x b)) in *.
  exists nb. split; [done|]. split.
  - unfold handleBridgeClick. simpl.
    rewrite restoreOne_updatePointConnections, updatePointConnections_bridges.
    simpl. rewrite Hb1, filter_app, filter_cons_False by (simpl; tauto).
    rewrite filter_nil, app_nil_r.
    apply filter_by_id_none. simpl. intros Hin.
    apply list_elem_of_fmap in Hin as (br & Hid & Hbr).
    rewrite Forall_forall in Hlt. specialize (Hlt br Hbr). lia.
  - pose proof (handleBridgeClick_board nb (addOrUpdateBridge a b s)) as Hu2.
    exact (updated_twice_fields a b _ _ _ Hu1 Hu2).
Qed.

Lemma add_then_click_restores_witness :
  let A := Point.mk 0 2 0 0 0 0 2 in
  let B := Point.mk 1 2 1 0 0 0 2 in
  let s := initState fallbackBoard in
  Forall (λ br, (Bridge.id br < nextId s)%nat) (bridges s)
  ∧ findIndex (joins A B) (bridges s) = None
  ∧ ∃ nb,
      bridges (addOrUpdateBridge A B s) = bridges s ++ [nb]
      ∧ bridges (handleBridgeClick nb (addOrUpdateBridge A B s)) = bridges s
      ∧ map Point.fields (board (handleBridgeClick nb (addOrUpdateBridge A B s)))
        = map Point.fields (board s).
Proof.
  intros A B s.
  assert (Forall (λ br, (Bridge.id br < nextId s)%nat) (bridges s)) as H1
    by constructor.
  assert (findIndex (joins A B) (bridges s) = None) as H2 by reflexivity.
  split; [exact H1|]. split; [exact H2|].
  exact (add_then_click_restores A B s H1 H2).
Defined.

(** X7.  In a game on a non-empty fresh board, the win check answers true
    exactly when the bridges placed give every island its value: the sum of
    the counts of the bridges incident to it. *)
Theorem won_iff_satisfied (puzzle : GameBoard) (es : list event) (isGameWon : bool) :
  fresh puzzle → consistent puzzle → puzzle ≠ [] →
  winEffect (board (run puzzle es)) isGameWon = true
  ↔ Forall (λ p, incidentSum (bridges (run puzzle es)) p = Point.value p)
           (board (run puzzle es)).
Proof.
  intros Hf Hc Hne.
  destruct (run_Inv puzzle es Hf Hc) as [Hl _].
  assert (length (board (run puzzle es)) = length puzzle) as Hlen.
  { by rewrite <- (List.length_map static), run_static, List.length_map. }
  unfold winEffect.
  replace (0 <? length (board (run puzzle es)))%nat with true.
  2:{ symmetry. apply Nat.ltb_lt. rewrite Hlen. destruct puzzle; [done|simpl; lia]. }
  unfold ledger_ok in Hl.
  rewrite forallb_forall, !Forall_forall in *. split.
  - intros H p Hp. specialize (Hl p Hp).
    assert (Point.remainingConnections p = 0); [|lia].
    apply Z.eqb_eq, H. by apply list_elem_of_In.
  - intros H p Hp. apply list_elem_of_In in Hp.
    specialize (Hl p Hp). specialize (H p Hp). apply Z.eqb_eq. lia.
Qed.

Lemma won_iff_satisfied_witness :
  let es := [PointClick 0; PointClick 1; PointClick 0; PointClick 1] in
  fresh fallbackBoard ∧ consistent fallbackBoard ∧ fallbackBoard ≠ []
  ∧ (winEffect (board (run fallbackBoard es)) false = true
     ↔ Forall (λ p, incidentSum (bridges (run fallbackBoard es)) p = Point.value p)
              (board (run fallbackBoard es))).
Proof.
  assert (fresh fallbackBoard) as Hf by (repeat constructor).
  assert (consistent fallbackBoard) as Hc.
  { apply NoDup_refs_consistent. simpl. apply NoDup_ListNoDup.
    repeat constructor; simpl; intuition discriminate. }
  assert (fallbackBoard ≠ []) as Hne by discriminate.
  split; [exact Hf|]. split; [exact Hc|]. split; [exact Hne|].
  exact (won_iff_satisfied fallbackBoard _ false Hf Hc Hne).
Defined.

(** * Further properties of the generator *)

(** ** Shuffling *)

Lemma shuffleFrom_total {A : Type} (i : nat) :
  ∀ (arr : list A) (tape : list nat),
    (i ≤ length tape)%nat →
    ∃ res, shuffleFrom i arr tape = Some (res, drop i tape) ∧ res ≡ₚ arr.
Proof.
  induction i as [|i IH]; intros arr tape Hlen.
  - exists arr. by rewrite drop_0.
  - destruct tape as [|r tape]; [simpl in Hlen; lia|].
    simpl in Hlen.
    destruct (IH (swap arr (S i) (if Nat.eqb (S i + 1) 0 then 0 else r mod (S i + 1))%nat)
                 tape ltac:(lia)) as (res & Hres & Hperm).
    exists res. split.
    + cbn [shuffleFrom]. unfold bind, randomInt. exact Hres.
    + by rewrite Hperm, swap_Permutation.
Qed.

(** X8.  [shuffleArray] permutes.  Given at least [length - 1] draws it
    returns, its result is a permutation of the array, and it has used
    exactly [length - 1] draws. *)
Theorem shuffleArray_permutes {A : Type} (arr : list A) (tape : list nat) :
  (length arr - 1 ≤ length tape)%nat →
  ∃ res,
    shuffleArray arr tape = Some (res, drop (length arr - 1) tape)
    ∧ res ≡ₚ arr.
Proof. intros Hlen. by apply shuffleFrom_total. Qed.

Lemma shuffleArray_permutes_witness :
  (length [10; 20; 30; 40] - 1 ≤ length [7; 1; 0; 5; 6]%nat)%nat
  ∧ ∃ res,
      shuffleArray [10; 20; 30; 40] [7; 1; 0; 5; 6]%nat
      = Some (res, drop (length [10; 20; 30; 40] - 1) [7; 1; 0; 5; 6]%nat)
      ∧ res ≡ₚ [10; 20; 30; 40].
Proof.
  assert (length [10; 20; 30; 40] - 1 ≤ length [7; 1; 0; 5; 6]%nat)%nat as H
    by (simpl; lia).
  split; [exact H|]. exact (shuffleArray_permutes [10; 20; 30; 40] _ H).
Defined.

(** ** Positions *)

Lemma randomInt_lt (n r : nat) (tape tape' : list nat) :
  randomInt n tape = Some (r, tape') → (0 < n)%nat → (r < n)%nat.
Proof.
  unfold randomInt. destruct tape as [|d tape]; [done|].
  intros [= <- _] Hn. destruct (Nat.eqb_spec n 0); [lia|].
  by apply Nat.mod_upper_bound.
Qed.

Lemma sampleLoop_spec (fuel g c : nat) :
  (0 < g)%nat →
  ∀ positions tape res tape',
    (length positions ≤ c)%nat →
    Forall (λ pos : Z * Z, 0 <= pos.1 < Z.of_nat g ∧ 0 <= pos.2 < Z.of_nat g)
           positions →
    sampleLoop fuel g c positions tape = Some (res, tape') →
    length res = c
    ∧ Forall (λ pos : Z * Z, 0 <= pos.1 < Z.of_nat g ∧ 0 <= pos.2 < Z.of_nat g)
             res.
Proof.
  intros Hg.
  induction fuel as [|fuel IH]; intros positions tape res tape' Hlen Hr H;
    rewrite sampleLoop_unfold in H;
    (destruct (Nat.ltb_spec (length positions) c) as [Hlt|Hge];
     [|unfold ret in H; inversion H; subst; split; [lia|done]]).
  { done. }
  apply bind_Some in H as (xr & tape1 & Hx & H).
  apply bind_Some in H as (yr & tape2 & Hy & H).
  simpl in H.
  assert (∀ r t t', randomInt g t = Some (r, t') → (r < g)%nat) as Hrand.
  { intros r t t'. unfold randomInt. destruct t as [|d t]; [done|].
    intros [= <- _]. destruct (Nat.eqb_spec g 0); [lia|].
    by apply Nat.mod_upper_bound. }
  apply Hrand in Hx, Hy.
  destruct (existsb _ positions); simpl in H.
  - by eapply IH.
  - eapply IH; [| |exact H].
    + rewrite length_app. simpl. lia.
    + apply Forall_app. split; [done|].
      constructor; [simpl; lia|constructor].
Qed.

(** X9.  The rejection sampling of the positions, when it returns, has
    chosen exactly [islandCount] positions, no two of them equal, all on
    the grid. *)
Theorem samplePositions_spec (g c : nat) (tape tape' : list nat)
    (positions : list (Z * Z)) :
  (0 < g)%nat →
  samplePositions g c tape = Some (positions, tape') →
  length positions = c
  ∧ NoDup positions
  ∧ Forall (λ pos, 0 <= pos.1 < Z.of_nat g ∧ 0 <= pos.2 < Z.of_nat g) positions.
Proof.
  intros Hg H.
  pose proof (samplePositions_NoDup g c tape tape' positions H) as Hnd.
  unfold samplePositions in H.
  destruct (sampleLoop_spec (length tape) g c Hg [] tape positions tape')
    as [Hl Hr]; [simpl; lia|constructor|done|].
  done.
Qed.

Lemma samplePositions_spec_witness :
  let tape := [0; 0; 5; 5; 6; 2; 0; 0; 3; 4; 9]%nat in
  (0 < 5)%nat
  ∧ ∃ positions tape',
      samplePositions 5 3 tape = Some (positions, tape')
      ∧ length positions = 3%nat
      ∧ NoDup positions
      ∧ Forall (λ pos, 0 <= pos.1 < Z.of_nat 5 ∧ 0 <= pos.2 < Z.of_nat 5) positions.
Proof.
  intros tape.
  assert (0 < 5)%nat as Hg by lia.
  assert (∃ positions tape', samplePositions 5 3 tape = Some (positions, tape'))
    as (positions & tape' & H) by (vm_compute; eauto).
  split; [exact Hg|]. exists positions, tape'. split; [exact H|].
  exact (samplePositions_spec 5 3 tape tape' positions Hg H).
Defined.

(** ** Candidate edges *)

Lemma hasIslandInBetween_unobstructed (islands : list Point.t) (a b : nat)
    (A B : Point.t) :
  islands_ok islands → islands !! a = Some A → islands !! b = Some B →
  hasIslandInBetween A B islands = false
  ↔ (Point.x A = Point.x B ∨ Point.y A = Point.y B)
    ∧ ∀ k P, islands !! k = Some P → k ≠ a → k ≠ b → ¬ strictly_between A B P.
Proof.
  intros [Href _] HA HB. split.
  - intros H. apply hasIslandInBetween_false in H as [Hal Hno].
    split; [done|]. intros k P HP Hka Hkb Hsb.
    apply (Hno P); [by eapply list_elem_of_lookup_2|].
    by rewrite (Href _ _ HP), (Href _ _ HA), (Href _ _ HB).
  - intros [Hal Hno]. unfold hasIslandInBetween.
    replace (negb (Point.x A =? Point.x B) && negb (Point.y A =? Point.y B))
      with false.
    2:{ symmetry. apply andb_false_iff. rewrite !negb_false_iff, !Z.eqb_eq.
        done. }
    apply not_true_is_false. rewrite existsb_exists.
    intros (P & HP & Hb). apply list_elem_of_In, list_elem_of_lookup in HP as [k HP].
    apply blocks_true in Hb as (H1 & H2 & H3).
    rewrite (Href _ _ HP), (Href _ _ HA) in H1.
    rewrite (Href _ _ HP), (Href _ _ HB) in H2.
    by apply (Hno k P).
Qed.

Lemma candidate_potentialEdges (islands : list Point.t) (a b : nat) :
  islands_ok islands → candidate islands a b →
  Edge.mk a b ∈ potentialEdges islands.
Proof.
  intros [Href _] (Hlt & A & B & HA & HB & Hal & Hbt).
  pose proof (lookup_lt_Some _ _ _ HB) as HbK.
  unfold potentialEdges.
  apply list_elem_of_bind. exists a. split; [|apply elem_of_seq; lia].
  apply list_elem_of_bind. exists b. split; [|apply elem_of_seq; lia].
  rewrite HA, HB, Hbt. simpl.
  replace ((Point.x A =? Point.x B) || (Point.y A =? Point.y B)) with true.
  2:{ symmetry. apply orb_true_iff. by rewrite !Z.eqb_eq. }
  rewrite (Href _ _ HA), (Href _ _ HB). apply list_elem_of_here.
Qed.

(** X10.  The candidate edges are exactly the pairs of islands (in order of
    allocation) that lie on one row or column with no other island
    strictly between them, each pair listed once. *)
Theorem potentialEdges_spec (islands : list Point.t) :
  islands_ok islands →
  NoDup (potentialEdges islands)
  ∧ ∀ a b, Edge.mk a b ∈ potentialEdges islands ↔ unobstructed islands a b.
Proof.
  intros Hok. split; [by apply potentialEdges_NoDup|].
  intros a b. split.
  - intros He. apply (elem_of_potentialEdges _ _ Hok) in He. simpl in He.
    destruct He as (Hlt & A & B & HA & HB & Hal & Hbt).
    split; [done|]. exists A, B. split_and!; try done.
    by apply (hasIslandInBetween_unobstructed islands a b A B Hok HA HB).
  - intros (Hlt & A & B & HA & HB & Hal & Hno).
    apply candidate_potentialEdges; [done|].
    split; [done|]. exists A, B. split_and!; try done.
    by apply (hasIslandInBetween_unobstructed islands a b A B Hok HA HB).
Qed.

Lemma potentialEdges_spec_witness :
  let islands := createIslands [(0, 0); (2, 0); (1, 0); (1, 3); (4, 4)] in
  islands_ok islands
  ∧ NoDup (potentialEdges islands)
  ∧ ∀ a b, Edge.mk a b ∈ potentialEdges islands ↔ unobstructed islands a b.
Proof.
  intros islands.
  assert (islands_ok islands) as Hok.
  { apply createIslands_ok. apply NoDup_ListNoDup.
    repeat constructor; simpl; intuition discriminate. }
  split; [exact Hok|]. exact (potentialEdges_spec islands Hok).
Defined.

(** ** The shape of generated boards *)

Lemma createIslands_coords (positions : list (Z * Z)) :
  map coords (createIslands positions) = positions.
Proof.
  apply list_eq. intros i. unfold createIslands.
  rewrite list_lookup_fmap, list_lookup_imap.
  destruct (positions !! i) as [[x y]|]; done.
Qed.

Lemma addValue_coords (i : nat) (c : Z) (islands : list Point.t) :
  map coords (addValue i c islands) = map coords islands.
Proof.
  apply list_eq. intros k. unfold addValue.
  rewrite !list_lookup_fmap, list_lookup_alter.
  case_decide; [subst|done]. by destruct (islands !! k).
Qed.

Lemma sumValues_coords (used : list UsedEdge.t) :
  ∀ islands, map coords (sumValues used islands) = map coords islands.
Proof.
  unfold sumValues. induction used as [|ue used IH]; intros islands; simpl; [done|].
  by rewrite IH, !addValue_coords.
Qed.

Lemma finalize_coords (islands : list Point.t) :
  map coords (finalize islands) = map coords islands.
Proof.
  apply list_eq. intros k. unfold finalize.
  rewrite !list_lookup_fmap, list_lookup_imap.
  by destruct (islands !! k).
Qed.

Lemma attempt_coords (mode : Mode) (tape tape' : list nat) (puzzle : GameBoard) :
  attempt mode tape = Some (Some puzzle, tape') →
  NoDup (map coords puzzle)
  ∧ Forall (λ pos : Z * Z,
              0 <= pos.1 < Z.of_nat (gridSize (MODES_CONFIG mode))
              ∧ 0 <= pos.2 < Z.of_nat (gridSize (MODES_CONFIG mode)))
           (map coords puzzle)
  ∧ (minIslands (MODES_CONFIG mode) ≤ length puzzle
     ≤ maxIslands (MODES_CONFIG mode))%nat.
Proof.
  intros H.
  apply attempt_accepted in H
    as (r & positions & tape1 & tape2 & potential1 & used & islands'
        & Hr & Hpos & Hbuild & _ & ->).
  assert (0 < gridSize (MODES_CONFIG mode))%nat as Hg by (destruct mode; simpl; lia).
  pose proof Hpos as Hpos'.
  apply samplePositions_NoDup in Hpos'.
  destruct (sampleLoop_spec (length tape1) (gridSize (MODES_CONFIG mode))
              (r + minIslands (MODES_CONFIG mode)) Hg [] tape1 positions tape2)
    as [Hlen Hrange]; [simpl; lia|constructor|exact Hpos|].
  pose proof (createIslands_ok positions Hpos') as Hok.
  apply (buildEdges_accepted _ _ _ _ _ _ Hok) in Hbuild as (_ & _ & ->).
  assert (map coords (finalize (sumValues used (createIslands positions)))
          = positions) as Hco.
  { by rewrite finalize_coords, sumValues_coords, createIslands_coords. }
  rewrite Hco. split_and!; [done|done| |].
  - rewrite <- (List.length_map coords), Hco, Hlen. lia.
  - rewrite <- (List.length_map coords), Hco, Hlen.
    apply randomInt_lt in Hr; [|destruct mode; simpl; lia].
    destruct mode; simpl in *; lia.
Qed.

(** X11.  The islands of a generated board have pairwise distinct
    coordinates, all on the grid of the mode and inside the drawing area
    (0 <= x, y <= RENDER_SCALES[mode]); the board has between minIslands
    and maxIslands islands, or two when it is the fallback board. *)
Theorem generated_board_shape (mode : Mode) (tape tape' : list nat)
    (puzzle : GameBoard) :
  generateValidPuzzle mode tape = Some (puzzle, tape') →
  NoDup (map coords puzzle)
  ∧ Forall (λ p, 0 <= Point.x p < Z.of_nat (gridSize (MODES_CONFIG mode))
                 ∧ 0 <= Point.y p < Z.of_nat (gridSize (MODES_CONFIG mode))
                 ∧ Point.x p <= RENDER_SCALES mode
                 ∧ Point.y p <= RENDER_SCALES mode) puzzle
  ∧ (length puzzle = 2%nat
     ∨ (minIslands (MODES_CONFIG mode) ≤ length puzzle
        ≤ maxIslands (MODES_CONFIG mode))%nat).
Proof.
  apply (generateLoop_ind
           (λ b, NoDup (map coords b)
                 ∧ Forall (λ p, 0 <= Point.x p < Z.of_nat (gridSize (MODES_CONFIG mode))
                                ∧ 0 <= Point.y p < Z.of_nat (gridSize (MODES_CONFIG mode))
                                ∧ Point.x p <= RENDER_SCALES mode
                                ∧ Point.y p <= RENDER_SCALES mode) b
                 ∧ (length b = 2%nat
                    ∨ (minIslands (MODES_CONFIG mode) ≤ length b
                       ≤ maxIslands (MODES_CONFIG mode))%nat)) mode).
  - split_and!.
    + simpl. apply NoDup_ListNoDup.
      repeat constructor; simpl; intuition discriminate.
    + destruct mode; repeat constructor; simpl; lia.
    + by left.
  - intros t t' q Ha. apply attempt_coords in Ha as (Hnd & Hr & Hlen).
    split_and!; [done| |by right].
    apply Forall_fmap in Hr. eapply Forall_impl; [exact Hr|].
    intros p. unfold coords. simpl. destruct mode; simpl; lia.
Qed.

Lemma generated_board_shape_witness :
  let tape := [3; 0; 0; 4; 0; 2; 0; 0; 2; 4; 2; 2; 4; 0; 4; 4; 4; 2; 3;
               1; 0; 2; 5; 3; 1; 0; 4; 1; 7; 3; 2; 6; 1; 0; 2; 2; 1;
               0; 1; 2; 3; 4; 5; 6; 7; 8; 9; 10; 11; 12]%nat in
  ∃ puzzle tape',
    generateValidPuzzle easy tape = Some (puzzle, tape')
    ∧ NoDup (map coords puzzle)
    ∧ Forall (λ p, 0 <= Point.x p < Z.of_nat (gridSize (MODES_CONFIG easy))
                   ∧ 0 <= Point.y p < Z.of_nat (gridSize (MODES_CONFIG easy))
                   ∧ Point.x p <= RENDER_SCALES easy
                   ∧ Point.y p <= RENDER_SCALES easy) puzzle
    ∧ (length puzzle = 2%nat
       ∨ (minIslands (MODES_CONFIG easy) ≤ length puzzle
          ≤ maxIslands (MODES_CONFIG easy))%nat).
Proof.
  intros tape.
  assert (∃ puzzle tape', generateValidPuzzle easy tape = Some (puzzle, tape'))
    as (puzzle & tape' & H) by (vm_compute; eauto).
  exists puzzle, tape'. split; [exact H|].
  exact (generated_board_shape easy tape tape' puzzle H).
Defined.

(** ** The total of the values *)

Lemma totalValue_map (l : list Point.t) :
  totalValue l = foldr Z.add 0 (map Point.value l).
Proof. unfold totalValue. induction l as [|p l IH]; simpl; [done|]. by rewrite IH. Qed.

Lemma totalValue_zero (l : list Point.t) :
  Forall (λ p, Point.value p = 0) l → totalValue l = 0.
Proof.
  unfold totalValue. induction 1 as [|p l Hp _ IH]; simpl; [done|].
  by rewrite Hp, IH.
Qed.

Lemma addValue_total (c : Z) (islands : list Point.t) :
  ∀ i, (i < length islands)%nat →
       totalValue (addValue i c islands) = totalValue islands + c.
Proof.
  unfold addValue, totalValue.
  set (f := λ p : Point.t, Point.mk _ _ _ _ _ _ _).
  induction islands as [|p l IH]; intros [|i] Hi; simpl in Hi; try lia.
  - change (alter f 0%nat (p :: l)) with (f p :: l). simpl. lia.
  - change (alter f (S i) (p :: l)) with (p :: alter f i l). simpl.
    rewrite IH by lia. lia.
Qed.

Lemma addValue_length (i : nat) (c : Z) (islands : list Point.t) :
  length (addValue i c islands) = length islands.
Proof. unfold addValue. apply length_alter. Qed.

Lemma sumValues_total (used : list UsedEdge.t) :
  ∀ islands : list Point.t,
    Forall (λ ue, (UsedEdge.start ue < length islands)%nat
                  ∧ (UsedEdge.end_ ue < length islands)%nat) used →
    totalValue (sumValues used islands)
    = totalValue islands + 2 * totalCount used.
Proof.
  unfold sumValues.
  induction used as [|ue used IH]; intros islands HF; simpl; [lia|].
  apply Forall_cons in HF as [[Hs He] HF].
  rewrite IH.
  - rewrite !addValue_total by (rewrite ?addValue_length; lia). lia.
  - eapply Forall_impl; [exact HF|]. simpl. intros u.
    by rewrite !addValue_length.
Qed.

Lemma finalize_value (islands : list Point.t) :
  map Point.value (finalize islands) = map Point.value islands.
Proof.
  apply list_eq. intros k. unfold finalize.
  rewrite !list_lookup_fmap, list_lookup_imap.
  by destruct (islands !! k).
Qed.

Lemma totalCount_app (used : list UsedEdge.t) (ue : UsedEdge.t) :
  totalCount (used ++ [ue]) = totalCount used + UsedEdge.count ue.
Proof.
  unfold totalCount. induction used as [|u used IH]; simpl; [lia|].
  rewrite IH. lia.
Qed.

Lemma totalCount_insert (used : list UsedEdge.t) :
  ∀ k ex ue, used !! k = Some ex →
             totalCount (<[k := ue]> used)
             = totalCount used - UsedEdge.count ex + UsedEdge.count ue.
Proof.
  unfold totalCount.
  induction used as [|u used IH]; intros [|k] ex ue Hk; simpl in *; try done.
  - inversion Hk; subst. lia.
  - rewrite (IH k ex ue Hk). lia.
Qed.

(** Step 4 adds at most [extrasToAdd] to the sum of the counts. *)
Lemma augment_total (es : list Edge.t) :
  ∀ extras used,
    Forall (λ ue, 1 <= UsedEdge.count ue) used →
    totalCount (augment extras used es) <= totalCount used + Z.max extras 0.
Proof.
  induction es as [|e es IH]; intros extras used Hpos; simpl; [lia|].
  destruct (Z.leb_spec extras 0) as [Hle|Hgt]; [lia|].
  destruct (findIndex (sameEdge e) used) as [k|].
  - destruct (used !! k) as [ex|] eqn:Hex; [|lia].
    assert (1 <= UsedEdge.count ex) as Hex1.
    { rewrite Forall_forall in Hpos. apply Hpos.
      by eapply list_elem_of_lookup_2. }
    destruct (Z.ltb_spec (UsedEdge.count ex) 2) as [Hlt|Hge].
    + specialize (IH (extras - 1)
                     (<[k := UsedEdge.mk (UsedEdge.start ex) (UsedEdge.end_ ex) 2]> used)).
      rewrite (totalCount_insert used k ex _ Hex) in IH. simpl in IH.
      assert (Forall (λ ue, 1 <= UsedEdge.count ue)
                (<[k := UsedEdge.mk (UsedEdge.start ex) (UsedEdge.end_ ex) 2]> used))
        as Hpos' by (apply Forall_insert; [done|simpl; lia]).
      specialize (IH Hpos'). lia.
    + specialize (IH extras used Hpos). lia.
  - specialize (IH (extras - 1)
                   (used ++ [UsedEdge.mk (Edge.start e) (Edge.end_ e) 1])).
    rewrite totalCount_app in IH. simpl in IH.
    assert (Forall (λ ue, 1 <= UsedEdge.count ue)
              (used ++ [UsedEdge.mk (Edge.start e) (Edge.end_ e) 1])) as Hpos'.
    { apply Forall_app. split; [done|]. constructor; [simpl; lia|constructor]. }
    specialize (IH Hpos'). lia.
Qed.

(** The spanning-tree loop of an attempt pushes at most K-1 edges. *)
Lemma mstLoop_tree_size (islands : list Point.t) (potential1 : list Edge.t)
    (parent : gmap nat nat) (tree : list UsedEdge.t) :
  islands_ok islands → (0 < length islands)%nat →
  potential1 ≡ₚ potentialEdges islands →
  mstLoop (unionFindInit islands, []) potential1 = Some (parent, tree) →
  (length tree ≤ length islands - 1)%nat
  ∧ totalCount tree = Z.of_nat (length tree)
  ∧ Forall (λ ue, 1 <= UsedEdge.count ue) tree.
Proof.
  intros Hok HK Hperm Hmst.
  destruct (mstLoop_potential_total islands potential1 Hok Hperm) as [Hrange _].
  destruct (mstLoop_inv (length islands) potential1 [] _
              (unionFindInit_inv islands (proj1 Hok)) Hrange)
    as (st & Hst & [h Hinv] & Hcount & _).
  rewrite Hmst in Hst. inversion Hst; subst st. simpl in *.
  pose proof (roots_nonempty _ h parent Hinv HK).
  split; [lia|]. clear Hst Hcount.
  apply mstLoop_used in Hmst as (acc & _ & ->). simpl.
  split.
  - unfold totalCount. induction acc as [|e acc IH]; simpl; [done|].
    rewrite IH. simpl length. lia.
  - apply Forall_fmap, Forall_forall. intros e _. simpl. lia.
Qed.

Lemma attempt_total (mode : Mode) (tape tape' : list nat) (puzzle : GameBoard) :
  attempt mode tape = Some (Some puzzle, tape') →
  ∃ n, totalValue puzzle = 2 * n
       ∧ n <= Z.of_nat (length puzzle) - 1 + Z.of_nat (length puzzle / 2).
Proof.
  intros H. unfold attempt in H.
  apply bind_Some in H as (r & tape1 & Hr & H).
  apply bind_Some in H as (positions & tape2 & Hpos & H).
  apply bind_Some in H as (built & tape3 & Hb & H).
  destruct built as [[[potential1 used] islands']|]; [|done].
  destruct (existsb _ islands'); [done|].
  unfold ret in H. inversion H; subst. clear H.
  set (cfg := MODES_CONFIG mode) in *.
  assert (0 < gridSize cfg)%nat as Hg by (destruct mode; simpl; lia).
  pose proof (samplePositions_NoDup _ _ _ _ _ Hpos) as Hnd.
  destruct (sampleLoop_spec (length tape1) (gridSize cfg) (r + minIslands cfg)
              Hg [] tape1 positions tape2) as [Hlen _];
    [simpl; lia|constructor|exact Hpos|].
  pose proof (createIslands_ok positions Hnd) as Hok.
  set (islands := createIslands positions) in *.
  assert (length islands = length positions) as HK.
  { unfold islands, createIslands. apply length_imap. }
  assert (0 < length islands)%nat as HK0.
  { rewrite HK, Hlen. destruct mode; simpl; lia. }
  pose proof Hb as Hb'.
  apply (buildEdges_accepted _ _ _ _ _ _ Hok) in Hb' as (Hp1 & Hused & ->).
  unfold buildEdges in Hb.
  apply bind_Some in Hb as (p1 & t1 & Hsh1 & Hb).
  apply shuffleArray_Permutation in Hsh1.
  destruct (mstLoop (unionFindInit islands, []) p1) as [[parent tree]|] eqn:Hmst.
  2:{ unfold ret in Hb. inversion Hb. }
  apply bind_Some in Hb as (p2 & t2 & _ & Hb).
  unfold ret in Hb. inversion Hb; subst. clear Hb.
  destruct (mstLoop_tree_size islands potential1 parent tree Hok HK0 Hsh1 Hmst)
    as (Htree & Htc & Hpos1).
  pose proof (augment_total p2 (Z.of_nat (length islands / 2)) tree Hpos1) as Haug.
  change (Nat.divmod (length islands) 1 0 1).1 with (length islands / 2)%nat in *.
  set (used := augment (Z.of_nat (length islands / 2)) tree p2) in *.
  exists (totalCount used). split.
  - rewrite totalValue_map, finalize_value, <- totalValue_map.
    rewrite sumValues_total.
    + rewrite (totalValue_zero islands (createIslands_value positions)). lia.
    + destruct Hused as [HF _]. eapply Forall_impl; [exact HF|]. simpl.
      intros ue [Hc _]. by apply candidate_lt in Hc.
  - assert (length (finalize (sumValues used islands)) = length islands) as ->.
    { unfold finalize. by rewrite length_imap, sumValues_length. }
    lia.
Qed.

(** X12.  The values of a generated board add up to an even number (every
    bridge of the solution counts at both its ends), and to no more than
    2 * (K - 1 + floor(K / 2)) for K islands: the spanning tree has at most
    K - 1 single edges and step 4 adds at most floor(K / 2) to the
    counts. *)
Theorem generated_total_value (mode : Mode) (tape tape' : list nat)
    (puzzle : GameBoard) :
  generateValidPuzzle mode tape = Some (puzzle, tape') →
  Z.even (totalValue puzzle) = true
  ∧ totalValue puzzle
    <= 2 * (Z.of_nat (length puzzle) - 1 + Z.of_nat (length puzzle / 2)).
Proof.
  apply (generateLoop_ind
           (λ b, Z.even (totalValue b) = true
                 ∧ totalValue b
                   <= 2 * (Z.of_nat (length b) - 1 + Z.of_nat (length b / 2)))
           mode).
  - split; [done|]. simpl. lia.
  - intros t t' q Ha. apply attempt_total in Ha as (n & -> & Hn).
    split; [|lia]. by rewrite Z.even_mul.
Qed.

Lemma generated_total_value_witness :
  let tape := [3; 0; 0; 4; 0; 2; 0; 0; 2; 4; 2; 2; 4; 0; 4; 4; 4; 2; 3;
               1; 0; 2; 5; 3; 1; 0; 4; 1; 7; 3; 2; 6; 1; 0; 2; 2; 1;
               0; 1; 2; 3; 4; 5; 6; 7; 8; 9; 10; 11; 12]%nat in
  ∃ puzzle tape',
    generateValidPuzzle easy tape = Some (puzzle, tape')
    ∧ Z.even (totalValue puzzle) = true
    ∧ totalValue puzzle
      <= 2 * (Z.of_nat (length puzzle) - 1 + Z.of_nat (length puzzle / 2)).
Proof.
  intros tape.
  assert (∃ puzzle tape', generateValidPuzzle easy tape = Some (puzzle, tape'))
    as (puzzle & tape' & H) by (vm_compute; eauto).
  exists puzzle, tape'. split; [exact H|].
  exact (generated_total_value easy tape tape' puzzle H).
Defined.

(** * Further properties of the union-find structure *)

Lemma find_fuel_lookup (fuel : nat) (parent parent' : gmap nat nat) (a r : nat) :
  find_fuel fuel parent a = Some (parent', r) → parent' !! a = Some r.
Proof.
  destruct fuel as [|fuel]; [done|]. simpl.
  destruct (parent !! a) as [pa|] eqn:Hpa; [|done].
  destruct (Nat.eqb_spec pa a) as [->|Hne]; simpl.
  - by intros [= <- <-].
  - destruct (find_fuel fuel parent pa) as [[parent1 r1]|]; [|done].
    rewrite lookup_insert_eq. intros [= <- <-]. by rewrite lookup_insert_eq.
Qed.

(** X13.  [find(a)] always returns on an island of the structure: it gives
    the representative of [a], leaves [a] pointing directly at it, and
    changes the representative of no island. *)
Theorem find_returns_root (K : nat) (parent : gmap nat nat) (a : nat) :
  uf_inv K parent → (a < K)%nat →
  ∃ parent' r,
    find parent a = Some (parent', r)
    ∧ uf_root parent a r
    ∧ parent' !! a = Some r
    ∧ uf_inv K parent'
    ∧ ∀ b rb, uf_root parent b rb ↔ uf_root parent' b rb.
Proof.
  intros [h Hinv] Ha.
  destruct (find_spec K h parent a Hinv Ha)
    as (parent' & r & Hf & Hr & Hinv' & Heq & _).
  exists parent', r. split_and!; try done.
  - unfold find in Hf. by eapply find_fuel_lookup.
  - by exists h.
Qed.

Lemma find_returns_root_witness :
  let parent := unionFindInit (createIslands [(0, 0); (1, 0); (2, 0)]) in
  uf_inv 3 parent ∧ (2 < 3)%nat
  ∧ ∃ parent' r,
      find parent 2%nat = Some (parent', r)
      ∧ uf_root parent 2%nat r
      ∧ parent' !! 2%nat = Some r
      ∧ uf_inv 3 parent'
      ∧ ∀ b rb, uf_root parent b rb ↔ uf_root parent' b rb.
Proof.
  intros parent.
  assert (uf_inv 3 parent) as Hinv.
  { refine (proj1 (unionFindInit_inv (createIslands [(0, 0); (1, 0); (2, 0)]) _)).
    intros i p Hp. apply createIslands_lookup in Hp as (pos & _ & ->). done. }
  assert (2 < 3)%nat as Hlt by lia.
  split; [exact Hinv|]. split; [exact Hlt|].
  exact (find_returns_root 3 parent 2%nat Hinv Hlt).
Defined.

Lemma union_spec_any (K : nat) (h : nat → nat) (parent : gmap nat nat) (a b : nat) :
  uf_inv_h K h parent → (a < K)%nat → (b < K)%nat →
  ∃ parent' ra rb,
    union parent a b = Some parent'
    ∧ uf_inv K parent'
    ∧ uf_root parent a ra ∧ uf_root parent b rb
    ∧ ∀ c r, uf_root parent c r →
             uf_root parent' c (if decide (r = rb) then ra else r).
Proof.
  intros Hinv Ha Hb.
  destruct (uf_root_exists K h parent a Hinv Ha) as [ra Hra].
  destruct (uf_root_exists K h parent b Hinv Hb) as [rb Hrb].
  destruct (decide (ra = rb)) as [->|Hne].
  - unfold union.
    destruct (find_spec K h parent b Hinv Hb)
      as (parent1 & rb' & -> & Hrb' & Hinv1 & Heq1 & _).
    assert (rb' = rb) as -> by (by eapply uf_root_unique).
    destruct (find_spec K h parent1 a Hinv1 Ha)
      as (parent2 & ra' & -> & Hra' & Hinv2 & Heq2 & _).
    assert (ra' = rb) as ->.
    { eapply uf_root_unique; [|exact Hra]. by apply Heq1. }
    assert (parent2 !! rb = Some rb) as Hroot.
    { eapply uf_root_is_root. apply Heq2. exact Hra'. }
    rewrite (insert_id parent2 rb rb Hroot).
    exists parent2, rb, rb. split_and!; try done; [by exists h|].
    intros c r Hc. case_decide; subst; by apply Heq2, Heq1.
  - destruct (union_spec K h parent a b ra rb Hinv Ha Hb Hra Hrb Hne)
      as (parent' & Hu & Hinv' & _ & Hmap).
    exists parent', ra, rb. done.
Qed.

(** X14.  [union(a, b)] always returns on two islands of the structure;
    afterwards [sameSet(a, b)] answers true, and two islands that were in
    one component still are. *)
Theorem union_then_sameSet (K : nat) (parent : gmap nat nat) (a b : nat) :
  uf_inv K parent → (a < K)%nat → (b < K)%nat →
  ∃ parent1 parent2,
    union parent a b = Some parent1
    ∧ uf_inv K parent1
    ∧ sameSet parent1 a b = Some (parent2, true)
    ∧ ∀ c d, same_component parent c d → same_component parent1 c d.
Proof.
  intros [h Hinv] Ha Hb.
  destruct (union_spec_any K h parent a b Hinv Ha Hb)
    as (parent1 & ra & rb & Hu & [h1 Hinv1] & Hra & Hrb & Hmap).
  destruct (sameSet_spec K h1 parent1 a b Hinv1 Ha Hb)
    as (parent2 & ra1 & rb1 & Hs & Hra1 & Hrb1 & _).
  pose proof (Hmap a ra Hra) as Ha'. pose proof (Hmap b rb Hrb) as Hb'.
  rewrite decide_True in Hb' by done.
  assert (ra1 = ra) as ->.
  { eapply uf_root_unique; [exact Hra1|]. by case_decide; subst. }
  assert (rb1 = ra) as -> by (by eapply uf_root_unique).
  rewrite Nat.eqb_refl in Hs.
  exists parent1, parent2. split_and!; try done; [by exists h1|].
  intros c d (r & Hc & Hd). eexists. split; by apply Hmap.
Qed.

Lemma union_then_sameSet_witness :
  let parent := unionFindInit (createIslands [(0, 0); (1, 0); (2, 0)]) in
  uf_inv 3 parent ∧ (0 < 3)%nat ∧ (2 < 3)%nat
  ∧ ∃ parent1 parent2,
      union parent 0%nat 2%nat = Some parent1
      ∧ uf_inv 3 parent1
      ∧ sameSet parent1 0%nat 2%nat = Some (parent2, true)
      ∧ ∀ c d, same_component parent c d → same_component parent1 c d.
Proof.
  intros parent.
  assert (uf_inv 3 parent) as Hinv.
  { refine (proj1 (unionFindInit_inv (createIslands [(0, 0); (1, 0); (2, 0)]) _)).
    intros i p Hp. apply createIslands_lookup in Hp as (pos & _ & ->). done. }
  assert (0 < 3)%nat as H0 by lia. assert (2 < 3)%nat as H2 by lia.
  split; [exact Hinv|]. split; [exact H0|]. split; [exact H2|].
  exact (union_then_sameSet 3 parent 0%nat 2%nat Hinv H0 H2).
Defined.

(** * Every generated puzzle can be won *)

Lemma need_nonneg (us : list (nat * nat)) (i : nat) : 0 <= need us i.
Proof.
  induction us as [|u us IH]; simpl; [lia|].
  fold (need us i). repeat case_match; lia.
Qed.

Lemma need_app (us vs : list (nat * nat)) (i : nat) :
  need (us ++ vs) i = need us i + need vs i.
Proof.
  induction us as [|u us IH]; simpl; [done|].
  fold (need (us ++ vs) i) (need us i). rewrite IH. lia.
Qed.

Lemma need_units (used : list UsedEdge.t) (i : nat) :
  Forall (λ ue, UsedEdge.count ue = 1 ∨ UsedEdge.count ue = 2) used →
  need (units used) i = degree used i.
Proof.
  induction 1 as [|ue used Hc _ IH]; [done|].
  change (units (ue :: used))
    with (replicate (Z.to_nat (UsedEdge.count ue))
                    (UsedEdge.start ue, UsedEdge.end_ ue) ++ units used).
  rewrite need_app, IH. cbn [degree foldr]. fold (degree used i).
  destruct Hc as [-> | ->];
    [change (Z.to_nat 1) with 1%nat | change (Z.to_nat 2) with 2%nat];
    cbn [replicate need foldr fst snd];
    destruct (UsedEdge.start ue =? i)%nat, (UsedEdge.end_ ue =? i)%nat; lia.
Qed.

Lemma unobstructed_coords (l l' : list Point.t) (a b : nat) :
  map coords l' = map coords l → unobstructed l a b → unobstructed l' a b.
Proof.
  intros Hmap (Hlt & A & B & HA & HB & Hal & Hfree).
  assert (∀ k P, l !! k = Some P →
                 ∃ P', l' !! k = Some P' ∧ Point.x P' = Point.x P
                       ∧ Point.y P' = Point.y P) as Hto.
  { intros k P HP.
    assert (map coords l' !! k = Some (coords P)) as Hk.
    { rewrite Hmap. change (map coords l) with (coords <$> l).
      by rewrite list_lookup_fmap, HP. }
    change (map coords l') with (coords <$> l') in Hk.
    rewrite list_lookup_fmap in Hk.
    destruct (l' !! k) as [P'|]; [|done].
    injection Hk as Hx Hy. eauto. }
  assert (∀ k P', l' !! k = Some P' →
                  ∃ P, l !! k = Some P ∧ Point.x P' = Point.x P
                       ∧ Point.y P' = Point.y P) as Hfrom.
  { intros k P' HP'.
    assert (map coords l !! k = Some (coords P')) as Hk.
    { rewrite <- Hmap. change (map coords l') with (coords <$> l').
      by rewrite list_lookup_fmap, HP'. }
    change (map coords l) with (coords <$> l) in Hk.
    rewrite list_lookup_fmap in Hk.
    destruct (l !! k) as [P|]; [|done].
    injection Hk as Hx Hy. eauto. }
  destruct (Hto a A HA) as (A' & HA' & HAx & HAy).
  destruct (Hto b B HB) as (B' & HB' & HBx & HBy).
  split; [done|]. exists A', B'. split_and!; try done.
  - rewrite HAx, HAy, HBx, HBy. done.
  - intros k P' HP' Hka Hkb Hbetween.
    destruct (Hfrom k P' HP') as (P & HP & HPx & HPy).
    apply (Hfree k P HP Hka Hkb).
    unfold strictly_between in *.
    rewrite HAx, HAy, HBx, HBy, HPx, HPy in Hbetween. exact Hbetween.
Qed.

Lemma board_index_unique (s : State) (i j : nat) (p q : Point.t) :
  NoDup (map coords (board s)) →
  board s !! i = Some p → board s !! j = Some q →
  same_coords p q = true → i = j.
Proof.
  intros Hnd Hp Hq Hsame. apply same_coords_true in Hsame as [Hx Hy].
  apply (NoDup_lookup (coords <$> board s) i j (coords p) Hnd).
  - rewrite list_lookup_fmap. apply fmap_Some. eauto.
  - rewrite list_lookup_fmap. apply fmap_Some. exists q. split; [done|].
    unfold coords. by rewrite Hx, Hy.
Qed.

Lemma connect_valid (s : State) (a b : nat) (A B : Point.t) :
  Wf s → NoDup (map coords (board s)) →
  board s !! a = Some A → board s !! b = Some B →
  unobstructed (board s) a b →
  0 < Point.remainingConnections A → 0 < Point.remainingConnections B →
  ptr_eq B A = false ∧ isValidConnection (board s) A B = true.
Proof.
  intros Hwf Hnd HA HB (Hlt & A0 & B0 & HA0 & HB0 & Hal & Hfree) HrA HrB.
  pose proof (eq_trans (eq_sym HA) HA0) as [= <-].
  pose proof (eq_trans (eq_sym HB) HB0) as [= <-].
  assert (∀ k P, board s !! k = Some P → P ∈ live s) as Hlive.
  { intros k P HP. unfold live. apply elem_of_app. left.
    by eapply list_elem_of_lookup_2. }
  assert (∀ i j P Q, board s !! i = Some P → board s !! j = Some Q →
                     Point.ref P = Point.ref Q → i = j) as Hrefs.
  { intros i j P Q HP HQ Href.
    assert (P = Q) as -> by (eapply (wf_consistent s Hwf); eauto).
    eapply board_index_unique; eauto using same_coords_refl. }
  split.
  - unfold ptr_eq. apply Nat.eqb_neq. intros Href.
    specialize (Hrefs b a B A HB HA Href). lia.
  - unfold isValidConnection.
    replace (negb (Point.x A =? Point.x B) && negb (Point.y A =? Point.y B))
      with false.
    2:{ symmetry. apply andb_false_iff.
        destruct Hal as [Hx | Hy]; [left | right];
          apply negb_false_iff, Z.eqb_eq; done. }
    replace ((Point.remainingConnections A <=? 0)
             || (Point.remainingConnections B <=? 0)) with false.
    2:{ symmetry. apply orb_false_iff. split; apply Z.leb_gt; done. }
    cbn zeta. apply negb_true_iff, not_true_is_false. intros Hblocked.
    apply existsb_blocks in Hblocked as (p & Hp & HpA & HpB & Hbetween).
    apply list_elem_of_lookup in Hp as [k Hk].
    apply (Hfree k p Hk); [| |done].
    + intros ->. by pose proof (eq_trans (eq_sym HA) Hk) as [= <-].
    + intros ->. by pose proof (eq_trans (eq_sym HB) Hk) as [= <-].
Qed.

Lemma connect_step (s : State) (a b : nat) (A B : Point.t) :
  Wf s → Play s → NoDup (map coords (board s)) →
  selectedPoint s = None →
  board s !! a = Some A → board s !! b = Some B →
  unobstructed (board s) a b →
  0 < Point.remainingConnections A → 0 < Point.remainingConnections B →
  selectedPoint (foldl handle s (connect (a, b))) = None
  ∧ Forall2 (updated (touches A B) (λ p, Point.remainingConnections p - 1))
            (board s) (board (foldl handle s (connect (a, b)))).
Proof.
  intros Hwf Hplay Hnd Hsel HA HB Hfree HrA HrB.
  destruct (connect_valid s a b A B Hwf Hnd HA HB Hfree HrA HrB) as [Hne Hvalid].
  unfold connect. cbn [foldl fst snd handle]. rewrite HA.
  set (s1 := mkState (board s) (bridges s) (Some A) true (nextRef s) (nextId s)).
  assert (handlePointClick A s = s1) as ->.
  { unfold handlePointClick. by rewrite Hsel. }
  change (board s1) with (board s). rewrite HB.
  unfold handlePointClick. change (selectedPoint s1) with (Some A).
  cbv iota beta.
  change (isValidConnection (board s1) A B)
    with (isValidConnection (board s) A B).
  rewrite Hne, Hvalid.
  assert (findIndex (joins A B) (bridges s1) = None) as Hnone.
  { apply detached_findIndex.
    - exact (play_detached s Hplay).
    - by eapply list_elem_of_lookup_2. }
  destruct (addOrUpdateBridge_absent A B s1 Hnone) as [_ HF].
  split; [done|]. exact HF.
Qed.

Lemma solve_units (us : list (nat * nat)) :
  ∀ s, Inv s → Play s → Budget s → selectedPoint s = None →
       Forall (λ u, unobstructed (board s) u.1 u.2) us →
       (∀ i p, board s !! i = Some p →
               Point.remainingConnections p = need us i) →
       Forall (λ p, Point.remainingConnections p = 0)
              (board (foldl handle s (us ≫= connect))).
Proof.
  induction us as [|[a b] us IH]; intros s Hinv Hplay Hbudget Hsel Hfree Hneed.
  - simpl. apply Forall_lookup. intros i p Hp. by apply Hneed in Hp.
  - change (((a, b) :: us) ≫= connect) with (connect (a, b) ++ (us ≫= connect)).
    rewrite foldl_app.
    apply Forall_cons in Hfree as [Hab Hfree]. cbn [fst snd] in Hab.
    pose proof Hab as (Hlt & A & B & HA & HB & _).
    pose proof (budget_coords s Hbudget) as Hnd.
    assert (0 < Point.remainingConnections A) as HrA.
    { rewrite (Hneed a A HA). cbn [need foldr fst snd]. fold (need us a).
      rewrite Nat.eqb_refl. pose proof (need_nonneg us a).
      destruct (Nat.eqb b a); lia. }
    assert (0 < Point.remainingConnections B) as HrB.
    { rewrite (Hneed b B HB). cbn [need foldr fst snd]. fold (need us b).
      rewrite Nat.eqb_refl. pose proof (need_nonneg us b).
      destruct (Nat.eqb a b); lia. }
    destruct (connect_step s a b A B (proj2 Hinv) Hplay Hnd Hsel HA HB Hab HrA HrB)
      as [Hsel1 HF].
    set (s1 := foldl handle s (connect (a, b))) in *.
    assert (Inv s1 ∧ Play s1 ∧ Budget s1) as (Hinv1 & Hplay1 & Hbudget1).
    { unfold s1, connect. cbn [foldl fst snd].
      pose proof (handle_Inv s (PointClick a) Hinv) as Hi.
      split_and!.
      - by apply handle_Inv.
      - apply handle_Play; [exact (proj2 Hi)|].
        apply handle_Play; [exact (proj2 Hinv)|done].
      - by do 2 apply handle_Budget. }
    apply IH; try done.
    + eapply Forall_impl; [exact Hfree|]. intros [c d] Hcd.
      eapply unobstructed_coords; [|exact Hcd].
      by eapply updated_coords.
    + intros i p' Hp'.
      destruct (Forall2_lookup_r _ _ _ _ _ HF Hp') as (p & Hp & Hupd).
      destruct Hupd as (_ & _ & _ & _ & _ & Hrem & _).
      rewrite Hrem, (Hneed i p Hp). cbn [need foldr fst snd]. fold (need us i).
      unfold touches.
      destruct (Nat.eqb_spec a i) as [<-|Hai].
      * pose proof (eq_trans (eq_sym HA) Hp) as [= <-].
        rewrite same_coords_refl.
        cbn [orb]. destruct (Nat.eqb_spec b a); lia.
      * destruct (Nat.eqb_spec b i) as [<-|Hbi].
        -- pose proof (eq_trans (eq_sym HB) Hp) as [= <-].
           rewrite same_coords_refl.
           rewrite orb_true_r. lia.
        -- destruct (same_coords p A) eqn:HpA.
           { exfalso. apply Hai. symmetry.
             by eapply (board_index_unique s i a p A). }
           destruct (same_coords p B) eqn:HpB.
           { exfalso. apply Hbi. symmetry.
             by eapply (board_index_unique s i b p B). }
           cbn [orb]. lia.
Qed.

Lemma solve_board (puzzle : GameBoard) (us : list (nat * nat)) :
  fresh puzzle → consistent puzzle → NoDup (map coords puzzle) →
  Forall (λ u, unobstructed puzzle u.1 u.2) us →
  (∀ i p, puzzle !! i = Some p → Point.value p = need us i) →
  Forall (λ p, Point.remainingConnections p = 0)
         (board (run puzzle (us ≫= connect))).
Proof.
  intros Hfresh Hcons Hnd Hfree Hneed. unfold run.
  assert (∀ i p, puzzle !! i = Some p →
                 Point.remainingConnections p = need us i) as Hrem.
  { intros i p Hp. rewrite <- (Hneed i p Hp).
    eapply (proj1 (Forall_lookup _ _) Hfresh); eauto. }
  apply solve_units; try done.
  - by apply initState_Inv.
  - exact (run_Play puzzle [] Hfresh Hcons).
  - apply (run_Budget puzzle []); [|done].
    apply Forall_lookup. intros i p Hp. rewrite (Hrem i p Hp).
    apply need_nonneg.
Qed.

Lemma finalize_lookup (islands : list Point.t) (i : nat) (p : Point.t) :
  finalize islands !! i = Some p →
  ∃ p0, islands !! i = Some p0 ∧ Point.value p = Point.value p0.
Proof.
  intros Hp.
  pose proof (Hp : @lookup nat Point.t (list Point.t) _ i (finalize islands)
                   = Some p) as Hq.
  unfold finalize in Hq. rewrite list_lookup_imap in Hq.
  apply fmap_Some in Hq as (p0 & Hp0 & ->). eauto.
Qed.

Lemma attempt_solvable (mode : Mode) (tape tape' : list nat) (puzzle : GameBoard) :
  attempt mode tape = Some (Some puzzle, tape') →
  ∃ us, Forall (λ p, Point.remainingConnections p = 0)
               (board (run puzzle (us ≫= connect))).
Proof.
  intros Hatt.
  pose proof (attempt_coords mode tape tape' puzzle Hatt) as [Hnd _].
  destruct (attempt_accepted mode tape tape' puzzle Hatt)
    as (r & positions & tape1 & tape2 & potential1 & used & islands'
        & _ & Hpos & Hbuild & _ & ->).
  pose proof (createIslands_ok positions
                (samplePositions_NoDup _ _ _ _ _ Hpos)) as Hok.
  destruct (buildEdges_accepted _ _ _ _ _ _ Hok Hbuild) as (_ & [Hused _] & ->).
  exists (units used). apply solve_board.
  - apply fresh_finalize.
  - apply finalize_consistent.
  - exact Hnd.
  - unfold units. apply Forall_forall. intros [a b] Hab.
    apply list_elem_of_bind in Hab as (ue & Hrep & Hue).
    apply elem_of_replicate in Hrep as [[= -> ->] _].
    apply (proj1 (Forall_forall _ _) Hused) in Hue as [(Hlt & A & B & HA & HB & Hal & Hbetween) _].
    apply (unobstructed_coords (createIslands positions)).
    { by rewrite finalize_coords, sumValues_coords. }
    split; [done|]. exists A, B. split_and!; try done.
    by apply (hasIslandInBetween_unobstructed _ _ _ A B Hok HA HB).
  - intros i p Hp.
    rewrite need_units by (eapply Forall_impl; [exact Hused|]; by intros ? [_ ?]).
    apply finalize_lookup in Hp as (p0 & Hp0 & ->).
    eapply sumValues_value; [apply createIslands_value|exact Hp0].
Qed.

(** X15.  Every board the generator returns can be won by pressing islands
    two at a time: some sequence of such presses leads to a state in which
    the win check sets [isGameWon]. *)
Theorem generated_puzzle_solvable (mode : Mode) (tape tape' : list nat)
    (puzzle : GameBoard) :
  generateValidPuzzle mode tape = Some (puzzle, tape') →
  ∃ us, winEffect (board (run puzzle (us ≫= connect))) false = true.
Proof.
  unfold generateValidPuzzle.
  apply (generateLoop_ind
           (λ puzzle, ∃ us, winEffect (board (run puzzle (us ≫= connect))) false
                            = true)).
  - exists [(0, 1); (0, 1)]%nat. reflexivity.
  - clear. intros tape tape' puzzle Hatt.
    destruct (attempt_solvable mode tape tape' puzzle Hatt) as [us Hus].
    exists us. unfold winEffect.
    assert (length (board (run puzzle (us ≫= connect))) = length puzzle) as Hlen.
    { rewrite <- (length_map static), run_static. apply length_map. }
    pose proof (attempt_coords mode tape tape' puzzle Hatt) as (_ & _ & Hmin & _).
    replace (0 <? length (board (run puzzle (us ≫= connect))))%nat with true.
    2:{ symmetry. apply Nat.ltb_lt. rewrite Hlen. destruct mode; simpl in Hmin; lia. }
    apply forallb_forall. intros p Hp. apply Z.eqb_eq.
    apply list_elem_of_In in Hp.
    exact (proj1 (Forall_forall _ _) Hus p Hp).
Qed.

Lemma generated_puzzle_solvable_witness :
  let tape := [3; 0; 0; 4; 0; 2; 0; 0; 2; 4; 2; 2; 4; 0; 4; 4; 4; 2; 3;
               1; 0; 2; 5; 3; 1; 0; 4; 1; 7; 3; 2; 6; 1; 0; 2; 2; 1;
               0; 1; 2; 3; 4; 5; 6; 7; 8; 9; 10; 11; 12]%nat in
  ∃ puzzle tape',
    generateValidPuzzle easy tape = Some (puzzle, tape')
    ∧ ∃ us, winEffect (board (run puzzle (us ≫= connect))) false = true.
Proof.
  intros tape.
  assert (∃ puzzle tape', generateValidPuzzle easy tape = Some (puzzle, tape'))
    as (puzzle & tape' & H) by (vm_compute; eauto).
  exists puzzle, tape'. split; [exact H|].
  exact (generated_puzzle_solvable easy tape tape' puzzle H).
Defined.

(** * The handlers compared *)

(** X16.  The validator of the component and the obstruction test of the
    generator agree: between two islands that both have connections left,
    a bridge is accepted exactly when [hasIslandInBetween] finds nothing
    on the same board. *)
Theorem validator_agrees_with_generator (board : GameBoard) (a b : Point.t) :
  0 < Point.remainingConnections a → 0 < Point.remainingConnections b →
  isValidConnection board a b = negb (hasIslandInBetween a b board).
Proof.
  intros Ha Hb. unfold isValidConnection, hasIslandInBetween.
  destruct (negb (Point.x a =? Point.x b) && negb (Point.y a =? Point.y b));
    [done|].
  replace (Point.remainingConnections a <=? 0) with false
    by (symmetry; by apply Z.leb_gt).
  replace (Point.remainingConnections b <=? 0) with false
    by (symmetry; by apply Z.leb_gt).
  done.
Qed.

Lemma validator_agrees_with_generator_witness :
  let a := Point.mk 0 2 0 0 0 0 2 in
  let b := Point.mk 1 2 2 0 0 0 1 in
  let c := Point.mk 2 1 1 0 0 0 1 in
  0 < Point.remainingConnections a ∧ 0 < Point.remainingConnections b
  ∧ isValidConnection [a; b; c] a b = negb (hasIslandInBetween a b [a; b; c]).
Proof.
  intros a b c.
  assert (0 < Point.remainingConnections a) as Ha by (simpl; lia).
  assert (0 < Point.remainingConnections b) as Hb by (simpl; lia).
  split; [exact Ha|]. split; [exact Hb|].
  exact (validator_agrees_with_generator [a; b; c] a b Ha Hb).
Defined.



(** X18.  Once every island of the board has no connection left, pressing
    islands, dragging and releasing change neither the board nor the
    bridges: only a click on a bridge alters a solved board. *)
Theorem solved_board_frozen (s : State) (e : event) :
  Forall (λ p, Point.remainingConnections p = 0) (board s) →
  (∀ j, e ≠ BridgeClick j) →
  board (handle s e) = board s ∧ bridges (handle s e) = bridges s.
Proof.
  intros Hwon He.
  assert (∀ sel pt, pt ∈ board s → isValidConnection (board s) sel pt = false)
    as Hinvalid.
  { intros sel pt Hpt. unfold isValidConnection.
    rewrite (proj1 (Forall_forall _ _) Hwon pt Hpt).
    destruct (negb _ && negb _); [done|].
    by rewrite orb_true_r. }
  destruct e as [i|j|near_test|]; cbn [handle].
  - destruct (board s !! i) as [pt|] eqn:Hpt; [|done].
    unfold handlePointClick.
    destruct (selectedPoint s) as [sel|]; [|done].
    destruct (ptr_eq pt sel); [done|].
    rewrite Hinvalid by (by eapply list_elem_of_lookup_2). done.
  - by destruct (He j).
  - unfold handleMouseMove.
    destruct (isDragging s); [|done].
    destruct (selectedPoint s) as [sel|]; [|done].
    destruct (board s) as [|p l] eqn:Hboard; [by rewrite ?Hboard|].
    destruct (List.find _ (p :: l)) as [nr|] eqn:Hfind; [|by rewrite ?Hboard].
    apply find_some in Hfind as [Hin _].
    rewrite Hinvalid by (by apply list_elem_of_In). by rewrite ?Hboard.
  - done.
Qed.

Lemma solved_board_frozen_witness :
  let a := Point.mk 2 2 0 0 0 0 0 in
  let b := Point.mk 3 2 1 0 0 0 0 in
  let s := mkState [a; b] [] (Some a) true 4 2 in
  Forall (λ p, Point.remainingConnections p = 0) (board s)
  ∧ (∀ j, PointClick 1 ≠ BridgeClick j)
  ∧ board (handle s (PointClick 1)) = board s
  ∧ bridges (handle s (PointClick 1)) = bridges s.
Proof.
  intros a b s.
  assert (Forall (λ p, Point.remainingConnections p = 0) (board s)) as Hwon.
  { repeat constructor. }
  assert (∀ j, PointClick 1 ≠ BridgeClick j) as He by (intros j; discriminate).
  split; [exact Hwon|]. split; [exact He|].
  exact (solved_board_frozen s (PointClick 1) Hwon He).
Defined.

(** * Where the bridges end *)

Lemma static_coords (l l' : list Point.t) :
  map static l = map static l' → map coords l = map coords l'.
Proof.
  intros H.
  assert (∀ k : list Point.t,
            map coords k = map (λ t : Z * Z * Z * Z * Z, (t.1.1.1.1, t.1.1.1.2))
                               (map static k)) as Hk.
  { intros k. rewrite List.map_map. done. }
  by rewrite !Hk, H.
Qed.

Lemma handle_coords (s : State) (e : event) :
  map coords (board (handle s e)) = map coords (board s).
Proof. apply static_coords, handle_static. Qed.

Lemma addOrUpdateBridge_endpoints (a b : Point.t) (s : State) (o : Point.t) :
  o ∈ endpoints (bridges (addOrUpdateBridge a b s)) →
  o ∈ endpoints (bridges s) ∨ o = a ∨ o = b.
Proof.
  unfold addOrUpdateBridge.
  destruct (findIndex (joins a b) (bridges s)) as [idx|].
  - destruct (bridges s !! idx) as [existing|] eqn:Hex; [|auto].
    destruct (2 <=? Bridge.count existing);
      rewrite updatePointConnections_bridges; cbn [setBridges bridges];
      rewrite !elem_of_endpoints; intros (b0 & Hb0 & Ho); left.
    + exists b0. split; [|done].
      eapply elem_of_sublist; [exact Hb0|apply sublist_delete].
    + apply list_elem_of_lookup in Hb0 as [i Hi].
      destruct (decide (i = idx)) as [->|Hne].
      * rewrite list_lookup_insert_eq in Hi
          by (by eapply lookup_lt_Some).
        injection Hi as <-. exists existing.
        split; [by eapply list_elem_of_lookup_2|done].
      * rewrite list_lookup_insert_ne in Hi by done.
        exists b0. split; [by eapply list_elem_of_lookup_2|done].
  - rewrite updatePointConnections_bridges. cbn [bridges].
    rewrite !elem_of_endpoints. intros (b0 & Hb0 & Ho).
    apply elem_of_app in Hb0 as [Hb0|Hb0].
    + left. eauto.
    + apply list_elem_of_singleton in Hb0 as ->. cbn in Ho. tauto.
Qed.

Lemma handleBridgeClick_endpoints (bridge : Bridge.t) (s : State) (o : Point.t) :
  o ∈ endpoints (bridges (handleBridgeClick bridge s)) →
  o ∈ endpoints (bridges s).
Proof.
  unfold handleBridgeClick. rewrite !restoreOne_updatePointConnections.
  destruct (1 <? Bridge.count bridge);
    rewrite updatePointConnections_bridges; cbn [setBridges bridges];
    rewrite !elem_of_endpoints; intros (b0 & Hb0 & Ho).
  - apply list_elem_of_fmap in Hb0 as (b1 & -> & Hb1).
    exists b1. split; [done|]. by destruct (Nat.eqb _ _).
  - apply list_elem_of_filter in Hb0 as [_ Hb0]. eauto.
Qed.

Lemma handleBridgeClick_selectedPoint (bridge : Bridge.t) (s : State) :
  selectedPoint (handleBridgeClick bridge s) = selectedPoint s.
Proof.
  unfold handleBridgeClick. rewrite !restoreOne_updatePointConnections.
  destruct (1 <? Bridge.count bridge);
    by rewrite updatePointConnections_selectedPoint.
Qed.

Lemma coords_elem (l : list Point.t) (p : Point.t) :
  p ∈ l → coords p ∈ map coords l.
Proof. intros Hp. apply list_elem_of_fmap. eauto. Qed.

Lemma anchored_add (sel pt : Point.t) (s : State) :
  anchored s → selectedPoint s = Some sel → pt ∈ board s →
  anchored (setSelection None false (addOrUpdateBridge sel pt s)).
Proof.
  intros Han Hsel Hpt o Ho.
  cbn [setSelection bridges selectedPoint board option_list] in Ho |- *.
  rewrite app_nil_r in Ho.
  assert (map coords (board (addOrUpdateBridge sel pt s)) = map coords (board s))
    as ->.
  { destruct (addOrUpdateBridge_board sel pt s) as (c & _ & HF).
    by eapply updated_coords. }
  apply addOrUpdateBridge_endpoints in Ho as [Ho|[->| ->]].
  - apply Han, elem_of_app. by left.
  - apply Han, elem_of_app. right. rewrite Hsel. cbn. by left.
  - by apply coords_elem.
Qed.

Lemma anchored_drop (s : State) :
  anchored s → anchored (setSelection None false s).
Proof.
  intros Han o Ho. cbn [setSelection bridges selectedPoint board option_list] in *.
  rewrite app_nil_r in Ho. apply Han, elem_of_app. by left.
Qed.

Lemma handle_anchored (s : State) (e : event) : anchored s → anchored (handle s e).
Proof.
  intros Han. destruct e as [i|j|near_test|]; cbn [handle].
  - destruct (board s !! i) as [pt|] eqn:Hi; [|done].
    apply list_elem_of_lookup_2 in Hi.
    unfold handlePointClick.
    destruct (selectedPoint s) as [sel|] eqn:Hsel.
    + destruct (ptr_eq pt sel); [by apply anchored_drop|].
      destruct (isValidConnection (board s) sel pt);
        [by apply anchored_add | by apply anchored_drop].
    + intros o Ho. cbn [setSelection bridges selectedPoint board option_list] in *.
      apply elem_of_app in Ho as [Ho|Ho].
      * apply Han, elem_of_app. by left.
      * apply list_elem_of_singleton in Ho as ->. by apply coords_elem.
  - destruct (bridges s !! j) as [b|] eqn:Hj; [|done].
    intros o Ho.
    rewrite (updated_coords _ _ _ _ (handleBridgeClick_board b s)).
    rewrite handleBridgeClick_selectedPoint in Ho.
    apply Han. apply elem_of_app in Ho as [Ho|Ho]; apply elem_of_app;
      [left|by right].
    by eapply handleBridgeClick_endpoints.
  - unfold handleMouseMove.
    destruct (isDragging s); [|done].
    destruct (selectedPoint s) as [sel|] eqn:Hsel; [|done].
    destruct (board s) as [|p0 ps] eqn:Hb; [done|].
    destruct (List.find _ (p0 :: ps)) as [nr|] eqn:Hfind; [|done].
    destruct (isValidConnection (p0 :: ps) sel nr) eqn:Hv; [|done].
    apply find_some in Hfind as [Hin _]. apply list_elem_of_In in Hin.
    apply anchored_add; try done. by rewrite Hb.
  - by apply anchored_drop.
Qed.

Lemma run_anchored (puzzle : GameBoard) (es : list event) :
  anchored (run puzzle es).
Proof.
  induction es as [|e es IH] using rev_ind.
  - intros o Ho. cbn in Ho. by apply elem_of_nil in Ho.
  - rewrite run_snoc. by apply handle_anchored.
Qed.

Lemma run_coords (puzzle : GameBoard) (es : list event) :
  map coords (board (run puzzle es)) = map coords puzzle.
Proof. apply static_coords, run_static. Qed.

Lemma generated_coords_nonneg (mode : Mode) (tape tape' : list nat)
    (puzzle : GameBoard) :
  generateValidPuzzle mode tape = Some (puzzle, tape') →
  Forall (λ pos : Z * Z, 0 <= pos.1 ∧ 0 <= pos.2) (map coords puzzle).
Proof.
  unfold generateValidPuzzle.
  apply (generateLoop_ind
           (λ puzzle, Forall (λ pos : Z * Z, 0 <= pos.1 ∧ 0 <= pos.2)
                             (map coords puzzle))).
  - repeat constructor; simpl; lia.
  - clear. intros tape tape' puzzle Hatt.
    destruct (attempt_coords mode tape tape' puzzle Hatt) as (_ & Hrange & _).
    eapply Forall_impl; [exact Hrange|]. simpl. lia.
Qed.

(** X19.  Drawing never fails to find a colour: for every bridge of every
    state of a game on a generated board, [getBridgeColor] returns an entry
    of [BRIDGE_COLORS], so the destructuring of its result cannot throw. *)
Theorem bridge_colour_defined (mode : Mode) (tape tape' : list nat)
    (puzzle : GameBoard) (es : list event) (b : Bridge.t) :
  generateValidPuzzle mode tape = Some (puzzle, tape') →
  b ∈ bridges (run puzzle es) →
  ∃ c, getBridgeColor (Bridge.start b) (Bridge.end_ b) = Some c
       ∧ c ∈ BRIDGE_COLORS.
Proof.
  intros Hgen Hb.
  pose proof (generated_coords_nonneg mode tape tape' puzzle Hgen) as Hnn.
  rewrite Forall_forall in Hnn.
  assert (∀ o, o ∈ endpoints (bridges (run puzzle es)) →
               0 <= Point.x o ∧ 0 <= Point.y o) as Hends.
  { intros o Ho. apply (Hnn (coords o)).
    rewrite <- (run_coords puzzle es).
    apply run_anchored, elem_of_app. by left. }
  destruct (Hends (Bridge.start b)) as [Hx _].
  { apply elem_of_endpoints. eauto. }
  destruct (Hends (Bridge.end_ b)) as [_ Hy].
  { apply elem_of_endpoints. eauto. }
  unfold getBridgeColor. cbv zeta.
  set (n := Point.x (Bridge.start b) * 3 + Point.y (Bridge.end_ b) * 2).
  assert (0 <= n) as Hn by (unfold n; lia).
  change (Z.of_nat (length BRIDGE_COLORS)) with 10.
  pose proof (Z.rem_bound_pos n 10 Hn ltac:(lia)) as Hrem.
  replace (Z.rem n 10 <? 0) with false by (symmetry; apply Z.ltb_ge; lia).
  destruct (BRIDGE_COLORS !! Z.to_nat (Z.rem n 10)) as [c|] eqn:Hc.
  - exists c. split; [done|]. by eapply list_elem_of_lookup_2.
  - apply lookup_ge_None in Hc. change (length BRIDGE_COLORS) with 10%nat in Hc.
    lia.
Qed.

Lemma bridge_colour_defined_witness :
  let tape := [3; 0; 0; 4; 0; 2; 0; 0; 2; 4; 2; 2; 4; 0; 4; 4; 4; 2; 3;
               1; 0; 2; 5; 3; 1; 0; 4; 1; 7; 3; 2; 6; 1; 0; 2; 2; 1;
               0; 1; 2; 3; 4; 5; 6; 7; 8; 9; 10; 11; 12]%nat in
  let es := [PointClick 1; PointClick 4] in
  ∃ puzzle tape' b,
    generateValidPuzzle easy tape = Some (puzzle, tape')
    ∧ b ∈ bridges (run puzzle es)
    ∧ ∃ c, getBridgeColor (Bridge.start b) (Bridge.end_ b) = Some c
           ∧ c ∈ BRIDGE_COLORS.
Proof.
  intros tape es.
  assert (∃ puzzle tape',
            generateValidPuzzle easy tape = Some (puzzle, tape')
            ∧ ∃ b, bridges (run puzzle es) !! 0%nat = Some b)
    as (puzzle & tape' & H & b & Hb).
  { vm_compute. do 2 eexists. split; [reflexivity|]. vm_compute. eauto. }
  apply list_elem_of_lookup_2 in Hb.
  exists puzzle, tape', b. split; [exact H|]. split; [exact Hb|].
  exact (bridge_colour_defined easy tape tape' puzzle es b H Hb).
Defined.


